(** * Orchestration layer of the chat nodes (web/chat_optimize.js)

    A shallow embedding of the client-side extension: the graph of nodes,
    widgets and links is an arena keyed by ids, the singleton history modal
    is a global of the world state, and every function of the script is a
    computation in a small state-and-exception monad that also records the
    observable events (widget writes, change callbacks, canvas redraws, the
    request sent to the backend).

    Conventions of the model.
    - A JavaScript object reference to a node is its id in the arena; a
      reference to a widget is the pair of the node id and the widget's
      index in [node.widgets].  [Array.prototype.find] returns the first
      match, so "the widget named x" is always the first one of that name.
      A handle that is not in the arena denotes no object, and the
      functions do nothing on it.
    - Link ids are positive numbers, as the host numbers links from 1; the
      truthiness test [!input.link] therefore only detects [null].
    - Widget values are the primitive values of JavaScript.  Numbers are
      integers here: the script never computes with them, it only copies
      them, tests them for truthiness and prints them.
    - Change callbacks supplied by the host editor are opaque: the model
      records that they ran and assumes that they return normally and leave
      the graph and the modal alone.  The one callback this script installs
      itself (the history viewer's) is modelled in full.
    - A dispatch runs from the press of "Execute" to the end of its
      continuation, the answer of the backend being a function of the
      request; handlers of other events that the browser could run while
      the request is in flight are not interleaved.
    - Of a [setTimeout] only the scheduling is recorded. *)

From stdpp Require Import gmap strings list fin_maps pretty.
From Stdlib Require Import ZArith.

Open Scope Z_scope.
Open Scope nat_scope.
Open Scope string_scope.

(** ** JavaScript values held by widgets *)

Module Js.

Inductive JsVal : Type :=
  | VUndef
  | VNull
  | VBool (b : bool)
  | VNum (z : Z)
  | VStr (s : string).

#[global] Instance JsVal_eq_dec : EqDecision JsVal.
Proof. solve_decision. Defined.

(** [ToBoolean]: the test performed by [if (v)], [v || d] and [a && b]. *)
Definition truthy (v : JsVal) : bool :=
  match v with
  | VUndef | VNull => false
  | VBool b => b
  | VNum z => negb (Z.eqb z 0)
  | VStr s => negb (String.eqb s "")
  end.

(** [v || ""] *)
Definition or_empty (v : JsVal) : JsVal :=
  if truthy v then v else VStr "".

(** [v ?? ""] *)
Definition nullish_empty (v : JsVal) : JsVal :=
  match v with
  | VUndef | VNull => VStr ""
  | _ => v
  end.

(** [String(v)], as performed by template literals and by DOM setters. *)
Definition to_string (v : JsVal) : string :=
  match v with
  | VUndef => "undefined"
  | VNull => "null"
  | VBool true => "true"
  | VBool false => "false"
  | VNum z => pretty z
  | VStr s => s
  end.

End Js.
Export Js.

(** ** The node graph *)

(** A widget's [onChange] property.  [CbAbsent] is [undefined]; [CbHost k]
    is a function provided by the host editor; [CbViewer original] is the
    closure installed by [setupHistoryViewer], which captured the previous
    value of the property. *)
Inductive Callback : Type :=
  | CbAbsent
  | CbHost (k : nat)
  | CbViewer (original : Callback).

#[global] Instance Callback_eq_dec : EqDecision Callback.
Proof. solve_decision. Defined.

Definition cb_truthy (cb : Callback) : bool :=
  match cb with
  | CbAbsent => false
  | _ => true
  end.

(** The DOM element backing a text widget ([widget.inputEl]). *)
Record InputEl : Type := mkInputEl {
  el_value : string
}.

Record Widget : Type := mkWidget {
  w_name : string;
  w_value : JsVal;
  w_onChange : Callback;
  w_inputEl : option InputEl
}.

Record Input : Type := mkInput {
  i_name : string;
  i_link : option positive;       (* [null] or a link id *)
  i_widget : option string        (* [input.widget.name] when [input.widget] is set *)
}.

Record Output : Type := mkOutput {
  o_links : option (list positive)  (* [null] or the array of link ids *)
}.

Record Link : Type := mkLink {
  origin_id : positive;
  target_id : positive;
  target_slot : nat
}.

Record Node : Type := mkNode {
  n_widgets : option (list Widget);
  n_inputs : option (list Input);
  n_outputs : option (list Output)
}.

#[global] Instance InputEl_eq_dec : EqDecision InputEl.
Proof. solve_decision. Defined.
#[global] Instance Widget_eq_dec : EqDecision Widget.
Proof. solve_decision. Defined.
#[global] Instance Input_eq_dec : EqDecision Input.
Proof. solve_decision. Defined.
#[global] Instance Output_eq_dec : EqDecision Output.
Proof. solve_decision. Defined.
#[global] Instance Link_eq_dec : EqDecision Link.
Proof. solve_decision. Defined.
#[global] Instance Node_eq_dec : EqDecision Node.
Proof. solve_decision. Defined.

(** ** The history modal and the rest of the world *)

(** [historyModal = { overlay, content, onKey }]: the overlay element (by
    its id among the children of [document.body]), its [style.display], and
    the [textContent] of the content surface. *)
Record Modal : Type := mkModal {
  overlay : nat;
  overlay_display : string;
  content_text : string
}.

(** Work handed to [setTimeout]. *)
Inductive Task : Type :=
  | ScrollModalToBottom
  | ScrollInputToBottom (nid : positive) (wi : nat)
  | UpdateWidgetLock (nid : positive).

(** The request body: widget values, plus the resolved configuration. *)
Inductive PVal : Type :=
  | PJs (v : JsVal)
  | PConfig (c : gmap string JsVal).

Inductive Event : Type :=
  | EvSet (nid : positive) (wi : nat) (v : JsVal)      (* [w.value = v] *)
  | EvChange (nid : positive) (wi : nat) (v : JsVal)   (* [w.onChange(v)] *)
  | EvHost (k : nat) (v : JsVal)                       (* body of a host callback *)
  | EvDirty (nid : positive)                           (* [node.setDirtyCanvas(true, true)] *)
  | EvPost (path : string) (payload : gmap string PVal).

Record World : Type := mkWorld {
  nodes : gmap positive Node;        (* [app.graph.getNodeById] *)
  links : gmap positive Link;        (* [app.graph.links] *)
  historyModal : option Modal;       (* [let historyModal = null] *)
  document_body : list nat;          (* overlays appended to [document.body] *)
  keydown_listeners : nat;           (* listeners added to [document] *)
  timers : list (nat * Task);        (* pending [setTimeout] calls: delay, task *)
  trace : list Event
}.

Definition set_nodes (f : gmap positive Node → gmap positive Node) (w : World) : World :=
  mkWorld (f (nodes w)) (links w) (historyModal w) (document_body w)
          (keydown_listeners w) (timers w) (trace w).

Definition set_modal (m : option Modal) (w : World) : World :=
  mkWorld (nodes w) (links w) m (document_body w)
          (keydown_listeners w) (timers w) (trace w).

Definition add_timer (delay : nat) (t : Task) (w : World) : World :=
  mkWorld (nodes w) (links w) (historyModal w) (document_body w)
          (keydown_listeners w) (timers w ++ [(delay, t)]) (trace w).

Definition add_event (e : Event) (w : World) : World :=
  mkWorld (nodes w) (links w) (historyModal w) (document_body w)
          (keydown_listeners w) (timers w) (trace w ++ [e]).

(** The state of a freshly loaded page showing a given graph. *)
Definition boot (ns : gmap positive Node) (ls : gmap positive Link) : World :=
  mkWorld ns ls None [] 0 [] [].

(** ** The monad: state, plus JavaScript exceptions *)

Inductive Res (A : Type) : Type :=
  | Ok (a : A)
  | Throw (message : string).
Arguments Ok {A} a.
Arguments Throw {A} message.

Definition M (A : Type) : Type := World → Res A * World.

Definition ret {A} (a : A) : M A := λ w, (Ok a, w).

Definition bind {A B} (c : M A) (k : A → M B) : M B :=
  λ w, match c w with
       | (Ok a, w') => k a w'
       | (Throw m, w') => (Throw m, w')
       end.

Definition throw {A} (m : string) : M A := λ w, (Throw m, w).

(** [try { c } catch (err) { h(err.message) }] *)
Definition try_catch {A} (c : M A) (h : string → M A) : M A :=
  λ w, match c w with
       | (Ok a, w') => (Ok a, w')
       | (Throw m, w') => h m w'
       end.

Definition exec {A} (c : M A) (w : World) : World := snd (c w).
Definition result {A} (c : M A) (w : World) : Res A := fst (c w).

#[global] Instance M_ret : MRet M := @ret.
#[global] Instance M_bind : MBind M := λ A B k c, bind c k.

Definition get_world : M World := λ w, (Ok w, w).
Definition modify (f : World → World) : M unit := λ w, (Ok tt, f w).
Definition emit (e : Event) : M unit := modify (add_event e).
Definition setTimeout (t : Task) (delay : nat) : M unit := modify (add_timer delay t).
Definition when (b : bool) (c : M unit) : M unit := if b then c else ret tt.

(** [array.forEach(f)] *)
Fixpoint forEach {A} (l : list A) (f : A → M unit) : M unit :=
  match l with
  | [] => ret tt
  | x :: l' => f x;; forEach l' f
  end.

(** ** Graph accessors and widget mutation *)

(** [widgets.find((w) => w.name === name)], with the index of the match
    standing for the reference to the widget object. *)
Definition find_widget (name : string) (ws : list Widget) : option (nat * Widget) :=
  list_find (λ wd, w_name wd = name) ws.

Definition widget_at (w : World) (nid : positive) (wi : nat) : option Widget :=
  node ← nodes w !! nid; ws ← n_widgets node; ws !! wi.

(** The widget named [name] on node [nid], as [find] sees it. *)
Definition widget_named (w : World) (nid : positive) (name : string) : option (nat * Widget) :=
  node ← nodes w !! nid; ws ← n_widgets node; find_widget name ws.

Definition value_named (w : World) (nid : positive) (name : string) : option JsVal :=
  (λ p, w_value p.2) <$> widget_named w nid name.

Definition with_value (v : JsVal) (wd : Widget) : Widget :=
  mkWidget (w_name wd) v (w_onChange wd) (w_inputEl wd).

Definition with_el_value (s : string) (wd : Widget) : Widget :=
  mkWidget (w_name wd) (w_value wd) (w_onChange wd) ((λ _, mkInputEl s) <$> w_inputEl wd).

Definition with_onChange (cb : Callback) (wd : Widget) : Widget :=
  mkWidget (w_name wd) (w_value wd) cb (w_inputEl wd).

Definition alter_widgets (f : list Widget → list Widget) (node : Node) : Node :=
  mkNode (f <$> n_widgets node) (n_inputs node) (n_outputs node).

(** Mutation of one field of the widget object [(nid, wi)]. *)
Definition upd_widget (nid : positive) (wi : nat) (f : Widget → Widget) : World → World :=
  set_nodes (alter (alter_widgets (alter f wi)) nid).

(** [w.value = v] *)
Definition write_value (nid : positive) (wi : nat) (v : JsVal) : M unit :=
  modify (upd_widget nid wi (with_value v));;
  emit (EvSet nid wi v).

(** ** The history modal (lines 8-105) *)

Definition ensureHistoryModal : M Modal := λ w,
  match historyModal w with
  | Some m => (Ok m, w)                           (* if (historyModal) return historyModal; *)
  | None =>
      let id := length (document_body w) in       (* document.createElement("div") *)
      let m := mkModal id "none" "" in            (* overlay.style.display = "none" *)
      (Ok m, mkWorld (nodes w) (links w) (Some m)
                     (document_body w ++ [id])    (* document.body.appendChild(overlay) *)
                     (S (keydown_listeners w))    (* document.addEventListener("keydown", onKey) *)
                     (timers w) (trace w))
  end.

(** Mutation of the object that both [historyModal] and the local [modal]
    refer to. *)
Definition update_modal (f : Modal → Modal) : M unit :=
  modify (λ w, set_modal (f <$> historyModal w) w).

Definition with_text (s : string) (m : Modal) : Modal :=
  mkModal (overlay m) (overlay_display m) s.

Definition with_display (d : string) (m : Modal) : Modal :=
  mkModal (overlay m) d (content_text m).

Definition openHistoryModal (text : JsVal) : M unit :=
  modal ← ensureHistoryModal;
  update_modal (with_text (to_string (or_empty text)));;   (* modal.content.textContent = text || "" *)
  update_modal (with_display "flex");;                     (* modal.overlay.style.display = "flex" *)
  setTimeout ScrollModalToBottom 0.

Definition closeHistoryModal : M unit :=
  update_modal (with_display "none").

(** [historyModal && historyModal.overlay.style.display !== "none"] *)
Definition modal_open (w : World) : bool :=
  match historyModal w with
  | Some m => bool_decide (overlay_display m ≠ "none")
  | None => false
  end.

Definition isHistoryModalOpen : M bool :=
  w ← get_world; mret (modal_open w).

(** ** Change callbacks *)

(** The body of a widget's [onChange], run on the widget [(nid, wi)] that
    carries it.  For [CbViewer] this is lines 337-352, where
    [historyWidget] is that same widget. *)
Fixpoint run_callback (cb : Callback) (nid : positive) (wi : nat) (v : JsVal) : M unit :=
  match cb with
  | CbAbsent => mret tt
  | CbHost k => emit (EvHost k v)
  | CbViewer original =>
      (* if (originalOnChange) originalOnChange.call(this, v); *)
      when (cb_truthy original) (run_callback original nid wi v);;
      (* if (historyWidget.inputEl && historyWidget.inputEl.value !== v)
           historyWidget.inputEl.value = v || ""; *)
      w ← get_world;
      match widget_at w nid wi ≫= w_inputEl with
      | Some el =>
          when (bool_decide (VStr (el_value el) ≠ v))
               (modify (upd_widget nid wi (with_el_value (to_string (or_empty v)))))
      | None => mret tt
      end;;
      (* if (isHistoryModalOpen()) openHistoryModal(v || ""); *)
      isOpen ← isHistoryModalOpen;
      when isOpen (openHistoryModal (or_empty v));;
      setTimeout (ScrollInputToBottom nid wi) 10
  end.

(** [w.onChange(v)] *)
Definition invoke_onChange (cb : Callback) (nid : positive) (wi : nat) (v : JsVal) : M unit :=
  emit (EvChange nid wi v);;
  run_callback cb nid wi v.

(** ** setWidgetValue (lines 107-115) *)

Definition setWidgetValue (nid : positive) (name : string) (value : JsVal) : M unit :=
  w ← get_world;
  match nodes w !! nid with
  | None => mret tt
  | Some node =>
      match n_widgets node with
      | None => mret tt                                   (* if (!node.widgets) return; *)
      | Some ws =>
          match find_widget name ws with
          | Some (wi, wd) =>
              write_value nid wi (nullish_empty value);;  (* w.value = value ?? ""; *)
              when (cb_truthy (w_onChange wd))            (* if (w.onChange) w.onChange(value); *)
                   (invoke_onChange (w_onChange wd) nid wi value);;
              emit (EvDirty nid)
          | None => mret tt
          end
      end
  end.

(** ** propagateOutput (lines 135-155) *)

(** The chain of lookups of the loop body: the link record, the target
    node, the target input's widget binding, and the widget of that name. *)
Definition resolve_consumer (w : World) (linkId : positive) : option (positive * nat * Widget) :=
  link ← links w !! linkId;                       (* if (!link) return; *)
  targetNode ← nodes w !! target_id link;         (* if (!targetNode) return; *)
  ins ← n_inputs targetNode;
  input ← ins !! target_slot link;
  widgetName ← i_widget input;
  ws ← n_widgets targetNode;                      (* targetNode.widgets?.find(...) *)
  '(wi, wd) ← find_widget widgetName ws;          (* if (w) { ... } *)
  Some (target_id link, wi, wd).

Definition deliver (value : JsVal) (linkId : positive) : M unit :=
  w ← get_world;
  match resolve_consumer w linkId with
  | Some (tid, wi, wd) =>
      write_value tid wi value;;                  (* w.value = value; *)
      when (cb_truthy (w_onChange wd))            (* if (w.onChange) w.onChange(value); *)
           (invoke_onChange (w_onChange wd) tid wi value);;
      emit (EvDirty tid)
  | None => mret tt
  end.

(** [node.outputs[slotIndex].links], when the three guards of line 136 pass. *)
Definition output_links (w : World) (nid : positive) (slotIndex : nat) : option (list positive) :=
  node ← nodes w !! nid;
  outs ← n_outputs node;                          (* !node.outputs *)
  out ← outs !! slotIndex;                        (* !node.outputs[slotIndex] *)
  o_links out.                                    (* !node.outputs[slotIndex].links *)

Definition propagateOutput (nid : positive) (slotIndex : nat) (value : JsVal) : M unit :=
  w ← get_world;
  match output_links w nid slotIndex with
  | Some ls => forEach ls (deliver value)
  | None => mret tt
  end.

(** ** getLLMConfig (lines 157-194) *)

(** [const W = sourceNode.widgets?.find(w => w.name === name);
     if (W) config[name] = W.value;] *)
Definition copy_field (ws : option (list Widget)) (name : string)
    (config : gmap string JsVal) : gmap string JsVal :=
  match ws ≫= find_widget name with
  | Some (_, wd) => <[name := w_value wd]> config
  | None => config
  end.

Definition getLLMConfig (w : World) (node : Node) : option (gmap string JsVal) :=
  ins ← n_inputs node;                                           (* node.inputs?. *)
  '(_, input) ← list_find (λ i, i_name i = "llm_config") ins;   (* findIndex *)
  linkId ← i_link input;                                         (* if (!input.link) return null; *)
  link ← links w !! linkId;                                      (* if (!link) return null; *)
  sourceNode ← nodes w !! origin_id link;                        (* if (!sourceNode) return null; *)
  let ws := n_widgets sourceNode in
  let config := ∅ in
  let config := copy_field ws "provider" config in
  let config := copy_field ws "base_url" config in
  let config := copy_field ws "model_name" config in
  let config := copy_field ws "temperature" config in
  let config := copy_field ws "top_p" config in
  let config := copy_field ws "max_new_tokens" config in
  let config := copy_field ws "hf_token" config in
  Some config.

(** ** The dispatcher: sendAction (lines 223-265) *)

Definition ROUTE_CHAT : string := "/chat_optimize/chat".

Definition excludeWidgets : list string :=
  ["status"; "history_preview"; "assistant_response_preview"; "auto_clear_input"].

(** The body of the [forEach] of lines 234-237. *)
Definition copy_widget (payload : gmap string PVal) (wd : Widget) : gmap string PVal :=
  if bool_decide (w_name wd ∈ excludeWidgets) then payload
  else <[w_name wd := PJs (w_value wd)]> payload.

(** Lines 231-241. *)
Definition buildPayload (w : World) (node : Node) (action : JsVal) : gmap string PVal :=
  let payload := foldl copy_widget ∅ (default [] (n_widgets node)) in
  let payload := <["action" := PJs action]> payload in
  match getLLMConfig w node with
  | Some llmConfig => <["llm_config" := PConfig llmConfig]> payload   (* if (llmConfig) ... *)
  | None => payload
  end.

(** What [res.json()] produced: [null], or a value whose two fields are
    read ([undefined] when a field is missing). *)
Inductive JsonData : Type :=
  | JNull
  | JObj (assistant_response readable_history : JsVal).

(** What the backend did with one request: [fetchApi] rejected with an
    error of the given message, or it resolved with a response whose [ok]
    flag and body text are given and whose body parses to [json] ([inl m]
    when [res.json()] rejects with message [m]). *)
Inductive Fetched : Type :=
  | NetworkError (message : string)
  | HttpResponse (ok : bool) (text : string) (json : string + JsonData).

Definition Backend : Type := string → gmap string PVal → Fetched.

(** postJSON (lines 125-133) *)
Definition postJSON (fetchApi : Backend) (path : string) (body : gmap string PVal) : M JsonData :=
  emit (EvPost path body);;
  match fetchApi path body with
  | NetworkError m => throw m
  | HttpResponse ok text json =>
      if negb ok then throw text                  (* if (!res.ok) throw new Error(await res.text()); *)
      else match json with
           | inl m => throw m
           | inr data => mret data
           end
  end.

Definition field_assistant_response (data : JsonData) : M JsVal :=
  match data with
  | JNull => throw "Cannot read properties of null (reading 'assistant_response')"
  | JObj r _ => mret r
  end.

Definition field_readable_history (data : JsonData) : M JsVal :=
  match data with
  | JNull => throw "Cannot read properties of null (reading 'readable_history')"
  | JObj _ h => mret h
  end.

(** Assignment to the [value] of a widget that [setupChatNode] captured by
    name ([statusWidget], [historyStore], [responseStore]).  A captured
    widget that is no longer among the node's widgets is a detached object;
    writing to it changes nothing the graph can see. *)
Definition assign_captured (nid : positive) (name : string) (v : JsVal) : M unit :=
  w ← get_world;
  match widget_named w nid name with
  | Some (wi, _) => write_value nid wi v
  | None => mret tt
  end.

Definition selected_action (node : Node) : JsVal :=
  match n_widgets node ≫= find_widget "action" with
  | Some (_, wd) => w_value wd                    (* actionWidget.value *)
  | None => VStr "send"
  end.

(** The [catch] block (lines 260-264). *)
Definition on_error (nid : positive) (message : string) : M unit :=
  assign_captured nid "status" (VStr ("error: " +:+ message));;
  emit (EvDirty nid).

(** The statements after the [await] (lines 245-257). *)
Definition on_response (nid : positive) (action : JsVal) (data : JsonData) : M unit :=
  r ← field_assistant_response data;
  assign_captured nid "assistant_response_preview" (or_empty r);;
  h ← field_readable_history data;
  assign_captured nid "history_preview" (or_empty h);;
  propagateOutput nid 0 (or_empty r);;
  propagateOutput nid 1 (or_empty h);;
  w ← get_world;
  (* node.widgets?.find((w) => w.name === "auto_clear_input")?.value *)
  let autoClear := default VUndef (value_named w nid "auto_clear_input") in
  when (bool_decide (action = VStr "send") && truthy autoClear)
       (setWidgetValue nid "user_message" (VStr ""));;
  assign_captured nid "status" (VStr "done");;
  emit (EvDirty nid).

Definition sendAction (fetchApi : Backend) (nid : positive) : M unit :=
  w ← get_world;
  match nodes w !! nid with
  | None => mret tt
  | Some node =>
      let action := selected_action node in
      try_catch
        (assign_captured nid "status" (VStr ("working: " +:+ to_string action +:+ "..."));;
         emit (EvDirty nid);;
         w ← get_world;
         let payload := buildPayload w (default node (nodes w !! nid)) action in
         data ← postJSON fetchApi ROUTE_CHAT payload;
         on_response nid action data)
        (on_error nid)
  end.

(** ** Node setup (lines 117-123, 208-221, 267-289, 336-352)

    Only the parts that shape the graph are kept: the widgets that are
    found or added, and the change callback that is installed.  Styling of
    DOM elements, [setSize] and the connection handlers are outside the
    data model. *)

(** Host: [node.addWidget(type, name, value, callback, options)] pushes a
    new widget, creating [node.widgets] when it is missing.  The callback
    argument becomes the widget's [callback], not its [onChange]. *)
Definition addWidget (nid : positive) (name : string) (value : JsVal) : M unit :=
  modify (set_nodes (alter (λ node,
    mkNode (Some (default [] (n_widgets node) ++ [mkWidget name value CbAbsent None])%list)
           (n_inputs node) (n_outputs node)) nid)).

(** [addOrGetWidget(node, type, name, opts)], with [dflt] for
    [opts.default ?? ""]. *)
Definition addOrGetWidget (nid : positive) (name : string) (dflt : JsVal) : M unit :=
  w ← get_world;
  match widget_named w nid name with
  | Some _ => mret tt                             (* if (w) return w; *)
  | None => addWidget nid name dflt
  end.

Definition setupChatNode (nid : positive) : M unit :=
  addOrGetWidget nid "status" (VStr "idle");;
  addOrGetWidget nid "history_preview" (VStr "");;
  addOrGetWidget nid "assistant_response_preview" (VStr "");;
  setTimeout (UpdateWidgetLock nid) 100;;
  (* if (!existingButton) node.addWidget("button", "Execute", null, ...) *)
  addOrGetWidget nid "Execute" VNull.

Definition setupHistoryViewer (nid : positive) : M unit :=
  (* if (!historyWidget) historyWidget = node.addWidget("text", "history", "", ...) *)
  addOrGetWidget nid "history" (VStr "");;
  (* if (!existingButton) node.addWidget("button", "Open History", null, ...) *)
  addOrGetWidget nid "Open History" VNull;;
  w ← get_world;
  match widget_named w nid "history" with
  | Some (wi, wd) =>
      (* const originalOnChange = historyWidget.onChange;
         historyWidget.onChange = function(v) { ... }; *)
      modify (upd_widget nid wi (with_onChange (CbViewer (w_onChange wd))))
  | None => mret tt
  end.

(** [historyWidget.value ?? historyWidget.inputEl?.value ?? ""] *)
Definition getHistoryText (wd : Widget) : JsVal :=
  match w_value wd with
  | VUndef | VNull =>
      match w_inputEl wd with
      | Some el => VStr (el_value el)
      | None => VStr ""
      end
  | v => v
  end.

(** The callback of the "Open History" button. *)
Definition clickOpenHistory (nid : positive) : M unit :=
  w ← get_world;
  match widget_named w nid "history" with
  | Some (_, wd) => openHistoryModal (getHistoryText wd)
  | None => mret tt
  end.


(** ** The widget lock controller (lines 196-206)

    The [Widget] record above has no [disabled] field: the flag of a widget
    object is kept in a table of its own, keyed by the reference to the
    widget (node id and index).  A key that is absent from the table is a
    widget whose [disabled] was never assigned. *)




(** ** Registration (lines 5-6, 358-368) *)


(** * Vocabulary of the statements *)

(** The widget names that [getLLMConfig] looks for on the origin node. *)
Definition config_fields : list string :=
  ["provider"; "base_url"; "model_name"; "temperature"; "top_p";
   "max_new_tokens"; "hf_token"].

(** The five lookups that precede the construction of the record. *)
Definition config_source (w : World) (node : Node) : option Node :=
  ins ← n_inputs node;
  '(_, input) ← list_find (λ i, i_name i = "llm_config") ins;
  linkId ← i_link input;
  link ← links w !! linkId;
  nodes w !! origin_id link.

(** The payload before the configuration is attached. *)
Definition widget_payload (node : Node) (action : JsVal) : gmap string PVal :=
  <["action" := PJs action]> (foldl copy_widget ∅ (default [] (n_widgets node))).


(** The shape of the graph: everything except the values held by widgets
    and by their backing elements. *)
Definition erase_widget (wd : Widget) : Widget :=
  mkWidget (w_name wd) VUndef (w_onChange wd) ((λ _, mkInputEl "") <$> w_inputEl wd).

Definition erase_node (node : Node) : Node :=
  alter_widgets (fmap erase_widget) node.

Definition skeleton (w : World) : gmap positive Node * gmap positive Link :=
  (erase_node <$> nodes w, links w).

(** The singleton discipline of the modal: the page holds no overlay and no
    key listener before the first open, and exactly the one of
    [historyModal] afterwards. *)
Definition modal_inv (w : World) : Prop :=
  match historyModal w with
  | None => document_body w = [] ∧ keydown_listeners w = 0
  | Some m => document_body w = [overlay m] ∧ keydown_listeners w = 1
  end.

(** How one widget may change while a value [v] is pushed to the widgets
    selected by [t]: not at all, or, when selected, to an object that holds
    [v] or still holds what it held. *)
Definition widget_step (t : Prop) (v : JsVal) (o o' : option Widget) : Prop :=
  o' = o ∨
  (t ∧ ∃ wd wd', o = Some wd ∧ o' = Some wd' ∧
         (w_value wd' = v ∨ w_value wd' = w_value wd)).

(** [evolves T v w w']: [w'] is reached from [w] by pushing [v] to widgets
    selected by [T], possibly running change callbacks on the way. *)
Record evolves (T : positive → nat → Prop) (v : JsVal) (w w' : World) : Prop := mkEvolves {
  ev_skeleton : skeleton w' = skeleton w;
  ev_widgets : ∀ n i, widget_step (T n i) v (widget_at w n i) (widget_at w' n i);
  ev_trace : trace w `prefix_of` trace w';
  ev_timers : timers w `prefix_of` timers w';
  ev_modal_inv : modal_inv w → modal_inv w';
  ev_overlay : ∀ m, historyModal w = Some m →
               ∃ m', historyModal w' = Some m' ∧ overlay m' = overlay m;
  ev_body : ∀ m, historyModal w = Some m →
            document_body w' = document_body w ∧
            keydown_listeners w' = keydown_listeners w
}.

(** A computation that returns normally from every world, and relates the
    world it leaves to the one it found. *)
Definition safe {A} (R : World → World → Prop) (c : M A) : Prop :=
  ∀ w, ∃ a w', c w = (Ok a, w') ∧ R w w'.

(** The consumer widget a link delivers to. *)
Definition consumer_of (w : World) (linkId : positive) : option (positive * nat) :=
  (λ r, r.1) <$> resolve_consumer w linkId.

(** [delivers_to w linkId t wi wd]: the link record, the target node [t],
    the widget binding of the target input and the widget [wd] of that
    name, at index [wi], can all be resolved. *)
Definition delivers_to (w : World) (linkId : positive)
    (t : positive) (wi : nat) (wd : Widget) : Prop :=
  ∃ link targetNode ins input widgetName ws,
    links w !! linkId = Some link ∧
    target_id link = t ∧
    nodes w !! t = Some targetNode ∧
    n_inputs targetNode = Some ins ∧
    ins !! target_slot link = Some input ∧
    i_widget input = Some widgetName ∧
    n_widgets targetNode = Some ws ∧
    find_widget widgetName ws = Some (wi, wd).

(** A link that designates no consumer widget. *)
Definition unresolvable (w : World) (linkId : positive) : Prop :=
  ∀ t wi wd, ¬ delivers_to w linkId t wi wd.

(** Widget [i] of node [n] is a consumer of one of the links [ls]. *)
Definition is_consumer (w : World) (ls : list positive) (n : positive) (i : nat) : Prop :=
  ∃ linkId wd, linkId ∈ ls ∧ delivers_to w linkId n i wd.

(** Widget [i] of node [n] is a consumer of output slot [slotIndex] of
    node [nid]. *)
Definition slot_consumer (w : World) (nid : positive) (slotIndex : nat)
    (n : positive) (i : nat) : Prop :=
  ∃ ls, output_links w nid slotIndex = Some ls ∧ is_consumer w ls n i.

Definition value_at (w : World) (n : positive) (i : nat) : option JsVal :=
  w_value <$> widget_at w n i.

Definition erase_world (w : World) : World := set_nodes (fmap erase_node) w.

(** The consumers of a slot, as a list. *)
Definition slot_consumers (w : World) (nid : positive) (slotIndex : nat) : list (positive * nat) :=
  omap (consumer_of w) (default [] (output_links w nid slotIndex)).

(** A coarser view of [evolves], for computations that push several
    values: the shape of the graph, the growth of the trace and of the
    timer queue, and the singleton discipline of the modal. *)
Record advances (w w' : World) : Prop := mkAdvances {
  ad_skeleton : skeleton w' = skeleton w;
  ad_trace : trace w `prefix_of` trace w';
  ad_timers : timers w `prefix_of` timers w';
  ad_modal_inv : modal_inv w → modal_inv w';
  ad_overlay : ∀ m, historyModal w = Some m →
               ∃ m', historyModal w' = Some m' ∧ overlay m' = overlay m;
  ad_body : ∀ m, historyModal w = Some m →
            document_body w' = document_body w ∧
            keydown_listeners w' = keydown_listeners w
}.

(** A computation that relates the world it leaves to the one it found,
    whether it returns or throws. *)
Definition runs {A} (R : World → World → Prop) (c : M A) : Prop :=
  ∀ w, R w (exec c w).

(** Steps that open nothing: the modal keeps being open or closed, and a
    closed (or not yet created) modal is left untouched. *)
Definition quiet (w w' : World) : Prop :=
  modal_open w' = modal_open w ∧
  (modal_open w = false →
   historyModal w' = historyModal w ∧
   document_body w' = document_body w ∧
   keydown_listeners w' = keydown_listeners w).

(** What can happen to the page: the user presses "Open History" on a
    viewer node, dismisses the modal (close button, click outside the
    panel, Escape), or presses "Execute" on a chat node, whose request the
    backend answers in some way. *)
Inductive UiEvent : Type :=
  | PressOpenHistory (nid : positive)
  | Dismiss
  | PressExecute (fetchApi : Backend) (nid : positive).

Definition handle (e : UiEvent) : M unit :=
  match e with
  | PressOpenHistory nid => clickOpenHistory nid
  | Dismiss => closeHistoryModal
  | PressExecute fetchApi nid => sendAction fetchApi nid
  end.

(** The two effects of the viewer's callback on the page, in closed form:
    the backing element takes the new text, and an open modal shows it. *)
Definition mirror_input (nid : positive) (wi : nat) (arg : JsVal) (w : World) : World :=
  match widget_at w nid wi ≫= w_inputEl with
  | Some el =>
      if bool_decide (VStr (el_value el) ≠ arg)
      then upd_widget nid wi (with_el_value (to_string (or_empty arg))) w
      else w
  | None => w
  end.

Definition reopen (arg : JsVal) (w : World) : World :=
  match historyModal w with
  | Some m =>
      if bool_decide (overlay_display m ≠ "none")
      then add_timer 0 ScrollModalToBottom
             (set_modal (Some (mkModal (overlay m) "flex" (to_string (or_empty arg)))) w)
      else w
  | None => w
  end.

(** The status text shown while a request is in flight. *)
Definition status_working (action : JsVal) : JsVal :=
  VStr ("working: " +:+ to_string action +:+ "...").

(** The request body that a dispatch on node [nid] sends from world [w]:
    the payload is built after the status has been set to "working". *)
Definition dispatch_payload (w : World) (nid : positive) : gmap string PVal :=
  match nodes w !! nid with
  | Some node =>
      let action := selected_action node in
      let w1 := exec (assign_captured nid "status" (status_working action);;
                      emit (EvDirty nid)) w in
      buildPayload w1 (default node (nodes w1 !! nid)) action
  | None => ∅
  end.

(** The backend call fails with message [m]: a transport error, a response
    that is not ok and whose body text is [m], or a body that does not
    parse. *)
Definition backend_fails (fetchApi : Backend) (payload : gmap string PVal) (m : string) : Prop :=
  fetchApi ROUTE_CHAT payload = NetworkError m ∨
  (∃ json, fetchApi ROUTE_CHAT payload = HttpResponse false m json) ∨
  (∃ text, fetchApi ROUTE_CHAT payload = HttpResponse true text (inl m)).

(** The backend call succeeds with a body whose two fields are [r] and
    [h] ([VUndef] for a missing field). *)
Definition backend_replies (fetchApi : Backend) (payload : gmap string PVal)
    (r h : JsVal) : Prop :=
  ∃ text, fetchApi ROUTE_CHAT payload = HttpResponse true text (inr (JObj r h)).

(** The [llm_config] input of [node] is connected, and its link and the
    origin node [src] of that link resolve. *)
Definition config_link (w : World) (node : Node) (src : Node) : Prop :=
  ∃ ins k input linkId link,
    n_inputs node = Some ins ∧
    list_find (λ i, i_name i = "llm_config") ins = Some (k, input) ∧
    i_link input = Some linkId ∧
    links w !! linkId = Some link ∧
    nodes w !! origin_id link = Some src.


(** Node [src] exposes a widget [name] holding [v] / no widget [name]. *)
Definition exposes (src : Node) (name : string) (v : JsVal) : Prop :=
  ∃ i wd, n_widgets src ≫= find_widget name = Some (i, wd) ∧ w_value wd = v.

Definition lacks (src : Node) (name : string) : Prop :=
  n_widgets src ≫= find_widget name = None.

(** The events that a computation added to the trace. *)
Definition new_events (w w' : World) : list Event :=
  drop (length (trace w)) (trace w').

(** Does widget [i] of node [n] carry a change callback? *)
Definition callbacks (w : World) (n : positive) (i : nat) : bool :=
  match widget_at w n i with
  | Some wd => cb_truthy (w_onChange wd)
  | None => false
  end.

(** [notified cbs exempt tr]: in the trace [tr], every assignment to the
    value of a widget that carries a change callback is immediately
    followed by the invocation of that callback on that widget, except for
    the widgets selected by [exempt]. *)
Fixpoint notified (cbs exempt : positive → nat → bool) (tr : list Event) : bool :=
  match tr with
  | [] => true
  | EvSet n i _ :: rest =>
      (negb (cbs n i) || exempt n i ||
       match rest with
       | EvChange n' i' _ :: _ => bool_decide (n' = n ∧ i' = i)
       | _ => false
       end) && notified cbs exempt rest
  | _ :: rest => notified cbs exempt rest
  end.


(** The widgets of node [nid] that its dispatcher captured at setup: the
    status display and the two caches. *)
Definition captured_names : list string :=
  ["status"; "assistant_response_preview"; "history_preview"].

Definition captured (nid : positive) (w : World) (n : positive) (i : nat) : bool :=
  bool_decide (n = nid) &&
  bool_decide (Some i ∈ (λ name, (λ p, p.1) <$> widget_named w nid name) <$> captured_names).

(** [logs ex w w']: the shape of the graph is kept, and the events added
    between [w] and [w'] notify every widget they assign, outside the
    exemption [ex w]. *)
Definition logs (ex : World → positive → nat → bool) (w w' : World) : Prop :=
  skeleton w' = skeleton w ∧
  ∃ tr, trace w' = (trace w ++ tr)%list ∧ notified (callbacks w) (ex w) tr = true.

(** No link of output slots 0 and 1 of node [nid] delivers to a widget of
    that same node. *)
Definition no_feedback (w : World) (nid : positive) : Prop :=
  ∀ slotIndex i, slotIndex ∈ [0; 1] → ¬ slot_consumer w nid slotIndex nid i.

(** Does a successful dispatch clear the input? *)
Definition clears_input (w : World) (nid : positive) (action : JsVal) : bool :=
  bool_decide (action = VStr "send") &&
  truthy (default VUndef (value_named w nid "auto_clear_input")).

(** ** Further vocabulary *)

(** The value of the first widget of [src] named [name], as [find] sees
    it, and the value of the last one. *)
Definition first_value (src : Node) (name : string) : option JsVal :=
  (λ p, w_value p.2) <$> (n_widgets src ≫= find_widget name).


(** The events of a trace that are requests to the backend. *)
Definition is_post (e : Event) : bool :=
  match e with
  | EvPost _ _ => true
  | _ => false
  end.

(** [traced P w w']: the trace only grew, by events that satisfy [P]. *)
Definition traced (P : Event → Prop) (w w' : World) : Prop :=
  ∃ tr, trace w' = (trace w ++ tr)%list ∧ Forall P tr.

(** The timers that a computation added to the queue. *)
Definition new_timers (w w' : World) : list (nat * Task) :=
  drop (length (timers w)) (timers w').

Definition is_input_scroll (t : nat * Task) : bool :=
  match t.2 with
  | ScrollInputToBottom _ _ => true
  | _ => false
  end.

(** How many times [setupHistoryViewer] wrapped a callback. *)
Fixpoint viewer_depth (cb : Callback) : nat :=
  match cb with
  | CbViewer original => S (viewer_depth original)
  | _ => 0
  end.

(** What [postJSON] makes of the backend's answer: the message of the
    error it throws, or the parsed body it returns. *)
Definition reply_of (f : Fetched) : string + JsonData :=
  match f with
  | NetworkError m => inl m
  | HttpResponse ok text json => if ok then json else inl text
  end.

(** The message of the [TypeError] raised by reading a field of [null]. *)
Definition null_body_message : string :=
  "Cannot read properties of null (reading 'assistant_response')".

(** The message that the [catch] block of a dispatch receives, if it runs:
    the error thrown by [postJSON], or the [TypeError] of reading the reply
    off a body that parsed to [null]. *)
Definition abort_message (f : Fetched) : option string :=
  match reply_of f with
  | inl m => Some m
  | inr JNull => Some null_body_message
  | inr (JObj _ _) => None
  end.

(** The text that a dispatch leaves in the status widget, by the answer of
    the backend. *)
Definition final_status (f : Fetched) : JsVal :=
  match abort_message f with
  | Some m => VStr ("error: " +:+ m)
  | None => VStr "done"
  end.

(** The host callbacks that a change callback reaches, innermost first:
    a viewer's closure calls the callback it replaced, then does its own
    work. *)
Fixpoint host_events (cb : Callback) (v : JsVal) : list Event :=
  match cb with
  | CbAbsent => []
  | CbHost k => [EvHost k v]
  | CbViewer original => host_events original v
  end.

(** The timers that a change callback schedules on widget [(nid, wi)],
    when the modal is open or not. *)
Fixpoint scroll_timers (open : bool) (nid : positive) (wi : nat) (cb : Callback)
    : list (nat * Task) :=
  match cb with
  | CbViewer original =>
      scroll_timers open nid wi original ++
      (if open then [(0, ScrollModalToBottom)] else []) ++
      [(10, ScrollInputToBottom nid wi)]
  | _ => []
  end.

(** The events of one notified assignment: the write of [v], the callback
    called with [arg] if the widget carries one, and the redraw. *)
Definition write_events (n : positive) (i : nat) (v arg : JsVal) (cb : Callback) : list Event :=
  (EvSet n i v ::
   (if cb_truthy cb then EvChange n i arg :: host_events cb arg else []) ++
   [EvDirty n])%list.

Definition deliver_events (w : World) (v : JsVal) (linkId : positive) : list Event :=
  match resolve_consumer w linkId with
  | Some (t, i, wd) => write_events t i v v (w_onChange wd)
  | None => []
  end.

Definition propagate_events (w : World) (nid : positive) (slotIndex : nat) (v : JsVal)
    : list Event :=
  default [] (output_links w nid slotIndex) ≫= deliver_events w v.

(** [grows nid w w']: [w'] is [w] with widgets possibly appended to node
    [nid]: every widget that was there is still there, at its index and
    unchanged, and nothing else about the graph or the page moved. *)
Record grows (nid : positive) (w w' : World) : Prop := mkGrows {
  gr_widgets : ∀ n i wd, widget_at w n i = Some wd → widget_at w' n i = Some wd;
  gr_ports : ∀ n node, nodes w !! n = Some node →
             ∃ node', nodes w' !! n = Some node' ∧
                      n_inputs node' = n_inputs node ∧ n_outputs node' = n_outputs node;
  gr_absent : ∀ n, nodes w !! n = None → nodes w' !! n = None;
  gr_others : ∀ n, n ≠ nid → nodes w' !! n = nodes w !! n;
  gr_links : links w' = links w;
  gr_trace : trace w' = trace w;
  gr_modal : historyModal w' = historyModal w;
  gr_body : document_body w' = document_body w;
  gr_timers : timers w `prefix_of` timers w'
}.




(** [confined w0 nid w w']: a step taken in a world of the shape of [w0]
    keeps that shape, and leaves alone every widget that is neither on node
    [nid] nor a consumer of its outputs 0 and 1. *)
Definition confined (w0 : World) (nid : positive) (w w' : World) : Prop :=
  skeleton w = skeleton w0 →
  skeleton w' = skeleton w0 ∧
  ∀ n i, n ≠ nid → ¬ slot_consumer w0 nid 0 n i → ¬ slot_consumer w0 nid 1 n i →
         widget_at w' n i = widget_at w n i.

(** * Example graphs *)

Module Examples.

(** A chat node (1) wired to a text node (3), a history viewer (2), a
    configuration source (4), a node whose bound widget was renamed (5),
    and a link id (9) that the graph no longer knows. *)
Definition chat_node : Node := mkNode
  (Some [mkWidget "user_message" (VStr "hi") CbAbsent None;
         mkWidget "action" (VStr "send") CbAbsent None;
         mkWidget "auto_clear_input" (VBool true) CbAbsent None;
         mkWidget "status" (VStr "idle") (CbHost 0) None;
         mkWidget "history_preview" (VStr "") CbAbsent None;
         mkWidget "assistant_response_preview" (VStr "") CbAbsent None])
  (Some [mkInput "llm_config" (Some 5%positive) None])
  (Some [mkOutput (Some [7%positive; 9%positive; 1%positive]);
         mkOutput (Some [2%positive])]).

Definition viewer_node : Node := mkNode
  (Some [mkWidget "history" (VStr "") (CbViewer CbAbsent) (Some (mkInputEl ""))])
  (Some [mkInput "history" (Some 2%positive) (Some "history")])
  None.

Definition text_node : Node := mkNode
  (Some [mkWidget "text" (VStr "old") (CbHost 1) None])
  (Some [mkInput "text" (Some 1%positive) (Some "text")])
  None.

Definition config_node : Node := mkNode
  (Some [mkWidget "provider" (VStr "openai") CbAbsent None;
         mkWidget "model_name" (VStr "gpt") CbAbsent None;
         mkWidget "api_key" (VStr "sk-1") CbAbsent None])
  None
  (Some [mkOutput (Some [5%positive])]).

Definition renamed_node : Node := mkNode
  (Some [mkWidget "prompt" (VStr "old") CbAbsent None])
  (Some [mkInput "text" (Some 7%positive) (Some "text")])
  None.

Definition studio : World := boot
  (list_to_map [(1%positive, chat_node); (2%positive, viewer_node);
                (3%positive, text_node); (4%positive, config_node);
                (5%positive, renamed_node)])
  (list_to_map [(1%positive, mkLink 1 3 0); (2%positive, mkLink 1 2 0);
                (5%positive, mkLink 4 1 0); (7%positive, mkLink 1 5 0)]).



End Examples.

Module Gallery.

(** Two history viewers, one of them with a backing text area. *)
Definition viewer_a : Node := mkNode
  (Some [mkWidget "history" (VStr "alpha") (CbViewer CbAbsent) (Some (mkInputEl "alpha"));
         mkWidget "Open History" VNull CbAbsent None])
  None None.

Definition viewer_b : Node := mkNode
  (Some [mkWidget "history" (VStr "beta") (CbViewer (CbHost 3)) None;
         mkWidget "Open History" VNull CbAbsent None])
  None None.

Definition page : World :=
  boot (list_to_map [(1%positive, viewer_a); (2%positive, viewer_b)]) ∅.

End Gallery.

Module Backends.

(** The endpoint answers HTTP 500 with body "boom". *)
Definition boom : Backend := λ _ _, HttpResponse false "boom" (inl "Unexpected token").

(** The endpoint answers with a reply and a transcript. *)
Definition fine : Backend := λ _ _, HttpResponse true "" (inr (JObj (VStr "R") (VStr "H"))).

End Backends.

Module Bare.

(** A chat node whose [llm_config] input is wired to a node that exposes
    none of the fields the resolver looks for. *)
Definition chat : Node := mkNode
  (Some [mkWidget "user_message" (VStr "hi") CbAbsent None;
         mkWidget "status" (VStr "idle") CbAbsent None])
  (Some [mkInput "llm_config" (Some 5%positive) None])
  None.

Definition source : Node := mkNode
  (Some [mkWidget "seed" (VNum 7) CbAbsent None])
  None
  (Some [mkOutput (Some [5%positive])]).

Definition page : World := boot
  (list_to_map [(1%positive, chat); (4%positive, source)])
  (list_to_map [(5%positive, mkLink 4 1 0)]).

End Bare.

Module Odd.

(** A node without inputs that carries a widget named like the
    configuration key. *)
Definition node : Node := mkNode
  (Some [mkWidget "llm_config" (VStr "x") CbAbsent None])
  None None.

Definition page : World := boot (list_to_map [(1%positive, node)]) ∅.

End Odd.

Module Echo.

(** A chat node whose reply output is linked back to an input of its own,
    bound to its history cache. *)
Definition chat : Node := mkNode
  (Some [mkWidget "user_message" (VStr "hi") CbAbsent None;
         mkWidget "status" (VStr "idle") CbAbsent None;
         mkWidget "history_preview" (VStr "") CbAbsent None;
         mkWidget "assistant_response_preview" (VStr "") CbAbsent None])
  (Some [mkInput "history_preview" (Some 1%positive) (Some "history_preview")])
  (Some [mkOutput (Some [1%positive]); mkOutput None]).

Definition page : World :=
  boot (list_to_map [(1%positive, chat)]) (list_to_map [(1%positive, mkLink 1 1 0)]).

End Echo.

Module Hollow.

(** The endpoint answers HTTP 200 with the body [null]. *)
Definition null : Backend := λ _ _, HttpResponse true "null" (inr JNull).

End Hollow.

Module Twins.

(** A node with two widgets of the same name, the first of which carries
    a host callback, and an output whose two links reach the same input of
    a second node. *)
Definition node : Node := mkNode
  (Some [mkWidget "text" (VStr "a") (CbHost 7) None;
         mkWidget "text" (VStr "b") CbAbsent None])
  (Some [mkInput "text" (Some 1%positive) (Some "text")])
  None.

Definition source : Node := mkNode
  None None
  (Some [mkOutput (Some [1%positive; 3%positive; 1%positive])]).

Definition page : World :=
  boot (list_to_map [(1%positive, node); (2%positive, source)])
       (list_to_map [(1%positive, mkLink 2 1 0)]).

End Twins.

Module Fresh.

(** A chat node as the host creates it, before the extension has seen it,
    and a viewer node in the same state. *)
Definition chat : Node := mkNode
  (Some [mkWidget "user_message" (VStr "") CbAbsent None;
         mkWidget "action" (VStr "send") CbAbsent None])
  (Some [mkInput "llm_config" None None])
  (Some [mkOutput None; mkOutput None]).

Definition viewer : Node := mkNode None None None.

Definition page : World :=
  boot (list_to_map [(1%positive, chat); (2%positive, viewer)]) ∅.

End Fresh.

Module Stale.

(** A chat node with its own connection fields, whose [llm_config] input
    still carries the id of a link that the graph no longer has. *)
Definition chat : Node := mkNode
  (Some [mkWidget "base_url" (VStr "http://localhost") CbAbsent None;
         mkWidget "model_name" (VStr "m") CbAbsent None;
         mkWidget "model_name" (VStr "shadowed") CbAbsent None])
  (Some [mkInput "llm_config" (Some 8%positive) None])
  None.

Definition page : World := boot (list_to_map [(1%positive, chat)]) ∅.

End Stale.
(** * Properties *)

(** Closed decidable goals, such as membership in a list of literals. *)
Ltac by_compute := apply (bool_decide_unpack _); vm_compute; exact I.

(** ** JavaScript values *)

Lemma or_empty_str (s : string) : or_empty (VStr s) = VStr s.
Proof.
  unfold or_empty; simpl.
  destruct (String.eqb_spec s ""); simpl; congruence.
Qed.

Lemma to_string_or_empty_str (s : string) : to_string (or_empty (VStr s)) = s.
Proof. by rewrite or_empty_str. Qed.

(** ** The configuration resolver *)

Section Resolver.

Implicit Types (w : World) (node : Node) (config : gmap string JsVal).

Lemma copy_field_lookup_ne ws name config key :
  key ≠ name → copy_field ws name config !! key = config !! key.
Proof.
  intros Hne. unfold copy_field.
  destruct (ws ≫= find_widget name) as [[wi wd]|]; [|done].
  by rewrite lookup_insert_ne.
Qed.


Lemma copy_field_missing ws name config :
  ws ≫= find_widget name = None → copy_field ws name config = config.
Proof. intros H. unfold copy_field. by rewrite H. Qed.

Lemma getLLMConfig_source w node :
  getLLMConfig w node =
  (λ src, foldl (λ config name, copy_field (n_widgets src) name config) ∅ config_fields)
    <$> config_source w node.
Proof.
  unfold getLLMConfig, config_source.
  destruct (n_inputs node) as [ins|]; simpl; [|done].
  destruct (list_find _ ins) as [[i input]|]; simpl; [|done].
  destruct (i_link input) as [linkId|]; simpl; [|done].
  destruct (links w !! linkId) as [link|]; simpl; [|done].
  by destruct (nodes w !! origin_id link).
Qed.

(** No key outside [config_fields] is ever produced. *)
Lemma getLLMConfig_keys w node config key :
  getLLMConfig w node = Some config → key ∉ config_fields → config !! key = None.
Proof.
  rewrite getLLMConfig_source. intros H Hkey.
  destruct (config_source w node) as [src|]; simplify_eq/=.
  rewrite !copy_field_lookup_ne; [done|..];
    intros ->; apply Hkey; by_compute.
Qed.

Lemma getLLMConfig_no_api_key w node config :
  getLLMConfig w node = Some config → config !! "api_key" = None.
Proof.
  intros H. apply (getLLMConfig_keys _ _ _ _ H). by_compute.
Qed.

Lemma buildPayload_unfold w node action :
  buildPayload w node action =
  match getLLMConfig w node with
  | Some llmConfig => <["llm_config" := PConfig llmConfig]> (widget_payload node action)
  | None => widget_payload node action
  end.
Proof. done. Qed.



End Resolver.

(** ** The monad *)

Lemma bind_unfold {A B} (c : M A) (k : A → M B) w :
  (c ≫= k) w = match c w with
               | (Ok a, w') => k a w'
               | (Throw m, w') => (Throw m, w')
               end.
Proof. done. Qed.

Lemma bind_ok {A B} (c : M A) (k : A → M B) w a w' :
  c w = (Ok a, w') → (c ≫= k) w = k a w'.
Proof. intros H. by rewrite bind_unfold, H. Qed.

Lemma bind_throw {A B} (c : M A) (k : A → M B) w m w' :
  c w = (Throw m, w') → (c ≫= k) w = (Throw m, w').
Proof. intros H. by rewrite bind_unfold, H. Qed.

Section Safe.

Context (R : World → World → Prop) `{!PreOrder R}.

Lemma safe_ret {A} (a : A) : safe R (mret a).
Proof. intros w. by exists a, w. Qed.

Lemma safe_bind {A B} (c : M A) (k : A → M B) :
  safe R c → (∀ a, safe R (k a)) → safe R (c ≫= k).
Proof.
  intros Hc Hk w.
  destruct (Hc w) as (a & w1 & E1 & R1).
  destruct (Hk a w1) as (b & w2 & E2 & R2).
  exists b, w2. split; [by rewrite (bind_ok _ _ _ _ _ E1)|by etrans].
Qed.

(** A continuation that inspects the current world. *)
Lemma safe_read {B} (k : World → M B) :
  (∀ w0, safe R (k w0)) → safe R (get_world ≫= k).
Proof. intros Hk w. apply (Hk w w). Qed.

Lemma safe_modify (f : World → World) :
  (∀ w, R w (f w)) → safe R (modify f).
Proof. intros Hf w. by exists tt, (f w). Qed.

Lemma safe_when (b : bool) (c : M unit) : safe R c → safe R (when b c).
Proof. destruct b; [done|]. intros _. apply safe_ret. Qed.

Lemma safe_forEach {A} (l : list A) (f : A → M unit) :
  (∀ x, x ∈ l → safe R (f x)) → safe R (forEach l f).
Proof.
  induction l as [|x l IH]; intros Hf; simpl.
  - apply safe_ret.
  - apply safe_bind; [apply Hf; by left|].
    intros _. apply IH. intros y Hy. apply Hf. by right.
Qed.

End Safe.

(** One step of structural decomposition of a [safe] goal. *)
Ltac safe_step :=
  repeat match goal with
  | |- PreOrder _ => apply _
  | |- ∀ _, _ => intro
  | |- safe _ (mret _) => apply safe_ret
  | |- safe _ (mbind _ get_world) => apply safe_read
  | |- safe _ (mbind _ _) => apply safe_bind
  | |- safe _ (when _ _) => apply safe_when
  end.

Lemma safe_mono {A} (R R' : World → World → Prop) (c : M A) :
  (∀ w w', R w w' → R' w w') → safe R c → safe R' c.
Proof.
  intros HR Hc w. destruct (Hc w) as (a & w' & E & H). eauto.
Qed.

(** What a safe computation says about [exec] and [result]. *)
Lemma safe_exec {A} R (c : M A) w : safe R c → R w (exec c w).
Proof. intros Hc. destruct (Hc w) as (a & w' & E & H). unfold exec. by rewrite E. Qed.

Lemma safe_result {A} R (c : M A) w : safe R c → ∃ a, result c w = Ok a.
Proof. intros Hc. destruct (Hc w) as (a & w' & E & H). exists a. unfold result. by rewrite E. Qed.

(** ** Widgets under mutation *)

Lemma widget_at_upd nid wi f w n i :
  widget_at (upd_widget nid wi f w) n i =
  if decide (nid = n ∧ wi = i) then f <$> widget_at w n i else widget_at w n i.
Proof.
  unfold widget_at, upd_widget, set_nodes; simpl.
  rewrite lookup_alter.
  destruct (decide (nid = n)) as [->|Hn].
  - destruct (nodes w !! n) as [node|]; simpl; [|by case_decide].
    destruct (n_widgets node) as [ws|]; simpl; [|by case_decide].
    rewrite list_lookup_alter.
    destruct (decide (wi = i)) as [->|Hi].
    + by rewrite decide_True.
    + rewrite decide_False; [done|]. by intros [_ ?].
  - rewrite decide_False; [done|]. by intros [? _].
Qed.

Lemma erase_node_alter f wi node :
  (∀ wd, erase_widget (f wd) = erase_widget wd) →
  erase_node (alter_widgets (alter f wi) node) = erase_node node.
Proof.
  intros Hf. unfold erase_node, alter_widgets; simpl. f_equal.
  destruct (n_widgets node) as [ws|]; simpl; [|done]. f_equal.
  apply list_eq. intros i.
  rewrite !list_lookup_fmap, list_lookup_alter.
  case_decide; [subst|done].
  destruct (ws !! i); simpl; [|done]. by rewrite Hf.
Qed.

Lemma skeleton_upd nid wi f w :
  (∀ wd, erase_widget (f wd) = erase_widget wd) →
  skeleton (upd_widget nid wi f w) = skeleton w.
Proof.
  intros Hf. unfold skeleton, upd_widget, set_nodes; simpl. f_equal.
  apply map_eq. intros n.
  rewrite !lookup_fmap, lookup_alter.
  case_decide; [subst|done].
  destruct (nodes w !! n) as [node|]; simpl; [|done].
  by rewrite erase_node_alter.
Qed.

Lemma erase_with_value v wd : erase_widget (with_value v wd) = erase_widget wd.
Proof. done. Qed.

Lemma erase_with_el_value s wd : erase_widget (with_el_value s wd) = erase_widget wd.
Proof. unfold erase_widget; simpl. by destruct (w_inputEl wd). Qed.

(** ** World evolution is a preorder *)

Lemma widget_step_refl t v o : widget_step t v o o.
Proof. by left. Qed.

Lemma widget_step_trans t v o1 o2 o3 :
  widget_step t v o1 o2 → widget_step t v o2 o3 → widget_step t v o1 o3.
Proof.
  intros [E12|(Ht & wd1 & wd2 & E1 & E2 & H12)] [E23|(Ht' & wd2' & wd3 & E2' & E3 & H23)];
    subst.
  - by left.
  - right. eauto 10.
  - right. eauto 10.
  - simplify_eq. right. split; [done|]. exists wd1, wd3.
    split_and!; [done..|]. destruct H23 as [?|E]; [by left|by rewrite E].
Qed.

Lemma widget_step_mono (t t' : Prop) v o o' :
  (t → t') → widget_step t v o o' → widget_step t' v o o'.
Proof. intros Ht [->|(? & ?)]; [by left|right; eauto]. Qed.

#[global] Instance evolves_preorder T v : PreOrder (evolves T v).
Proof.
  split.
  - intros w. split; try done.
    + intros n i. apply widget_step_refl.
    + eauto.
  - intros w1 w2 w3 [S1 W1 Tr1 Ti1 M1 O1 B1] [S2 W2 Tr2 Ti2 M2 O2 B2]. split.
    + congruence.
    + intros n i. eapply widget_step_trans; [apply W1|apply W2].
    + by etrans.
    + by etrans.
    + auto.
    + intros m Hm. destruct (O1 m Hm) as (m' & Hm' & E').
      destruct (O2 m' Hm') as (m'' & Hm'' & E''). exists m''. split; [done|congruence].
    + intros m Hm. destruct (O1 m Hm) as (m' & Hm' & E').
      destruct (B1 m Hm) as [? ?]. destruct (B2 m' Hm') as [? ?]. split; congruence.
Qed.

Lemma evolves_mono (T T' : positive → nat → Prop) v w w' :
  (∀ n i, T n i → T' n i) → evolves T v w w' → evolves T' v w w'.
Proof.
  intros HT [S W Tr Ti Mi O B]. split; try done.
  intros n i. eapply widget_step_mono; [apply HT|apply W].
Qed.

(** ** The primitive steps evolve the world *)

Section Primitives.

Context (T : positive → nat → Prop) (v : JsVal).

Lemma evolves_add_event e w : evolves T v w (add_event e w).
Proof.
  split; try done.
  - intros n i. by left.
  - by apply prefix_app_r.
  - eauto.
Qed.

Lemma evolves_add_timer d t w : evolves T v w (add_timer d t w).
Proof.
  split; try done.
  - intros n i. by left.
  - by apply prefix_app_r.
  - eauto.
Qed.

Lemma evolves_upd_widget nid wi f w :
  T nid wi →
  (∀ wd, erase_widget (f wd) = erase_widget wd) →
  (∀ wd, w_value (f wd) = v ∨ w_value (f wd) = w_value wd) →
  evolves T v w (upd_widget nid wi f w).
Proof.
  intros HT Hf Hv. split; try done.
  - by apply skeleton_upd.
  - intros n i. rewrite widget_at_upd.
    case_decide as Hni; [|by left]. destruct Hni as [<- <-].
    destruct (widget_at w nid wi) as [wd|]; [|by left].
    right. split; [done|]. by exists wd, (f wd).
  - eauto.
Qed.

Lemma evolves_set_modal (f : Modal → Modal) w :
  (∀ m, overlay (f m) = overlay m) →
  evolves T v w (set_modal (f <$> historyModal w) w).
Proof.
  intros Hf. split; try done.
  - intros n i. by left.
  - unfold modal_inv; simpl.
    destruct (historyModal w) as [m|]; simpl; [|done]. by rewrite Hf.
  - intros m Hm. rewrite Hm. simpl. eauto.
Qed.

Lemma safe_emit e : safe (evolves T v) (emit e).
Proof. apply safe_modify. intros w. apply evolves_add_event. Qed.

Lemma safe_setTimeout t d : safe (evolves T v) (setTimeout t d).
Proof. apply safe_modify. intros w. apply evolves_add_timer. Qed.

Lemma safe_update_modal f :
  (∀ m, overlay (f m) = overlay m) → safe (evolves T v) (update_modal f).
Proof. intros Hf. apply safe_modify. intros w. by apply evolves_set_modal. Qed.

Lemma safe_write_value nid wi :
  T nid wi → safe (evolves T v) (write_value nid wi v).
Proof.
  intros HT. unfold write_value. safe_step.
  - apply safe_modify. intros w. apply evolves_upd_widget; [done|done|]. by left.
  - apply safe_emit.
Qed.

Lemma safe_ensureHistoryModal : safe (evolves T v) ensureHistoryModal.
Proof.
  intros w. unfold ensureHistoryModal.
  destruct (historyModal w) as [m|] eqn:Hm.
  - exists m, w. split; [done|reflexivity].
  - eexists _, _. split; [done|]. split; try done; simpl.
    + intros n i. by left.
    + unfold modal_inv. rewrite Hm. simpl. by intros [-> ->].
    + by rewrite Hm.
    + by rewrite Hm.
Qed.

Lemma safe_openHistoryModal text : safe (evolves T v) (openHistoryModal text).
Proof.
  unfold openHistoryModal. safe_step.
  - apply safe_ensureHistoryModal.
  - by apply safe_update_modal.
  - by apply safe_update_modal.
  - apply safe_setTimeout.
Qed.

Lemma safe_closeHistoryModal : safe (evolves T v) closeHistoryModal.
Proof. by apply safe_update_modal. Qed.

Lemma safe_isHistoryModalOpen : safe (evolves T v) isHistoryModalOpen.
Proof. unfold isHistoryModalOpen. safe_step. Qed.

(** Change callbacks only touch the widget they are run on. *)
Lemma safe_run_callback cb nid wi arg :
  T nid wi → safe (evolves T v) (run_callback cb nid wi arg).
Proof.
  intros HT. induction cb as [|k|original IH]; simpl.
  - safe_step.
  - apply safe_emit.
  - safe_step.
    + done.
    + destruct (widget_at _ nid wi ≫= w_inputEl) as [el|]; safe_step.
      apply safe_modify. intros w.
      apply evolves_upd_widget; [done|apply erase_with_el_value|]. by right.
    + apply safe_isHistoryModalOpen.
    + apply safe_openHistoryModal.
    + apply safe_setTimeout.
Qed.

Lemma safe_invoke_onChange cb nid wi arg :
  T nid wi → safe (evolves T v) (invoke_onChange cb nid wi arg).
Proof.
  intros HT. unfold invoke_onChange. safe_step.
  - apply safe_emit.
  - by apply safe_run_callback.
Qed.

(** The three statements of a delivery: assignment, callback, redraw. *)
Lemma safe_assign_notify nid wi cb arg :
  T nid wi →
  safe (evolves T v)
    (write_value nid wi v;;
     when (cb_truthy cb) (invoke_onChange cb nid wi arg);;
     emit (EvDirty nid)).
Proof.
  intros HT. safe_step.
  - by apply safe_write_value.
  - by apply safe_invoke_onChange.
  - apply safe_emit.
Qed.

End Primitives.

(** ** Resolution of consumers depends on the shape of the graph only *)

Lemma resolve_consumer_ext w w' l :
  nodes w = nodes w' → links w = links w' →
  resolve_consumer w l = resolve_consumer w' l.
Proof. unfold resolve_consumer. by intros -> ->. Qed.

Lemma find_widget_erase name ws :
  find_widget name (erase_widget <$> ws) =
  prod_map id erase_widget <$> find_widget name ws.
Proof. unfold find_widget. by rewrite list_find_fmap. Qed.

Lemma resolve_consumer_erase w l :
  resolve_consumer (erase_world w) l =
  (λ r, (r.1, erase_widget r.2)) <$> resolve_consumer w l.
Proof.
  unfold resolve_consumer, erase_world; simpl.
  destruct (links w !! l) as [link|]; simpl; [|done].
  rewrite lookup_fmap.
  destruct (nodes w !! target_id link) as [[ws ins outs]|]; simpl; [|done].
  destruct ins as [ins|]; simpl; [|done].
  destruct (ins !! target_slot link) as [input|]; simpl; [|done].
  destruct (i_widget input) as [widgetName|]; simpl; [|done].
  destruct ws as [ws|]; simpl; [|done].
  rewrite find_widget_erase.
  by destruct (find_widget widgetName ws) as [[wi wd]|].
Qed.

Lemma skeleton_erase_world w w' :
  skeleton w = skeleton w' →
  nodes (erase_world w) = nodes (erase_world w') ∧
  links (erase_world w) = links (erase_world w').
Proof. unfold skeleton. intros [= H1 H2]. by split. Qed.

Lemma resolve_consumer_skeleton w w' l :
  skeleton w = skeleton w' →
  (λ r, (r.1, erase_widget r.2)) <$> resolve_consumer w l =
  (λ r, (r.1, erase_widget r.2)) <$> resolve_consumer w' l.
Proof.
  intros [Hn Hl]%skeleton_erase_world.
  rewrite <-!resolve_consumer_erase. by apply resolve_consumer_ext.
Qed.

Lemma consumer_of_skeleton w w' l :
  skeleton w = skeleton w' → consumer_of w l = consumer_of w' l.
Proof.
  intros H%(resolve_consumer_skeleton _ _ l). unfold consumer_of.
  destruct (resolve_consumer w l) as [[p wd]|], (resolve_consumer w' l) as [[p' wd']|];
    simplify_eq/=; done.
Qed.

Lemma resolve_consumer_widget w l t i wd :
  resolve_consumer w l = Some (t, i, wd) → widget_at w t i = Some wd.
Proof.
  unfold resolve_consumer, widget_at. intros H.
  destruct (links w !! l) as [link|]; simplify_eq/=.
  destruct (nodes w !! target_id link) as [[ws ins outs]|] eqn:Hn; simplify_eq/=.
  destruct ins as [ins|]; simplify_eq/=.
  destruct (ins !! target_slot link) as [input|]; simplify_eq/=.
  destruct (i_widget input) as [widgetName|]; simplify_eq/=.
  destruct ws as [ws|]; simplify_eq/=.
  destruct (find_widget widgetName ws) as [[wi wd']|] eqn:Hf; simplify_eq/=.
  rewrite Hn. simpl. by apply list_find_Some in Hf as (? & _).
Qed.

Lemma resolve_consumer_target w l t i wd :
  resolve_consumer w l = Some (t, i, wd) →
  ∃ link, links w !! l = Some link ∧ target_id link = t.
Proof.
  unfold resolve_consumer. intros H.
  destruct (links w !! l) as [link|]; simplify_eq/=.
  exists link. split; [done|].
  destruct (nodes w !! target_id link) as [[ws ins outs]|]; simplify_eq/=.
  destruct ins as [ins|]; simplify_eq/=.
  destruct (ins !! target_slot link) as [input|]; simplify_eq/=.
  destruct (i_widget input) as [widgetName|]; simplify_eq/=.
  destruct ws as [ws|]; simplify_eq/=.
  by destruct (find_widget widgetName ws) as [[wi wd']|]; simplify_eq/=.
Qed.

Lemma resolve_consumer_Some w l t i wd :
  resolve_consumer w l = Some (t, i, wd) ↔ delivers_to w l t i wd.
Proof.
  unfold resolve_consumer, delivers_to. split.
  - intros H.
    destruct (links w !! l) as [link|]; simplify_eq/=.
    destruct (nodes w !! target_id link) as [[ws ins outs]|] eqn:Hn; simplify_eq/=.
    destruct ins as [ins|]; simplify_eq/=.
    destruct (ins !! target_slot link) as [input|] eqn:Hi; simplify_eq/=.
    destruct (i_widget input) as [widgetName|] eqn:Hw; simplify_eq/=.
    destruct ws as [ws|]; simplify_eq/=.
    destruct (find_widget widgetName ws) as [[wi wd']|] eqn:Hf; simplify_eq/=.
    by exists link, (mkNode (Some ws) (Some ins) outs), ins, input, widgetName, ws.
  - intros (link & tn & ins & input & widgetName & ws & Hl & <- & Hn & Hi & Hs & Hw & Hws & Hf).
    rewrite Hl. simpl. rewrite Hn. simpl. rewrite Hi. simpl. rewrite Hs. simpl.
    rewrite Hw. simpl. rewrite Hws. simpl. by rewrite Hf.
Qed.

Lemma resolve_consumer_None w l :
  resolve_consumer w l = None ↔ unresolvable w l.
Proof.
  unfold unresolvable. split.
  - intros H t wi wd Hd%resolve_consumer_Some. congruence.
  - intros H. destruct (resolve_consumer w l) as [[[t wi] wd]|] eqn:E; [|done].
    by apply resolve_consumer_Some, H in E.
Qed.

Lemma consumer_of_Some w l t i :
  consumer_of w l = Some (t, i) ↔ ∃ wd, delivers_to w l t i wd.
Proof.
  unfold consumer_of. split.
  - destruct (resolve_consumer w l) as [[[t' i'] wd]|] eqn:E; [|done].
    intros [= -> ->]. exists wd. by apply resolve_consumer_Some.
  - intros [wd Hd%resolve_consumer_Some]. by rewrite Hd.
Qed.

(** ** Delivery to the consumers of a slot *)

Lemma evolves_keeps T v w w' n i :
  evolves T v w w' → value_at w n i = Some v → value_at w' n i = Some v.
Proof.
  intros Hev. unfold value_at.
  destruct (ev_widgets _ _ _ _ Hev n i) as [->|(_ & wd & wd' & -> & -> & Hv)]; [done|].
  simpl. intros [= E]. f_equal. destruct Hv; congruence.
Qed.

Lemma evolves_frame T v w w' n i :
  evolves T v w w' → ¬ T n i → widget_at w' n i = widget_at w n i.
Proof.
  intros Hev HT.
  by destruct (ev_widgets _ _ _ _ Hev n i) as [->|(? & _)].
Qed.

Lemma widget_at_add_event e w n i : widget_at (add_event e w) n i = widget_at w n i.
Proof. done. Qed.

Lemma write_value_run nid wi v w :
  write_value nid wi v w =
  (Ok tt, add_event (EvSet nid wi v) (upd_widget nid wi (with_value v) w)).
Proof. done. Qed.

Lemma deliver_resolved T v l w t i wd :
  resolve_consumer w l = Some (t, i, wd) → T t i →
  ∃ w', deliver v l w = (Ok tt, w') ∧ evolves T v w w' ∧ value_at w' t i = Some v.
Proof.
  intros Hres HT. unfold deliver.
  rewrite (bind_ok get_world _ w w w) by done. rewrite Hres.
  rewrite (bind_ok _ _ _ _ _ (write_value_run t i v w)).
  set (w1 := add_event _ _).
  destruct (safe_bind (evolves T v)
              (when (cb_truthy (w_onChange wd)) (invoke_onChange (w_onChange wd) t i v))
              (λ _, emit (EvDirty t))) with (w := w1) as ([] & w' & E & Hev).
  { safe_step. by apply safe_invoke_onChange. }
  { intros _. apply safe_emit. }
  exists w'. split; [done|]. split.
  - etrans; [|done]. unfold w1. etrans; [|apply evolves_add_event].
    apply evolves_upd_widget; [done|done|]. by left.
  - apply (evolves_keeps _ _ _ _ _ _ Hev). unfold value_at, w1.
    rewrite widget_at_add_event, widget_at_upd, decide_True by done.
    by rewrite (resolve_consumer_widget _ _ _ _ _ Hres).
Qed.

Lemma deliver_evolves T v l w :
  (∀ t i, consumer_of w l = Some (t, i) → T t i) →
  ∃ w', deliver v l w = (Ok tt, w') ∧ evolves T v w w'.
Proof.
  intros HT. destruct (resolve_consumer w l) as [[[t i] wd]|] eqn:Hres.
  - destruct (deliver_resolved T v l w t i wd Hres) as (w' & ? & ? & _); [|by eauto].
    apply HT. unfold consumer_of. by rewrite Hres.
  - exists w. split; [|reflexivity]. unfold deliver.
    rewrite (bind_ok get_world _ w w w) by done. by rewrite Hres.
Qed.

Lemma forEach_deliver T v ls w :
  (∀ l t i, l ∈ ls → consumer_of w l = Some (t, i) → T t i) →
  ∃ w', forEach ls (deliver v) w = (Ok tt, w') ∧ evolves T v w w' ∧
        ∀ l t i, l ∈ ls → consumer_of w l = Some (t, i) → value_at w' t i = Some v.
Proof.
  revert w. induction ls as [|l ls IH]; intros w HT; simpl.
  - exists w. split; [done|]. split; [reflexivity|]. by intros ??? ?%elem_of_nil.
  - assert (∃ w1, deliver v l w = (Ok tt, w1) ∧ evolves T v w w1 ∧
                  ∀ t i, consumer_of w l = Some (t, i) → value_at w1 t i = Some v)
      as (w1 & E1 & Hev1 & Hv1).
    { destruct (resolve_consumer w l) as [[[t i] wd]|] eqn:Hres.
      - destruct (deliver_resolved T v l w t i wd Hres) as (w1 & ? & ? & ?).
        { apply (HT l); [by left|]. unfold consumer_of. by rewrite Hres. }
        exists w1. split_and!; [done..|].
        unfold consumer_of. rewrite Hres. by intros ?? [= <- <-].
      - destruct (deliver_evolves T v l w) as (w1 & ? & ?).
        { unfold consumer_of. by rewrite Hres. }
        exists w1. split_and!; [done..|]. unfold consumer_of. by rewrite Hres. }
    assert (skeleton w1 = skeleton w) as Hsk by apply Hev1.
    destruct (IH w1) as (w' & E' & Hev' & Hv').
    { intros l' t i Hl'. rewrite (consumer_of_skeleton _ _ _ Hsk). apply HT. by right. }
    exists w'. rewrite (bind_ok _ _ _ _ _ E1). split; [done|]. split; [by etrans|].
    intros l' t i [->|Hl']%elem_of_cons Hc.
    + eapply evolves_keeps; eauto.
    + apply (Hv' l'); [done|]. by rewrite (consumer_of_skeleton _ _ _ Hsk).
Qed.

Lemma propagateOutput_spec nid slotIndex v w :
  ∃ w', propagateOutput nid slotIndex v w = (Ok tt, w') ∧
        evolves (slot_consumer w nid slotIndex) v w w' ∧
        ∀ n i, slot_consumer w nid slotIndex n i → value_at w' n i = Some v.
Proof.
  unfold propagateOutput. rewrite (bind_ok get_world _ w w w) by done.
  destruct (output_links w nid slotIndex) as [ls|] eqn:Hls.
  - destruct (forEach_deliver (slot_consumer w nid slotIndex) v ls w) as (w' & E & Hev & Hv).
    { intros l t i Hl [wd Hd]%consumer_of_Some. exists ls. split; [done|]. by exists l, wd. }
    exists w'. split_and!; [done..|].
    intros n i (ls' & Hls' & l & wd & Hl & Hd). rewrite Hls in Hls'. simplify_eq.
    apply (Hv l); [done|]. apply consumer_of_Some. eauto.
  - exists w. split; [done|]. split; [reflexivity|].
    intros n i (ls' & Hls' & _). by rewrite Hls in Hls'.
Qed.

(** ** What propagation leaves alone *)

Lemma skeleton_lookup w w' n :
  skeleton w' = skeleton w →
  erase_node <$> nodes w' !! n = erase_node <$> nodes w !! n.
Proof. unfold skeleton. intros [= H _]. by rewrite <-!lookup_fmap, H. Qed.


Lemma skeleton_outputs w w' n :
  skeleton w' = skeleton w →
  n_outputs <$> nodes w' !! n = n_outputs <$> nodes w !! n.
Proof.
  intros H%(skeleton_lookup _ _ n).
  destruct (nodes w' !! n) as [x|], (nodes w !! n) as [y|]; simplify_eq/=; [|done].
  congruence.
Qed.





(** C6.  [propagateOutput] never throws, whatever the links of the slot
    are; a link whose record, target node, widget binding or named widget
    cannot be resolved is skipped, leaving the world as it is; and every
    consumer widget that some link of the slot does resolve to holds the
    propagated value afterwards, wherever the unresolvable links stand in
    the list. *)
Theorem propagateOutput_best_effort (w : World) (nid : positive) (slotIndex : nat)
    (value : JsVal) :
  result (propagateOutput nid slotIndex value) w = Ok tt ∧
  (∀ linkId, unresolvable w linkId → deliver value linkId w = (Ok tt, w)) ∧
  (∀ ls linkId t wi wd,
     output_links w nid slotIndex = Some ls →
     linkId ∈ ls →
     delivers_to w linkId t wi wd →
     value_at (exec (propagateOutput nid slotIndex value) w) t wi = Some value).
Proof.
  destruct (propagateOutput_spec nid slotIndex value w) as (w' & E & Hev & Hv).
  unfold result, exec. rewrite E. simpl. split_and!.
  - done.
  - intros linkId Hun%resolve_consumer_None. unfold deliver.
    rewrite (bind_ok get_world _ w w w) by done. by rewrite Hun.
  - intros ls linkId t wi wd Hls Hin Hd. apply Hv.
    exists ls. split; [done|]. by exists linkId, wd.
Qed.

Lemma propagateOutput_best_effort_witness :
  unresolvable Examples.studio 7 ∧ unresolvable Examples.studio 9 ∧
  value_at (exec (propagateOutput 1 0 (VStr "R")) Examples.studio) 3 0 = Some (VStr "R").
Proof.
  destruct (propagateOutput_best_effort Examples.studio 1 0 (VStr "R")) as (_ & _ & H).
  split_and!.
  - by apply resolve_consumer_None.
  - by apply resolve_consumer_None.
  - apply (H [7; 9; 1]%positive 1%positive 3%positive 0 (mkWidget "text" (VStr "old") (CbHost 1) None)).
    + reflexivity.
    + by_compute.
    + by apply resolve_consumer_Some.
Defined.



Lemma slot_consumer_elem w nid slotIndex n i :
  slot_consumer w nid slotIndex n i ↔ (n, i) ∈ slot_consumers w nid slotIndex.
Proof.
  unfold slot_consumer, slot_consumers, is_consumer.
  rewrite list_elem_of_omap. split.
  - intros (ls & -> & l & wd & Hl & Hd). exists l. split; [done|].
    apply consumer_of_Some. eauto.
  - intros (l & Hl & [wd Hd]%consumer_of_Some).
    destruct (output_links w nid slotIndex) as [ls|]; [|by apply elem_of_nil in Hl].
    exists ls. split; [done|]. by exists l, wd.
Qed.


(** ** Whole computations advance the world *)

#[global] Instance advances_preorder : PreOrder advances.
Proof.
  split.
  - intros w. split; try done. eauto.
  - intros w1 w2 w3 [S1 Tr1 Ti1 M1 O1 B1] [S2 Tr2 Ti2 M2 O2 B2]. split.
    + congruence.
    + by etrans.
    + by etrans.
    + auto.
    + intros m Hm. destruct (O1 m Hm) as (m' & Hm' & E').
      destruct (O2 m' Hm') as (m'' & Hm'' & E''). exists m''. split; [done|congruence].
    + intros m Hm. destruct (O1 m Hm) as (m' & Hm' & E').
      destruct (B1 m Hm) as [? ?]. destruct (B2 m' Hm') as [? ?]. split; congruence.
Qed.

Lemma evolves_advances T v w w' : evolves T v w w' → advances w w'.
Proof. intros [S W Tr Ti Mi O B]. by split. Qed.

Lemma safe_advances T v {A} (c : M A) : safe (evolves T v) c → safe advances c.
Proof. apply safe_mono. apply evolves_advances. Qed.

Section Runs.

Context (R : World → World → Prop) `{!PreOrder R}.

Lemma safe_runs {A} (c : M A) : safe R c → runs R c.
Proof. intros Hc w. by apply safe_exec. Qed.

Lemma runs_ret {A} (a : A) : runs R (mret a).
Proof. intros w. reflexivity. Qed.

Lemma runs_throw {A} m : runs R (@throw A m).
Proof. intros w. reflexivity. Qed.

Lemma runs_bind {A B} (c : M A) (k : A → M B) :
  runs R c → (∀ a, runs R (k a)) → runs R (c ≫= k).
Proof.
  intros Hc Hk w. specialize (Hc w). unfold exec in *.
  rewrite bind_unfold. destruct (c w) as [[a|m] w1]; simpl in *; [|done].
  etrans; [done|]. apply Hk.
Qed.

Lemma runs_read {B} (k : World → M B) :
  (∀ w0, runs R (k w0)) → runs R (get_world ≫= k).
Proof. intros Hk w. apply (Hk w w). Qed.

Lemma runs_try_catch {A} (c : M A) (h : string → M A) :
  runs R c → (∀ m, runs R (h m)) → runs R (try_catch c h).
Proof.
  intros Hc Hh w. specialize (Hc w). unfold exec, try_catch in *.
  destruct (c w) as [[a|m] w1]; simpl in *; [done|].
  etrans; [done|]. apply Hh.
Qed.

Lemma runs_when (b : bool) (c : M unit) : runs R c → runs R (when b c).
Proof. destruct b; [done|]. intros _. apply runs_ret. Qed.

Lemma runs_forEach {A} (l : list A) (f : A → M unit) :
  (∀ x, runs R (f x)) → runs R (forEach l f).
Proof.
  intros Hf. induction l as [|x l IH]; simpl; [apply runs_ret|].
  apply runs_bind; [apply Hf|]. by intros _.
Qed.

End Runs.

Ltac runs_step :=
  repeat match goal with
  | |- PreOrder _ => apply _
  | |- ∀ _, _ => intro
  | |- runs _ (mret _) => apply runs_ret
  | |- runs _ (throw _) => apply runs_throw
  | |- runs _ (mbind _ get_world) => apply runs_read
  | |- runs _ (mbind _ _) => apply runs_bind
  | |- runs _ (when _ _) => apply runs_when
  | |- runs _ (try_catch _ _) => apply runs_try_catch
  end.

Lemma safe_setWidgetValue nid name value :
  safe (evolves (λ _ _, True) (nullish_empty value)) (setWidgetValue nid name value).
Proof.
  unfold setWidgetValue. safe_step.
  destruct (nodes _ !! nid) as [node|]; [|safe_step].
  destruct (n_widgets node) as [ws|]; [|safe_step].
  destruct (find_widget name ws) as [[wi wd]|]; [|safe_step].
  by apply safe_assign_notify.
Qed.

Lemma safe_assign_captured nid name v :
  safe (evolves (λ _ _, True) v) (assign_captured nid name v).
Proof.
  unfold assign_captured. safe_step.
  destruct (widget_named _ nid name) as [[wi wd]|]; [|safe_step].
  by apply safe_write_value.
Qed.

Lemma safe_propagateOutput nid slotIndex v :
  safe advances (propagateOutput nid slotIndex v).
Proof.
  intros w. destruct (propagateOutput_spec nid slotIndex v w) as (w' & E & Hev & _).
  exists tt, w'. split; [done|]. by eapply evolves_advances.
Qed.

Lemma runs_postJSON fetchApi path body : runs advances (postJSON fetchApi path body).
Proof.
  unfold postJSON. runs_step.
  - apply safe_runs, (safe_advances (λ _ _, True) VUndef), safe_emit.
  - destruct (fetchApi path body) as [m|ok text [m|data]]; [runs_step| |].
    + destruct ok; simpl; runs_step.
    + destruct ok; simpl; runs_step.
Qed.

Lemma runs_field_assistant_response data :
  runs advances (field_assistant_response data).
Proof. destruct data; simpl; runs_step. Qed.

Lemma runs_field_readable_history data :
  runs advances (field_readable_history data).
Proof. destruct data; simpl; runs_step. Qed.

Lemma runs_on_error nid m : runs advances (on_error nid m).
Proof.
  unfold on_error. runs_step.
  - eapply safe_runs, safe_advances, safe_assign_captured.
  - apply safe_runs, (safe_advances (λ _ _, True) VUndef), safe_emit.
Qed.

Lemma runs_on_response nid action data : runs advances (on_response nid action data).
Proof.
  unfold on_response. runs_step.
  - apply runs_field_assistant_response.
  - eapply safe_runs, safe_advances, safe_assign_captured.
  - apply runs_field_readable_history.
  - eapply safe_runs, safe_advances, safe_assign_captured.
  - apply safe_runs, safe_propagateOutput.
  - apply safe_runs, safe_propagateOutput.
  - eapply safe_runs, safe_advances, safe_setWidgetValue.
  - eapply safe_runs, safe_advances, safe_assign_captured.
  - apply safe_runs, (safe_advances (λ _ _, True) VUndef), safe_emit.
Qed.

Lemma runs_sendAction fetchApi nid : runs advances (sendAction fetchApi nid).
Proof.
  unfold sendAction. runs_step.
  destruct (nodes _ !! nid) as [node|]; runs_step.
  - eapply safe_runs, safe_advances, safe_assign_captured.
  - apply safe_runs, (safe_advances (λ _ _, True) VUndef), safe_emit.
  - apply runs_postJSON.
  - apply runs_on_response.
  - apply runs_on_error.
Qed.

(** ** The history modal *)

Lemma openHistoryModal_reused text w m :
  historyModal w = Some m →
  openHistoryModal text w =
  (Ok tt, add_timer 0 ScrollModalToBottom
            (set_modal (Some (mkModal (overlay m) "flex" (to_string (or_empty text)))) w)).
Proof.
  intros Hm. unfold openHistoryModal.
  assert (ensureHistoryModal w = (Ok m, w)) as E by (unfold ensureHistoryModal; by rewrite Hm).
  rewrite (bind_ok _ _ _ _ _ E).
  unfold update_modal, setTimeout, modify, mbind, M_bind, bind; simpl.
  by rewrite Hm.
Qed.

Lemma openHistoryModal_created text w :
  historyModal w = None →
  openHistoryModal text w =
  (Ok tt, add_timer 0 ScrollModalToBottom
            (mkWorld (nodes w) (links w)
               (Some (mkModal (length (document_body w)) "flex" (to_string (or_empty text))))
               (document_body w ++ [length (document_body w)])
               (S (keydown_listeners w)) (timers w) (trace w))).
Proof.
  intros Hm. unfold openHistoryModal.
  unfold ensureHistoryModal, update_modal, setTimeout, modify, mbind, M_bind, bind; simpl.
  by rewrite Hm.
Qed.

Lemma modal_open_Some w :
  modal_open w = true → ∃ m, historyModal w = Some m ∧ overlay_display m ≠ "none".
Proof.
  unfold modal_open. destruct (historyModal w) as [m|]; [|done].
  intros H%bool_decide_eq_true. eauto.
Qed.

Lemma isOpen_bind {B} (k : bool → M B) w :
  (isHistoryModalOpen ≫= k) w = k (modal_open w) w.
Proof. done. Qed.

#[global] Instance quiet_preorder : PreOrder quiet.
Proof.
  split.
  - by intros w.
  - intros w1 w2 w3 [O1 C1] [O2 C2]. split; [congruence|].
    intros Hc. destruct (C1 Hc) as (? & ? & ?).
    destruct C2 as (? & ? & ?); [congruence|]. split_and!; congruence.
Qed.

Lemma quiet_same_modal w w' :
  historyModal w' = historyModal w →
  document_body w' = document_body w →
  keydown_listeners w' = keydown_listeners w →
  quiet w w'.
Proof. intros Hm Hb Hk. unfold quiet, modal_open. by rewrite Hm. Qed.

Lemma quiet_reopen text w m :
  historyModal w = Some m → overlay_display m ≠ "none" →
  quiet w (exec (openHistoryModal text) w).
Proof.
  intros Hm Hd. unfold exec. rewrite (openHistoryModal_reused _ _ _ Hm). simpl.
  assert (modal_open w = true) as Ho.
  { unfold modal_open. rewrite Hm. by apply bool_decide_eq_true. }
  split; [by rewrite Ho|]. by rewrite Ho.
Qed.

(** The end of the viewer's callback: lines 343-351. *)
Lemma viewer_tail_quiet arg t d :
  safe quiet (isOpen ← isHistoryModalOpen;
              when isOpen (openHistoryModal arg);;
              setTimeout t d).
Proof.
  intros w. rewrite isOpen_bind.
  destruct (modal_open w) eqn:Ho; simpl.
  - destruct (modal_open_Some _ Ho) as (m & Hm & Hd).
    rewrite (bind_ok _ _ _ _ _ (openHistoryModal_reused arg _ _ Hm)).
    eexists _, _. split; [done|].
    etrans; [|by apply quiet_same_modal].
    pose proof (quiet_reopen arg w m Hm Hd) as Hq.
    unfold exec in Hq. by rewrite (openHistoryModal_reused _ _ _ Hm) in Hq.
  - eexists _, _. split; [done|]. by apply quiet_same_modal.
Qed.

Lemma run_callback_quiet cb nid wi arg : safe quiet (run_callback cb nid wi arg).
Proof.
  induction cb as [|k|original IH]; simpl.
  - safe_step.
  - apply safe_modify. intros w. by apply quiet_same_modal.
  - apply safe_bind; [apply _|by apply safe_when; [apply _|]|]. intros _.
    apply safe_read. intros w0.
    apply safe_bind; [apply _|..].
    + destruct (widget_at w0 nid wi ≫= w_inputEl) as [el|]; safe_step.
      apply safe_modify. intros w. by apply quiet_same_modal.
    + intros _. apply viewer_tail_quiet.
Qed.

(** ** Reachable states of the page *)

Lemma runs_clickOpenHistory nid : runs advances (clickOpenHistory nid).
Proof.
  unfold clickOpenHistory. runs_step.
  destruct (widget_named _ nid "history") as [[wi wd]|]; runs_step.
  apply safe_runs, (safe_advances (λ _ _, True) VUndef), safe_openHistoryModal.
Qed.

Lemma runs_handle e : runs advances (handle e).
Proof.
  destruct e as [nid| |fetchApi nid]; simpl.
  - apply runs_clickOpenHistory.
  - apply safe_runs, (safe_advances (λ _ _, True) VUndef), safe_closeHistoryModal.
  - apply runs_sendAction.
Qed.

Lemma modal_inv_boot ns ls : modal_inv (boot ns ls).
Proof. done. Qed.

Lemma modal_inv_reachable ns ls events :
  modal_inv (exec (forEach events handle) (boot ns ls)).
Proof.
  pose proof (runs_forEach advances events handle runs_handle (boot ns ls)) as H.
  apply (ad_modal_inv _ _ H), modal_inv_boot.
Qed.

Lemma modal_inv_length w : modal_inv w → (length (document_body w) ≤ 1)%nat.
Proof.
  unfold modal_inv. destruct (historyModal w); intros [-> _]; simpl; lia.
Qed.

(** The state of the modal right after [openHistoryModal]. *)
Lemma openHistoryModal_shows text w :
  modal_inv w →
  ∃ m', historyModal (exec (openHistoryModal text) w) = Some m' ∧
        content_text m' = to_string (or_empty text) ∧
        overlay_display m' = "flex" ∧
        document_body (exec (openHistoryModal text) w) = [overlay m'] ∧
        keydown_listeners (exec (openHistoryModal text) w) = 1 ∧
        modal_open (exec (openHistoryModal text) w) = true ∧
        ∀ m, historyModal w = Some m →
             overlay m' = overlay m ∧
             document_body (exec (openHistoryModal text) w) = document_body w.
Proof.
  unfold modal_inv, exec, modal_open. destruct (historyModal w) as [m|] eqn:Hm.
  - intros [Hb Hk]. rewrite (openHistoryModal_reused _ _ _ Hm). simpl.
    eexists. split; [done|]. simpl. split_and!; try done.
    by intros ? [= <-].
  - intros [Hb Hk]. rewrite (openHistoryModal_created _ _ Hm). simpl.
    eexists. split; [done|]. simpl. rewrite Hb, Hk. by split_and!.
Qed.

Lemma clickOpenHistory_run nid w wi wd :
  widget_named w nid "history" = Some (wi, wd) →
  clickOpenHistory nid w = openHistoryModal (getHistoryText wd) w.
Proof.
  intros H. unfold clickOpenHistory.
  rewrite (bind_ok get_world _ w w w) by done. by rewrite H.
Qed.

(** C8.  In every state the page can reach from a fresh load, through any
    sequence of open requests, dismissals and dispatches, at most one
    overlay exists; an open request creates it when there is none and
    otherwise reuses the very same one; and after [open(text)] the content
    surface holds exactly [text], whatever was shown before: pressing
    "Open History" on a node shows that node's text only. *)
Theorem history_modal_singleton (ns : gmap positive Node) (ls : gmap positive Link)
    (events : list UiEvent) :
  let w := exec (forEach events handle) (boot ns ls) in
  (length (document_body w) ≤ 1)%nat ∧
  (historyModal w = None → document_body w = []) ∧
  (∀ text : string,
     let w' := exec (openHistoryModal (VStr text)) w in
     ∃ m', historyModal w' = Some m' ∧
           content_text m' = text ∧
           overlay_display m' = "flex" ∧
           document_body w' = [overlay m'] ∧
           ∀ m, historyModal w = Some m →
                overlay m' = overlay m ∧ document_body w' = document_body w) ∧
  (∀ nid wi wd,
     widget_named w nid "history" = Some (wi, wd) →
     content_text <$> historyModal (exec (clickOpenHistory nid) w) =
     Some (to_string (or_empty (getHistoryText wd)))).
Proof.
  intros w. pose proof (modal_inv_reachable ns ls events) as Hinv. fold w in Hinv.
  split_and!.
  - by apply modal_inv_length.
  - intros Hm. unfold modal_inv in Hinv. rewrite Hm in Hinv. apply Hinv.
  - intros text w'.
    destruct (openHistoryModal_shows (VStr text) w Hinv) as (m' & Hm' & Ht & Hd & Hb & _ & _ & Hre).
    exists m'. split_and!; try done. by rewrite Ht, to_string_or_empty_str.
  - intros nid wi wd Hwd. unfold exec. rewrite (clickOpenHistory_run _ _ _ _ Hwd).
    destruct (openHistoryModal_shows (getHistoryText wd) w Hinv) as (m' & Hm' & Ht & _).
    unfold exec in Hm'. rewrite Hm'. simpl. by rewrite Ht.
Qed.

Lemma history_modal_singleton_witness :
  let w := exec (forEach [PressOpenHistory 1] handle) Gallery.page in
  content_text <$> historyModal w = Some "alpha" ∧
  content_text <$> historyModal (exec (clickOpenHistory 2) w) = Some "beta" ∧
  document_body (exec (clickOpenHistory 2) w) = document_body w.
Proof.
  intros w.
  destruct (history_modal_singleton (nodes Gallery.page) (links Gallery.page)
              [PressOpenHistory 1%positive]) as (_ & _ & _ & H).
  split_and!.
  - reflexivity.
  - apply (H 2%positive 0 (mkWidget "history" (VStr "beta") (CbViewer (CbHost 3)) None)).
    reflexivity.
  - reflexivity.
Defined.

(** ** The viewer's change callback *)

Lemma run_viewer original nid wi arg w :
  run_callback (CbViewer original) nid wi arg w =
  match when (cb_truthy original) (run_callback original nid wi arg) w with
  | (Ok _, w1) =>
      (Ok tt, add_timer 10 (ScrollInputToBottom nid wi)
                (reopen (or_empty arg) (mirror_input nid wi arg w1)))
  | (Throw m, w1) => (Throw m, w1)
  end.
Proof.
  simpl. rewrite bind_unfold.
  destruct (when (cb_truthy original) (run_callback original nid wi arg) w) as [[[]|m] w1];
    [|done].
  rewrite (bind_ok get_world _ w1 w1 w1) by done.
  assert (match widget_at w1 nid wi ≫= w_inputEl with
          | Some el =>
              when (bool_decide (VStr (el_value el) ≠ arg))
                (modify (upd_widget nid wi (with_el_value (to_string (or_empty arg)))))
          | None => mret tt
          end w1 = (Ok tt, mirror_input nid wi arg w1)) as E.
  { unfold mirror_input.
    destruct (widget_at w1 nid wi ≫= w_inputEl) as [el|]; [|done].
    by destruct (bool_decide (VStr (el_value el) ≠ arg)). }
  rewrite (bind_ok _ _ _ _ _ E). rewrite isOpen_bind.
  unfold reopen, modal_open.
  destruct (historyModal (mirror_input nid wi arg w1)) as [m|] eqn:Hm; [|done].
  destruct (bool_decide (overlay_display m ≠ "none")); simpl; [|done].
  by rewrite (bind_ok _ _ _ _ _ (openHistoryModal_reused (or_empty arg) _ _ Hm)).
Qed.

Lemma skeleton_widget_at w w' n i :
  skeleton w' = skeleton w →
  erase_widget <$> widget_at w' n i = erase_widget <$> widget_at w n i.
Proof.
  intros Hsk%(skeleton_lookup _ _ n). unfold widget_at.
  destruct (nodes w' !! n) as [[ws' ins' outs']|], (nodes w !! n) as [[ws ins outs]|];
    simplify_eq/=; [|done].
  unfold erase_node, alter_widgets in Hsk. simplify_eq/=.
  destruct ws' as [ws'|], ws as [ws|]; simplify_eq/=; [|done].
  match goal with H : _ <$> _ = _ <$> _ |- _ => by rewrite <-!list_lookup_fmap, H end.
Qed.

Lemma mirror_input_modal nid wi arg w :
  historyModal (mirror_input nid wi arg w) = historyModal w ∧
  document_body (mirror_input nid wi arg w) = document_body w ∧
  keydown_listeners (mirror_input nid wi arg w) = keydown_listeners w ∧
  timers (mirror_input nid wi arg w) = timers w.
Proof.
  unfold mirror_input.
  destruct (widget_at w nid wi ≫= w_inputEl) as [el|]; [|done].
  by destruct (bool_decide (VStr (el_value el) ≠ arg)).
Qed.

Lemma mirror_input_mirrors nid wi (text : string) w wd el :
  widget_at w nid wi = Some wd → w_inputEl wd = Some el →
  widget_at (mirror_input nid wi (VStr text) w) nid wi ≫= w_inputEl = Some (mkInputEl text).
Proof.
  intros Hwd Hel. unfold mirror_input. rewrite Hwd. simpl. rewrite Hel.
  case_bool_decide as Hne.
  - rewrite widget_at_upd, decide_True, Hwd by done. simpl. rewrite Hel. simpl.
    by rewrite to_string_or_empty_str.
  - rewrite Hwd. simpl. rewrite Hel. f_equal.
    destruct el as [s]. simpl in Hne. f_equal. congruence.
Qed.

Lemma reopen_nodes arg w : nodes (reopen arg w) = nodes w.
Proof.
  unfold reopen. destruct (historyModal w) as [m|]; [|done].
  by destruct (bool_decide (overlay_display m ≠ "none")).
Qed.

Lemma reopen_closed arg w : modal_open w = false → reopen arg w = w.
Proof.
  unfold reopen, modal_open. destruct (historyModal w) as [m|]; [|done].
  by intros ->.
Qed.

Lemma reopen_open arg w m :
  historyModal w = Some m → modal_open w = true →
  reopen arg w =
  add_timer 0 ScrollModalToBottom
    (set_modal (Some (mkModal (overlay m) "flex" (to_string (or_empty arg)))) w).
Proof. unfold reopen, modal_open. by intros -> ->. Qed.

Lemma widget_at_nodes w w' n i : nodes w' = nodes w → widget_at w' n i = widget_at w n i.
Proof. unfold widget_at. by intros ->. Qed.

(** C9.  When the change callback that [setupHistoryViewer] installed on
    the history widget fires with a new text: if the modal is open, it is
    opened again on the same overlay with exactly that text, and a scroll
    of the modal to its bottom is scheduled; if the modal is closed or was
    never created, it is left exactly as it is, so it stays hidden; in
    both cases the widget's backing element, when it has one, ends up
    holding the new text, and a scroll of that element is scheduled too. *)
Theorem viewer_onChange_sync (w : World) (nid : positive) (wi : nat) (wd : Widget)
    (original : Callback) (text : string)
    (Hwd : widget_at w nid wi = Some wd)
    (Hcb : w_onChange wd = CbViewer original) :
  let fire := invoke_onChange (w_onChange wd) nid wi (VStr text) in
  let w' := exec fire w in
  result fire w = Ok tt ∧
  (modal_open w = true →
   ∃ m m' ts, historyModal w = Some m ∧ historyModal w' = Some m' ∧
              overlay m' = overlay m ∧ content_text m' = text ∧
              overlay_display m' = "flex" ∧ document_body w' = document_body w ∧
              timers w' = (timers w ++ ts ++ [(0, ScrollModalToBottom);
                                              (10, ScrollInputToBottom nid wi)])%list) ∧
  (modal_open w = false →
   historyModal w' = historyModal w ∧ document_body w' = document_body w ∧
   modal_open w' = false) ∧
  (∀ el, w_inputEl wd = Some el →
         widget_at w' nid wi ≫= w_inputEl = Some (mkInputEl text)) ∧
  (∃ ts, timers w' = (timers w ++ ts ++ [(10, ScrollInputToBottom nid wi)])%list).
Proof.
  intros fire w'. subst w' fire. rewrite Hcb.
  set (T := λ (n : positive) (i : nat), n = nid ∧ i = wi).
  set (w0 := add_event (EvChange nid wi (VStr text)) w).
  (* the captured original callback runs first *)
  destruct (safe_when (evolves T (w_value wd)) (cb_truthy original)
              (run_callback original nid wi (VStr text))) with (w := w0)
    as ([] & w1 & E1 & Hev).
  { by apply safe_run_callback. }
  destruct (safe_when quiet (cb_truthy original)
              (run_callback original nid wi (VStr text))) with (w := w0)
    as ([] & w1' & E1' & Hq).
  { apply run_callback_quiet. }
  assert (w1' = w1) as -> by congruence. clear E1'.
  assert (invoke_onChange (CbViewer original) nid wi (VStr text) w =
          (Ok tt, add_timer 10 (ScrollInputToBottom nid wi)
                    (reopen (or_empty (VStr text)) (mirror_input nid wi (VStr text) w1))))
    as Erun.
  { unfold invoke_onChange.
    rewrite (bind_ok (emit (EvChange nid wi (VStr text))) _ w tt w0) by done.
    by rewrite run_viewer, E1. }
  unfold result, exec. rewrite Erun. simpl.
  set (w2 := mirror_input nid wi (VStr text) w1).
  destruct (mirror_input_modal nid wi (VStr text) w1) as (Hm2 & Hb2 & Hk2 & Ht2).
  fold w2 in Hm2, Hb2, Hk2, Ht2.
  destruct Hq as [Hopen Hclosed]. change (modal_open w0) with (modal_open w) in *.
  assert (modal_open w2 = modal_open w) as Hopen2.
  { unfold modal_open. rewrite Hm2. exact Hopen. }
  destruct (ev_timers _ _ _ _ Hev) as [ts Hts]. change (timers w0) with (timers w) in Hts.
  split_and!.
  - done.
  - intros Ho. destruct (modal_open_Some _ Ho) as (m & Hm & _).
    destruct (ev_overlay _ _ _ _ Hev m Hm) as (m1 & Hm1 & Hov).
    rewrite (reopen_open _ w2 m1) by congruence. simpl.
    exists m, (mkModal (overlay m1) "flex" (to_string (or_empty (or_empty (VStr text))))), ts.
    split_and!; try done.
    + simpl. by rewrite !or_empty_str.
    + rewrite Hb2. apply (ev_body _ _ _ _ Hev m Hm).
    + by rewrite Ht2, Hts, <-!(assoc_L (++)).
  - intros Hc. rewrite reopen_closed by congruence. simpl.
    destruct (Hclosed Hc) as (Hm1 & Hb1 & _).
    assert (historyModal w0 = historyModal w ∧ document_body w0 = document_body w)
      as [Hm0 Hb0] by done.
    split_and!; [congruence|congruence|].
    unfold modal_open. simpl. rewrite Hm2. fold (modal_open w1). congruence.
  - intros el Hel.
    pose proof (skeleton_widget_at _ _ nid wi (ev_skeleton _ _ _ _ Hev)) as Hsk.
    change (widget_at w0 nid wi) with (widget_at w nid wi) in Hsk. rewrite Hwd in Hsk.
    destruct (widget_at w1 nid wi) as [wd1|] eqn:Hwd1; [|done]. simpl in Hsk.
    assert (∃ el1, w_inputEl wd1 = Some el1) as [el1 Hel1].
    { injection Hsk as _ _ Hi. rewrite Hel in Hi. destruct (w_inputEl wd1); [eauto|done]. }
    rewrite (widget_at_nodes w2); [|simpl; apply reopen_nodes].
    by apply (mirror_input_mirrors nid wi text w1 wd1 el1).
  - destruct (modal_open w2) eqn:Ho.
    + destruct (modal_open_Some _ Ho) as (m2 & Hmo & _).
      rewrite (reopen_open _ w2 m2) by done. simpl.
      exists (ts ++ [(0, ScrollModalToBottom)])%list.
      by rewrite Ht2, Hts, <-!(assoc_L (++)).
    + rewrite reopen_closed by done. exists ts. simpl.
      by rewrite Ht2, Hts, <-!(assoc_L (++)).
Qed.

Lemma viewer_onChange_sync_witness :
  let w := exec (clickOpenHistory 1) Gallery.page in
  let wd := mkWidget "history" (VStr "alpha") (CbViewer CbAbsent) (Some (mkInputEl "alpha")) in
  let w' := exec (invoke_onChange (w_onChange wd) 1 0 (VStr "alpha beta")) w in
  widget_at w 1 0 = Some wd ∧
  modal_open w = true ∧
  content_text <$> historyModal w' = Some "alpha beta" ∧
  widget_at w' 1 0 ≫= w_inputEl = Some (mkInputEl "alpha beta").
Proof.
  intros w wd w'.
  assert (widget_at w 1 0 = Some wd) as Hwd by reflexivity.
  destruct (viewer_onChange_sync w 1 0 wd CbAbsent "alpha beta" Hwd eq_refl)
    as (_ & Hopen & _ & Hel & _).
  split_and!.
  - exact Hwd.
  - reflexivity.
  - destruct Hopen as (m & m' & ts & _ & Hm' & _ & Ht & _); [reflexivity|].
    unfold w'. rewrite Hm'. simpl. by rewrite Ht.
  - by apply (Hel (mkInputEl "alpha")).
Defined.

(** ** Widgets found by name, under mutation *)

Lemma find_widget_alter name f i ws :
  (∀ wd, w_name (f wd) = w_name wd) →
  find_widget name (alter f i ws) =
  (λ p, (p.1, if decide (p.1 = i) then f p.2 else p.2)) <$> find_widget name ws.
Proof.
  intros Hf. unfold find_widget. revert i.
  induction ws as [|x ws IH]; intros i; [done|].
  destruct i as [|i]; csimpl.
  - rewrite Hf. case_decide; [done|].
    destruct (list_find _ ws) as [[j wd]|]; simpl; [|done]. done.
  - case_decide; [done|]. rewrite IH.
    destruct (list_find _ ws) as [[j wd]|]; simpl; [|done].
    f_equal. f_equal. by repeat case_decide; simplify_eq.
Qed.

Lemma widget_named_upd nid wi f w n name :
  (∀ wd, w_name (f wd) = w_name wd) →
  widget_named (upd_widget nid wi f w) n name =
  (λ p, (p.1, if decide (nid = n ∧ p.1 = wi) then f p.2 else p.2)) <$> widget_named w n name.
Proof.
  intros Hf. unfold widget_named, upd_widget, set_nodes; simpl.
  rewrite lookup_alter.
  destruct (decide (nid = n)) as [->|Hn].
  - destruct (nodes w !! n) as [node|]; simpl; [|done].
    destruct (n_widgets node) as [ws|]; simpl; [|done].
    rewrite find_widget_alter by done.
    destruct (find_widget name ws) as [[j wd]|]; simpl; [|done].
    f_equal. f_equal. destruct (decide (j = wi)) as [->|Hj].
    + by rewrite decide_True.
    + rewrite decide_False; [done|]. by intros [_ ?].
  - destruct (nodes w !! n) as [node|]; simpl; [|done].
    destruct (n_widgets node) as [ws|]; simpl; [|done].
    destruct (find_widget name ws) as [[j wd]|]; simpl; [|done].
    f_equal. f_equal. rewrite decide_False; [done|]. by intros [? _].
Qed.

Lemma widget_named_add_event e w n name :
  widget_named (add_event e w) n name = widget_named w n name.
Proof. done. Qed.

Lemma widget_named_at w n name i wd :
  widget_named w n name = Some (i, wd) → widget_at w n i = Some wd ∧ w_name wd = name.
Proof.
  unfold widget_named, widget_at.
  destruct (nodes w !! n) as [node|]; simpl; [|done].
  destruct (n_widgets node) as [ws|]; simpl; [|done].
  by intros (? & ? & _)%list_find_Some.
Qed.

Lemma value_named_at w n name i wd :
  widget_named w n name = Some (i, wd) → value_named w n name = value_at w n i.
Proof.
  intros H. unfold value_named, value_at. rewrite H.
  by apply widget_named_at in H as [-> _].
Qed.

(** Widgets of different names are different widgets. *)
Lemma widget_named_distinct w n name name' i i' wd wd' :
  widget_named w n name = Some (i, wd) →
  widget_named w n name' = Some (i', wd') →
  name ≠ name' → i ≠ i'.
Proof.
  intros [H1 N1]%widget_named_at [H2 N2]%widget_named_at Hne ->. congruence.
Qed.

Lemma assign_captured_run nid name v w i wd :
  widget_named w nid name = Some (i, wd) →
  assign_captured nid name v w =
  (Ok tt, add_event (EvSet nid i v) (upd_widget nid i (with_value v) w)).
Proof.
  intros H. unfold assign_captured.
  rewrite (bind_ok get_world _ w w w) by done. by rewrite H.
Qed.

Lemma widget_named_assigned nid i v w wd name :
  widget_named w nid name = Some (i, wd) →
  widget_named (add_event (EvSet nid i v) (upd_widget nid i (with_value v) w)) nid name =
  Some (i, with_value v wd).
Proof.
  intros H. rewrite widget_named_add_event, widget_named_upd, H by done. simpl.
  by rewrite decide_True.
Qed.

(** Reads of a world written as a stack of events and widget updates. *)
Ltac peel :=
  repeat first
    [ rewrite widget_named_add_event
    | rewrite widget_named_upd by done
    | rewrite widget_at_add_event
    | rewrite widget_at_upd ].

(** ** A dispatch whose backend call fails *)

Lemma postJSON_fails fetchApi payload m w :
  backend_fails fetchApi payload m →
  postJSON fetchApi ROUTE_CHAT payload w =
  (Throw m, add_event (EvPost ROUTE_CHAT payload) w).
Proof.
  intros Hf. unfold postJSON.
  rewrite (bind_ok (emit _) _ w tt (add_event (EvPost ROUTE_CHAT payload) w)) by done.
  by destruct Hf as [->|[[json ->]|[text ->]]].
Qed.

Lemma postJSON_replies fetchApi payload r h w :
  backend_replies fetchApi payload r h →
  postJSON fetchApi ROUTE_CHAT payload w =
  (Ok (JObj r h), add_event (EvPost ROUTE_CHAT payload) w).
Proof.
  intros [text Hf]. unfold postJSON.
  rewrite (bind_ok (emit _) _ w tt (add_event (EvPost ROUTE_CHAT payload) w)) by done.
  by rewrite Hf.
Qed.

(** The statements of [sendAction] up to the [await]. *)
Lemma dispatch_prologue nid w node si wd :
  nodes w !! nid = Some node →
  widget_named w nid "status" = Some (si, wd) →
  let action := selected_action node in
  let w2 := add_event (EvDirty nid)
              (add_event (EvSet nid si (status_working action))
                 (upd_widget nid si (with_value (status_working action)) w)) in
  (assign_captured nid "status" (status_working action);; emit (EvDirty nid)) w = (Ok tt, w2) ∧
  dispatch_payload w nid = buildPayload w2 (default node (nodes w2 !! nid)) action.
Proof.
  intros Hnode Hst action w2.
  assert ((assign_captured nid "status" (status_working action);; emit (EvDirty nid)) w
          = (Ok tt, w2)) as E.
  { by rewrite (bind_ok _ _ _ _ _ (assign_captured_run nid "status" _ w si wd Hst)). }
  split; [done|].
  unfold dispatch_payload. rewrite Hnode. fold action. unfold exec. by rewrite E.
Qed.

Lemma sendAction_failure_run fetchApi nid w node si wd m :
  nodes w !! nid = Some node →
  widget_named w nid "status" = Some (si, wd) →
  backend_fails fetchApi (dispatch_payload w nid) m →
  let action := selected_action node in
  let failed := VStr ("error: " +:+ m) in
  sendAction fetchApi nid w =
  (Ok tt,
   add_event (EvDirty nid)
     (add_event (EvSet nid si failed)
        (upd_widget nid si (with_value failed)
           (add_event (EvPost ROUTE_CHAT (dispatch_payload w nid))
              (add_event (EvDirty nid)
                 (add_event (EvSet nid si (status_working action))
                    (upd_widget nid si (with_value (status_working action)) w))))))).
Proof.
  intros Hnode Hst Hfail action failed.
  destruct (dispatch_prologue nid w node si wd Hnode Hst) as [E Hpay].
  fold action in E, Hpay. set (w2 := add_event (EvDirty nid) _) in *.
  unfold sendAction. rewrite (bind_ok get_world _ w w w) by done. rewrite Hnode.
  fold action. fold (status_working action). unfold try_catch.
  rewrite (bind_ok _ _ _ _ _ (assign_captured_run nid "status" _ w si wd Hst)).
  rewrite (bind_ok (emit (EvDirty nid)) _ _ tt w2) by done.
  rewrite (bind_ok get_world _ w2 w2 w2) by done.
  rewrite <-Hpay.
  rewrite (bind_throw _ _ _ _ _ (postJSON_fails _ _ _ w2 Hfail)).
  set (w3 := add_event (EvPost _ _) w2).
  assert (widget_named w3 nid "status" = Some (si, with_value (status_working action) wd)) as Hst3.
  { unfold w3, w2. rewrite !widget_named_add_event. rewrite widget_named_upd, Hst by done.
    simpl. by rewrite decide_True. }
  unfold on_error. fold failed.
  by rewrite (bind_ok _ _ _ _ _ (assign_captured_run nid "status" failed w3 si _ Hst3)).
Qed.

(** C2.  When the backend call of a dispatch fails with message [m] (a
    response that is not ok and whose body text is [m], or a transport
    error of message [m]), the dispatch itself returns normally; the status
    widget ends up holding exactly "error: " followed by [m]; no other
    widget of any node changes, so nothing reached any downstream widget,
    [user_message] was not cleared and the two cache widgets hold what they
    held; no other node, no link, the modal and the timers are untouched;
    and the only events are the two raw status writes, their redraws, and
    the request. *)
Theorem dispatch_failure_is_local (w : World) (fetchApi : Backend) (nid : positive)
    (node : Node) (si : nat) (wd : Widget) (m : string)
    (Hnode : nodes w !! nid = Some node)
    (Hstatus : widget_named w nid "status" = Some (si, wd))
    (Hfail : backend_fails fetchApi (dispatch_payload w nid) m) :
  let w' := exec (sendAction fetchApi nid) w in
  result (sendAction fetchApi nid) w = Ok tt ∧
  value_named w' nid "status" = Some (VStr ("error: " +:+ m)) ∧
  (∀ n i, (n, i) ≠ (nid, si) → widget_at w' n i = widget_at w n i) ∧
  (∀ name, name ≠ "status" → value_named w' nid name = value_named w nid name) ∧
  (∀ n, n ≠ nid → nodes w' !! n = nodes w !! n) ∧
  links w' = links w ∧
  historyModal w' = historyModal w ∧
  timers w' = timers w ∧
  trace w' = (trace w ++
              [EvSet nid si (status_working (selected_action node));
               EvDirty nid;
               EvPost ROUTE_CHAT (dispatch_payload w nid);
               EvSet nid si (VStr ("error: " +:+ m));
               EvDirty nid])%list.
Proof.
  intros w'. subst w'. unfold result, exec.
  rewrite (sendAction_failure_run _ _ _ _ _ _ _ Hnode Hstatus Hfail). cbn [fst snd].
  split_and!; try done.
  - unfold value_named. peel. rewrite Hstatus.
    simpl. by rewrite !decide_True.
  - intros n i Hne. peel.
    rewrite !decide_False; [done|intros [? ?]; by simplify_eq..].
  - intros name Hname. unfold value_named. peel.
    destruct (widget_named w nid name) as [[j wdj]|] eqn:Hj; simpl; [|done].
    pose proof (widget_named_distinct _ _ _ _ _ _ _ _ Hj Hstatus Hname) as Hji.
    rewrite !decide_False; [done|by intros [? ?]..].
  - intros n Hn. simpl. by rewrite !lookup_alter_ne.
  - simpl. by rewrite <-!(assoc_L (++)).
Qed.

Lemma dispatch_failure_is_local_witness :
  let w' := exec (sendAction Backends.boom 1) Examples.studio in
  value_named w' 1 "status" = Some (VStr "error: boom") ∧
  value_named w' 3 "text" = Some (VStr "old") ∧
  value_named w' 1 "user_message" = Some (VStr "hi").
Proof.
  intros w'.
  destruct (dispatch_failure_is_local Examples.studio Backends.boom 1 Examples.chat_node 3
              (mkWidget "status" (VStr "idle") (CbHost 0) None) "boom")
    as (_ & Hs & Hw & Hn & _).
  - reflexivity.
  - reflexivity.
  - right. left. by eexists.
  - split_and!.
    + exact Hs.
    + reflexivity.
    + unfold w'. by rewrite (Hn "user_message").
Defined.

(** ** The payload of a dispatch *)

Lemma config_source_Some w node src :
  config_source w node = Some src ↔ config_link w node src.
Proof.
  unfold config_source, config_link. split.
  - intros H.
    destruct (n_inputs node) as [ins|]; simplify_eq/=.
    destruct (list_find _ ins) as [[k input]|] eqn:Hf; simplify_eq/=.
    destruct (i_link input) as [linkId|] eqn:Hl; simplify_eq/=.
    destruct (links w !! linkId) as [link|] eqn:Hk; simplify_eq/=.
    by exists ins, k, input, linkId, link.
  - intros (ins & k & input & linkId & link & -> & Hf & Hl & Hk & Hs). simpl.
    rewrite Hf. simpl. rewrite Hl. simpl. by rewrite Hk.
Qed.


(** The status write that precedes the construction of the payload does
    not show in it: the status widget is excluded from the copy, and it is
    not one of the fields that the resolver reads. *)
Lemma copy_widgets_alter f i (ws : list Widget) wd payload :
  ws !! i = Some wd →
  w_name wd ∈ excludeWidgets →
  w_name (f wd) = w_name wd →
  foldl copy_widget payload (alter f i ws) = foldl copy_widget payload ws.
Proof.
  revert i payload. induction ws as [|x ws IH]; intros i payload; [done|].
  destruct i as [|i]; simpl.
  - intros [= ->] Hex Hf. unfold copy_widget at 2 4. rewrite Hf.
    by rewrite !bool_decide_eq_true_2.
  - intros Hi Hex Hf. by apply IH.
Qed.

Lemma copy_field_alter f i (ws : list Widget) wd name config :
  ws !! i = Some wd →
  w_name wd ≠ name →
  (∀ x, w_name (f x) = w_name x) →
  copy_field (Some (alter f i ws)) name config = copy_field (Some ws) name config.
Proof.
  intros Hi Hne Hf. unfold copy_field. simpl. rewrite find_widget_alter by done.
  destruct (find_widget name ws) as [[j wdj]|] eqn:Hj; simpl; [|done].
  case_decide as Hji; [|done]. subst j.
  apply list_find_Some in Hj as (Hj & Hn & _). congruence.
Qed.

Lemma getLLMConfig_upd nid i f w node node' wd :
  widget_at w nid i = Some wd →
  w_name wd ∉ config_fields →
  (∀ x, w_name (f x) = w_name x) →
  n_inputs node' = n_inputs node →
  getLLMConfig (upd_widget nid i f w) node' = getLLMConfig w node.
Proof.
  intros Hwd Hname Hf Hins. unfold getLLMConfig. rewrite Hins.
  destruct (n_inputs node) as [ins|]; simpl; [|done].
  destruct (list_find _ ins) as [[k input]|]; simpl; [|done].
  destruct (i_link input) as [linkId|]; simpl; [|done].
  destruct (links w !! linkId) as [link|]; simpl; [|done].
  rewrite lookup_alter. case_decide as Ho; [|done]. subst nid.
  unfold widget_at in Hwd.
  destruct (nodes w !! origin_id link) as [src|]; simplify_eq/=.
  destruct (n_widgets src) as [ws|]; simplify_eq/=.
  f_equal.
  rewrite !(copy_field_alter f i ws wd); try done;
    intros E; apply Hname; rewrite E; by_compute.
Qed.

Lemma getLLMConfig_add_event e w node : getLLMConfig (add_event e w) node = getLLMConfig w node.
Proof. done. Qed.

Lemma dispatch_payload_eq w nid node :
  nodes w !! nid = Some node →
  dispatch_payload w nid = buildPayload w node (selected_action node).
Proof.
  intros Hnode. unfold dispatch_payload. rewrite Hnode.
  set (action := selected_action node).
  destruct (widget_named w nid "status") as [[si wd]|] eqn:Hst.
  - destruct (dispatch_prologue nid w node si wd Hnode Hst) as [E _].
    fold action in E. unfold exec. rewrite E. cbn [snd].
    destruct (widget_named_at _ _ _ _ _ Hst) as [Hat Hname].
    assert (nodes (upd_widget nid si (with_value (status_working action)) w) !! nid =
            Some (alter_widgets (alter (with_value (status_working action)) si) node)) as Hn'.
    { unfold upd_widget, set_nodes. simpl. by rewrite lookup_alter_eq, Hnode. }
    change (nodes (add_event ?e1 (add_event ?e2 ?w0))) with (nodes w0). rewrite Hn'. simpl.
    rewrite !buildPayload_unfold, !getLLMConfig_add_event.
    rewrite (getLLMConfig_upd nid si _ w node _ wd); try done.
    2:{ rewrite Hname. by_compute. }
    assert (widget_payload (alter_widgets (alter (with_value (status_working action)) si) node)
              action = widget_payload node action) as ->; [|done].
    unfold widget_payload, alter_widgets. simpl. f_equal.
    unfold widget_at in Hat. rewrite Hnode in Hat. simpl in Hat.
    destruct (n_widgets node) as [ws|]; simplify_eq/=.
    apply (copy_widgets_alter _ _ _ wd); [done| |done].
    rewrite Hname. by_compute.
  - unfold exec, assign_captured.
    rewrite (bind_ok _ _ w tt w).
    2:{ rewrite (bind_ok get_world _ w w w) by done. by rewrite Hst. }
    simpl. by rewrite Hnode.
Qed.

(** The request is sent, whatever the backend then does. *)
Lemma postJSON_world fetchApi path payload w :
  (postJSON fetchApi path payload w).2 = add_event (EvPost path payload) w.
Proof.
  unfold postJSON.
  rewrite (bind_ok (emit _) _ w tt (add_event (EvPost path payload) w)) by done.
  destruct (fetchApi path payload) as [m|[] text [m|data]]; done.
Qed.

Lemma sendAction_posts fetchApi nid w node :
  nodes w !! nid = Some node →
  EvPost ROUTE_CHAT (dispatch_payload w nid) ∈ trace (exec (sendAction fetchApi nid) w).
Proof.
  intros Hnode.
  set (action := selected_action node).
  destruct (safe_bind advances
              (assign_captured nid "status" (status_working action))
              (λ _, emit (EvDirty nid))) with (w := w) as ([] & w2 & E & _).
  { eapply safe_advances, safe_assign_captured. }
  { intros _. apply (safe_advances (λ _ _, True) VUndef), safe_emit. }
  assert (dispatch_payload w nid = buildPayload w2 (default node (nodes w2 !! nid)) action)
    as Hpay.
  { unfold dispatch_payload. rewrite Hnode. fold action. unfold exec. by rewrite E. }
  set (w3 := add_event (EvPost ROUTE_CHAT (dispatch_payload w nid)) w2).
  assert (advances w3 (exec (sendAction fetchApi nid) w)) as Hadv.
  { unfold exec, sendAction. rewrite (bind_ok get_world _ w w w) by done. rewrite Hnode.
    fold action. fold (status_working action). unfold try_catch.
    rewrite bind_unfold in E.
    destruct (assign_captured nid "status" (status_working action) w) as [[[]|?] w1] eqn:E1;
      [|done].
    rewrite (bind_ok _ _ _ _ _ E1), (bind_ok _ _ _ _ _ E).
    rewrite (bind_ok get_world _ w2 w2 w2) by done. rewrite <-Hpay.
    pose proof (postJSON_world fetchApi ROUTE_CHAT (dispatch_payload w nid) w2) as Hw3.
    rewrite bind_unfold.
    destruct (postJSON fetchApi ROUTE_CHAT (dispatch_payload w nid) w2) as [[data|m] w3'];
      simpl in Hw3; subst w3'.
    - pose proof (runs_on_response nid action data w3) as Hr. unfold exec in Hr.
      fold w3.
      destruct (on_response nid action data w3) as [[[]|m] w4]; cbn [fst snd] in *; [done|].
      etrans; [exact Hr|]. apply runs_on_error.
    - apply runs_on_error. }
  destruct (ad_trace _ _ Hadv) as [tr ->].
  apply elem_of_app. left. unfold w3. simpl. apply elem_of_app. right. by left.
Qed.

(** ** The configuration record of a dispatch *)

Lemma getLLMConfig_linked w node src :
  config_link w node src →
  getLLMConfig w node =
  Some (foldl (λ config name, copy_field (n_widgets src) name config) ∅ config_fields).
Proof. intros H%config_source_Some. by rewrite getLLMConfig_source, H. Qed.


(** C3.  The claim does not hold of the code: on a graph whose chat node
    is wired to a configuration node that exposes an [api_key] widget, the
    record produced by [getLLMConfig], and with it the [llm_config] object
    of the request, has no [api_key] key. *)
Theorem getLLMConfig_drops_api_key :
  exposes Examples.config_node "api_key" (VStr "sk-1") ∧
  config_link Examples.studio Examples.chat_node Examples.config_node ∧
  ∃ config,
    getLLMConfig Examples.studio Examples.chat_node = Some config ∧
    config !! "api_key" = None ∧
    dispatch_payload Examples.studio 1 !! "llm_config" = Some (PConfig config).
Proof.
  split_and!.
  - by eexists 2, _.
  - by apply config_source_Some.
  - eexists. split_and!; [reflexivity| |].
    + by vm_compute.
    + by vm_compute.
Qed.

(** C10.  When the [llm_config] input is connected and its link and origin
    node resolve, but the origin node has none of the widgets the resolver
    looks for, [getLLMConfig] returns the empty record, not [null]; the
    request that the dispatch sends carries an [llm_config] key bound to
    that empty object. *)
Theorem empty_config_is_attached (w : World) (fetchApi : Backend) (nid : positive)
    (node src : Node)
    (Hnode : nodes w !! nid = Some node)
    (Hlink : config_link w node src)
    (Hnone : ∀ name, name ∈ config_fields → lacks src name) :
  getLLMConfig w node = Some ∅ ∧
  dispatch_payload w nid !! "llm_config" = Some (PConfig ∅) ∧
  EvPost ROUTE_CHAT (dispatch_payload w nid) ∈ trace (exec (sendAction fetchApi nid) w).
Proof.
  assert (getLLMConfig w node = Some ∅) as Hcfg.
  { rewrite (getLLMConfig_linked _ _ _ Hlink). simpl.
    rewrite !copy_field_missing; [done|apply Hnone; by_compute..]. }
  split_and!.
  - done.
  - rewrite (dispatch_payload_eq _ _ _ Hnode), buildPayload_unfold, Hcfg.
    by rewrite lookup_insert_eq.
  - by eapply sendAction_posts.
Qed.

Lemma empty_config_is_attached_witness :
  getLLMConfig Bare.page Bare.chat = Some ∅ ∧
  dispatch_payload Bare.page 1 !! "llm_config" = Some (PConfig ∅).
Proof.
  destruct (empty_config_is_attached Bare.page Backends.fine 1 Bare.chat Bare.source)
    as (H1 & H2 & _).
  - reflexivity.
  - by apply config_source_Some.
  - intros name Hin. unfold config_fields in Hin.
    repeat (apply elem_of_cons in Hin as [->|Hin]; [reflexivity|]).
    by apply elem_of_nil in Hin.
  - by split.
Defined.




(** ** Which writes notify the widget *)

Lemma new_events_app w w' tr : trace w' = (trace w ++ tr)%list → new_events w w' = tr.
Proof. intros H. unfold new_events. by rewrite H, drop_app_length. Qed.

Lemma notified_app cbs exempt tr1 tr2 :
  notified cbs exempt tr1 = true → notified cbs exempt tr2 = true →
  notified cbs exempt (tr1 ++ tr2) = true.
Proof.
  intros H1 H2. induction tr1 as [|e tr1 IH]; [done|].
  destruct e as [n i v| | | |]; simpl in *; try by apply IH.
  apply andb_true_iff in H1 as [Hhd Htl]. rewrite (IH Htl), andb_true_r.
  destruct tr1 as [|e' tr1]; simpl in *; [|done].
  rewrite orb_false_r in Hhd. by rewrite Hhd.
Qed.

Lemma notified_ext cbs cbs' ex ex' tr :
  (∀ n i, cbs n i = cbs' n i) → (∀ n i, ex n i = ex' n i) →
  notified cbs ex tr = notified cbs' ex' tr.
Proof.
  intros Hc He. induction tr as [|e tr IH]; [done|].
  destruct e; simpl; try done. by rewrite Hc, He, IH.
Qed.

Lemma callbacks_skeleton w w' n i :
  skeleton w' = skeleton w → callbacks w' n i = callbacks w n i.
Proof.
  intros H%(skeleton_widget_at _ _ n i). unfold callbacks.
  destruct (widget_at w' n i) as [wd'|], (widget_at w n i) as [wd|]; simplify_eq/=; [|done].
  congruence.
Qed.

Lemma widget_named_skeleton w w' n name :
  skeleton w' = skeleton w →
  (λ p, p.1) <$> widget_named w' n name = (λ p, p.1) <$> widget_named w n name.
Proof.
  intros Hsk%(skeleton_lookup _ _ n). unfold widget_named.
  destruct (nodes w' !! n) as [[ws' ins' outs']|], (nodes w !! n) as [[ws ins outs]|];
    simplify_eq/=; [|done].
  unfold erase_node, alter_widgets in Hsk. simplify_eq/=.
  destruct ws' as [ws'|], ws as [ws|]; simplify_eq/=; [|done].
  match goal with H : _ <$> _ = _ <$> _ |- _ =>
    apply (f_equal (find_widget name)) in H; rewrite !find_widget_erase in H end.
  by destruct (find_widget name ws') as [[? ?]|], (find_widget name ws) as [[? ?]|];
    simplify_eq/=.
Qed.

Lemma captured_skeleton nid w w' n i :
  skeleton w' = skeleton w → captured nid w' n i = captured nid w n i.
Proof.
  intros Hsk. unfold captured. f_equal. f_equal. simpl.
  by rewrite !(widget_named_skeleton _ _ _ _ Hsk).
Qed.

Lemma skeleton_add_event e w : skeleton (add_event e w) = skeleton w.
Proof. done. Qed.

Section Logs.

(** An exemption that depends on the shape of the graph only. *)
Context (ex : World → positive → nat → bool).
Context (ex_skeleton : ∀ w w' n i, skeleton w' = skeleton w → ex w' n i = ex w n i).

#[local] Instance logs_preorder : PreOrder (logs ex).
Proof.
  split.
  - intros w. split; [done|]. exists []. by rewrite app_nil_r.
  - intros w1 w2 w3 [S1 (tr1 & E1 & N1)] [S2 (tr2 & E2 & N2)]. split; [congruence|].
    exists (tr1 ++ tr2)%list. split; [by rewrite E2, E1, (assoc_L (++))|].
    apply notified_app; [done|].
    rewrite <-N2. apply notified_ext.
    + intros n i. symmetry. by apply callbacks_skeleton.
    + intros n i. symmetry. by apply ex_skeleton.
Qed.











End Logs.



Section DispatchLogs.

Context (nid : positive).

#[local] Instance captured_logs_preorder : PreOrder (logs (captured nid)).
Proof. apply logs_preorder, captured_skeleton. Qed.







End DispatchLogs.




(** ** A dispatch whose backend call succeeds *)

Lemma evolves_value_frame T v w w' n i :
  evolves T v w w' → ¬ T n i → value_at w' n i = value_at w n i.
Proof. intros Hev HT. unfold value_at. by rewrite (evolves_frame _ _ _ _ _ _ Hev HT). Qed.

Lemma assign_notify_spec T v nid wi cb arg w wd :
  widget_at w nid wi = Some wd → T nid wi →
  ∃ w', (write_value nid wi v;;
         when (cb_truthy cb) (invoke_onChange cb nid wi arg);;
         emit (EvDirty nid)) w = (Ok tt, w') ∧
        evolves T v w w' ∧ value_at w' nid wi = Some v.
Proof.
  intros Hwd HT.
  rewrite (bind_ok _ _ _ _ _ (write_value_run nid wi v w)).
  set (w1 := add_event _ _).
  destruct (safe_bind (evolves T v)
              (when (cb_truthy cb) (invoke_onChange cb nid wi arg))
              (λ _, emit (EvDirty nid))) with (w := w1) as ([] & w' & E & Hev).
  { safe_step. by apply safe_invoke_onChange. }
  { intros _. apply safe_emit. }
  exists w'. split; [done|]. split.
  - etrans; [|done]. unfold w1. etrans; [|apply evolves_add_event].
    apply evolves_upd_widget; [done|done|]. by left.
  - apply (evolves_keeps _ _ _ _ _ _ Hev). unfold value_at, w1.
    rewrite widget_at_add_event, widget_at_upd, decide_True by done. by rewrite Hwd.
Qed.

Lemma assign_captured_spec nid name v w i wd :
  widget_named w nid name = Some (i, wd) →
  ∃ w', assign_captured nid name v w = (Ok tt, w') ∧
        evolves (λ n' i', n' = nid ∧ i' = i) v w w' ∧
        value_at w' nid i = Some v.
Proof.
  intros Hn. rewrite (assign_captured_run _ _ _ _ _ _ Hn).
  destruct (widget_named_at _ _ _ _ _ Hn) as [Hat _].
  eexists. split; [done|]. split.
  - etrans; [|apply evolves_add_event].
    apply evolves_upd_widget; [done|done|]. by left.
  - unfold value_at. peel. by rewrite decide_True, Hat.
Qed.

Lemma setWidgetValue_spec nid name v w i wd :
  widget_named w nid name = Some (i, wd) →
  ∃ w', setWidgetValue nid name v w = (Ok tt, w') ∧
        evolves (λ n' i', n' = nid ∧ i' = i) (nullish_empty v) w w' ∧
        value_at w' nid i = Some (nullish_empty v).
Proof.
  intros Hn. destruct (widget_named_at _ _ _ _ _ Hn) as [Hat _].
  unfold setWidgetValue. rewrite (bind_ok get_world _ w w w) by done.
  unfold widget_named in Hn.
  destruct (nodes w !! nid) as [node|]; simplify_eq/=.
  destruct (n_widgets node) as [ws|]; simplify_eq/=. rewrite Hn.
  by apply (assign_notify_spec _ _ _ _ _ _ _ wd).
Qed.

Lemma setWidgetValue_missing nid name v w :
  widget_named w nid name = None → setWidgetValue nid name v w = (Ok tt, w).
Proof.
  intros Hn. unfold setWidgetValue. rewrite (bind_ok get_world _ w w w) by done.
  unfold widget_named in Hn.
  destruct (nodes w !! nid) as [node|]; simplify_eq/=; [|done].
  destruct (n_widgets node) as [ws|]; simplify_eq/=; [|done]. by rewrite Hn.
Qed.

(** The consumers of a slot depend on the shape of the graph only. *)
Lemma output_links_skeleton w w' nid slotIndex :
  skeleton w' = skeleton w → output_links w' nid slotIndex = output_links w nid slotIndex.
Proof.
  intros H%(skeleton_outputs _ _ nid). unfold output_links.
  destruct (nodes w' !! nid) as [x|], (nodes w !! nid) as [y|]; simplify_eq/=; [|done].
  congruence.
Qed.

Lemma slot_consumer_skeleton w w' nid slotIndex n i :
  skeleton w' = skeleton w →
  slot_consumer w' nid slotIndex n i ↔ slot_consumer w nid slotIndex n i.
Proof.
  intros Hsk. rewrite !slot_consumer_elem. unfold slot_consumers.
  rewrite (output_links_skeleton _ _ _ _ Hsk).
  rewrite !list_elem_of_omap. by setoid_rewrite (consumer_of_skeleton _ _ _ Hsk).
Qed.

Lemma widget_named_index w w' n name i wd :
  skeleton w' = skeleton w →
  widget_named w n name = Some (i, wd) →
  ∃ wd', widget_named w' n name = Some (i, wd').
Proof.
  intros Hsk%(widget_named_skeleton _ _ n name) Hn. rewrite Hn in Hsk.
  destruct (widget_named w' n name) as [[i' wd']|]; simplify_eq/=. eauto.
Qed.

Lemma widget_named_index_None w w' n name :
  skeleton w' = skeleton w →
  widget_named w n name = None → widget_named w' n name = None.
Proof.
  intros Hsk%(widget_named_skeleton _ _ n name) Hn. rewrite Hn in Hsk.
  by destruct (widget_named w' n name).
Qed.

(** Each delivery is recorded in the trace. *)
Lemma new_events_trans w w1 w2 a b :
  trace w1 = (trace w ++ a)%list → trace w2 = (trace w1 ++ b)%list →
  new_events w w2 = (a ++ b)%list.
Proof. intros E1 E2. apply new_events_app. by rewrite E2, E1, (assoc_L (++)). Qed.

Lemma deliver_logs_set v l w t i wd :
  resolve_consumer w l = Some (t, i, wd) →
  ∃ w1 tr, deliver v l w = (Ok tt, w1) ∧
           skeleton w1 = skeleton w ∧
           trace w1 = (trace w ++ EvSet t i v :: tr)%list.
Proof.
  intros Hres. unfold deliver.
  rewrite (bind_ok get_world _ w w w) by done. rewrite Hres.
  rewrite (bind_ok _ _ _ _ _ (write_value_run t i v w)).
  set (w1 := add_event _ _).
  destruct (safe_bind (evolves (λ _ _, True) v)
              (when (cb_truthy (w_onChange wd)) (invoke_onChange (w_onChange wd) t i v))
              (λ _, emit (EvDirty t))) with (w := w1) as ([] & w' & E & Hev).
  { safe_step. by apply safe_invoke_onChange. }
  { intros _. apply safe_emit. }
  destruct (ev_trace _ _ _ _ Hev) as [tr Htr].
  exists w', tr. split; [done|]. split.
  - rewrite (ev_skeleton _ _ _ _ Hev). by apply skeleton_upd.
  - rewrite Htr. unfold w1. simpl. by rewrite <-(assoc_L (++)).
Qed.

Lemma forEach_deliver_events v ls w l t i :
  l ∈ ls → consumer_of w l = Some (t, i) →
  EvSet t i v ∈ new_events w (exec (forEach ls (deliver v)) w).
Proof.
  revert w. induction ls as [|l0 ls IH]; intros w Hin Hc; [by apply elem_of_nil in Hin|].
  simpl.
  destruct (deliver_evolves (λ _ _, True) v l0 w) as (w1 & E1 & Hev1); [done|].
  destruct (forEach_deliver (λ _ _, True) v ls w1) as (w' & E' & Hev' & _); [done|].
  unfold exec. rewrite (bind_ok _ _ _ _ _ E1), E'. cbn [snd].
  destruct (ev_trace _ _ _ _ Hev1) as [tr1 Htr1].
  destruct (ev_trace _ _ _ _ Hev') as [tr' Htr'].
  rewrite (new_events_trans _ _ _ _ _ Htr1 Htr').
  apply elem_of_cons in Hin as [->|Hin].
  - apply elem_of_app. left.
    unfold consumer_of in Hc.
    destruct (resolve_consumer w l0) as [[[t' i'] wd]|] eqn:Hres; simplify_eq/=.
    destruct (deliver_logs_set v l0 w t i wd Hres) as (w1' & tr & E & _ & Htr).
    assert (w1' = w1) as -> by congruence.
    rewrite Htr1 in Htr. apply app_inv_head in Htr as ->. by left.
  - apply elem_of_app. right.
    specialize (IH w1 Hin). unfold exec in IH. rewrite E' in IH. cbn [snd] in IH.
    rewrite (new_events_app _ _ _ Htr') in IH. apply IH.
    by rewrite (consumer_of_skeleton _ _ _ (ev_skeleton _ _ _ _ Hev1)).
Qed.

Lemma propagateOutput_events nid slotIndex v w n i :
  slot_consumer w nid slotIndex n i →
  EvSet n i v ∈ new_events w (exec (propagateOutput nid slotIndex v) w).
Proof.
  intros (ls & Hls & l & wd & Hl & Hd).
  unfold exec, propagateOutput. rewrite (bind_ok get_world _ w w w) by done. rewrite Hls.
  apply (forEach_deliver_events v ls w l); [done|]. apply consumer_of_Some. eauto.
Qed.

Lemma index_clash w n name name' i wd :
  widget_named w n name = Some (i, wd) →
  (λ p, p.1) <$> widget_named w n name' = Some i →
  name = name'.
Proof.
  intros H1 H2. destruct (widget_named w n name') as [[i' wd']|] eqn:H3; simplify_eq/=.
  destruct (decide (name = name')) as [|Hne]; [done|].
  by destruct (widget_named_distinct _ _ _ _ _ _ _ _ H1 H3 Hne).
Qed.

Lemma new_events_mid w wa wb w' e :
  trace w `prefix_of` trace wa →
  trace wa `prefix_of` trace wb →
  trace wb `prefix_of` trace w' →
  e ∈ new_events wa wb → e ∈ new_events w w'.
Proof.
  intros [a Ha] [b Hb] [c Hc] He.
  rewrite (new_events_app _ _ _ Hb) in He.
  rewrite (new_events_app w w' (a ++ b ++ c)).
  - apply elem_of_app. right. apply elem_of_app. by left.
  - by rewrite Hc, Hb, Ha, <-!(assoc_L (++)).
Qed.

(** The statements after the [await], from a world in which the three
    captured widgets exist and no output link feeds back into the node. *)
Lemma on_response_spec nid action r h w si hi ri wds wdh wdr :
  widget_named w nid "status" = Some (si, wds) →
  widget_named w nid "history_preview" = Some (hi, wdh) →
  widget_named w nid "assistant_response_preview" = Some (ri, wdr) →
  no_feedback w nid →
  ∃ w', on_response nid action (JObj r h) w = (Ok tt, w') ∧
        advances w w' ∧
        value_at w' nid ri = Some (or_empty r) ∧
        value_at w' nid hi = Some (or_empty h) ∧
        value_at w' nid si = Some (VStr "done") ∧
        (∀ n i, slot_consumer w nid 0 n i →
                EvSet n i (or_empty r) ∈ new_events w w' ∧
                (¬ slot_consumer w nid 1 n i → value_at w' n i = Some (or_empty r))) ∧
        (∀ n i, slot_consumer w nid 1 n i →
                EvSet n i (or_empty h) ∈ new_events w w' ∧
                value_at w' n i = Some (or_empty h)) ∧
        value_named w' nid "user_message" =
          (if clears_input w nid action
           then (λ _, VStr "") <$> value_named w nid "user_message"
           else value_named w nid "user_message").
Proof.
  intros Hst Hhi Hri Hno.
  set (r' := or_empty r). set (h' := or_empty h).
  assert (ri ≠ hi) as Hrh by (by eapply (widget_named_distinct w nid)).
  assert (ri ≠ si) as Hrs by (by eapply (widget_named_distinct w nid)).
  assert (hi ≠ si) as Hhs by (by eapply (widget_named_distinct w nid)).
  unfold on_response.
  rewrite (bind_ok (field_assistant_response (JObj r h)) _ w r w) by done.
  (* responseStore.value = ... *)
  destruct (assign_captured_spec nid "assistant_response_preview" r' w ri wdr Hri)
    as (w4 & E4 & H4 & V4).
  rewrite (bind_ok _ _ _ _ _ E4).
  rewrite (bind_ok (field_readable_history (JObj r h)) _ w4 h w4) by done.
  pose proof (ev_skeleton _ _ _ _ H4) as S4.
  (* historyStore.value = ... *)
  destruct (widget_named_index _ _ _ _ _ _ S4 Hhi) as [wdh4 Hhi4].
  destruct (assign_captured_spec nid "history_preview" h' w4 hi wdh4 Hhi4)
    as (w5 & E5 & H5 & V5).
  rewrite (bind_ok _ _ _ _ _ E5).
  assert (skeleton w5 = skeleton w) as S5 by (rewrite (ev_skeleton _ _ _ _ H5); done).
  (* the two propagations *)
  destruct (propagateOutput_spec nid 0 r' w5) as (w6 & E6 & H6 & V6).
  rewrite (bind_ok _ _ _ _ _ E6).
  assert (skeleton w6 = skeleton w) as S6 by (rewrite (ev_skeleton _ _ _ _ H6); done).
  destruct (propagateOutput_spec nid 1 h' w6) as (w7 & E7 & H7 & V7).
  rewrite (bind_ok _ _ _ _ _ E7).
  assert (skeleton w7 = skeleton w) as S7 by (rewrite (ev_skeleton _ _ _ _ H7); done).
  rewrite (bind_ok get_world _ w7 w7 w7) by done.
  assert (∀ i, ¬ slot_consumer w5 nid 0 nid i) as Hno5.
  { intros i. rewrite (slot_consumer_skeleton _ _ _ _ _ _ S5). apply Hno. by_compute. }
  assert (∀ i, ¬ slot_consumer w6 nid 1 nid i) as Hno6.
  { intros i. rewrite (slot_consumer_skeleton _ _ _ _ _ _ S6). apply Hno. by_compute. }
  (* what the node's own widgets hold when the propagations are over *)
  assert (∀ i, i ≠ ri → i ≠ hi → value_at w7 nid i = value_at w nid i) as Hown7.
  { intros i Hir Hih.
    rewrite (evolves_value_frame _ _ _ _ _ _ H7) by apply Hno6.
    rewrite (evolves_value_frame _ _ _ _ _ _ H6) by apply Hno5.
    rewrite (evolves_value_frame _ _ _ _ _ _ H5) by (by intros [_ ?]).
    by rewrite (evolves_value_frame _ _ _ _ _ _ H4) by (by intros [_ ?]). }
  assert (∀ name, name ≠ "assistant_response_preview" → name ≠ "history_preview" →
                  value_named w7 nid name = value_named w nid name) as Hkeep7.
  { intros name Hn1 Hn2.
    destruct (widget_named w nid name) as [[i wd]|] eqn:Hn.
    - destruct (widget_named_index _ _ _ _ _ _ S7 Hn) as [wd7 Hn7].
      rewrite (value_named_at _ _ _ _ _ Hn7), (value_named_at _ _ _ _ _ Hn).
      apply Hown7.
      + intros ->. apply Hn1. by eapply (index_clash w nid); [|rewrite Hri].
      + intros ->. apply Hn2. by eapply (index_clash w nid); [|rewrite Hhi].
    - unfold value_named. by rewrite Hn, (widget_named_index_None _ _ _ _ S7 Hn). }
  assert (clears_input w7 nid action = clears_input w nid action) as Hclr.
  { unfold clears_input. by rewrite Hkeep7. }
  fold (clears_input w7 nid action). rewrite Hclr.
  (* the auto-clear *)
  set (T8 := λ (n' : positive) (i' : nat),
         n' = nid ∧ (λ p, p.1) <$> widget_named w nid "user_message" = Some i').
  assert (∃ w8, when (clears_input w nid action) (setWidgetValue nid "user_message" (VStr "")) w7
                = (Ok tt, w8) ∧
                evolves T8 (VStr "") w7 w8 ∧
                value_named w8 nid "user_message" =
                  (if clears_input w nid action
                   then (λ _, VStr "") <$> value_named w nid "user_message"
                   else value_named w nid "user_message")) as (w8 & E8 & H8 & V8).
  { destruct (clears_input w nid action); simpl.
    - destruct (widget_named w nid "user_message") as [[ui wdu]|] eqn:Hum.
      + destruct (widget_named_index _ _ _ _ _ _ S7 Hum) as [wdu7 Hum7].
        destruct (setWidgetValue_spec nid "user_message" (VStr "") w7 ui wdu7 Hum7)
          as (w8 & E8 & H8 & V8).
        exists w8. split; [done|]. split.
        * eapply evolves_mono; [|exact H8]. intros n i [-> ->]. split; [done|].
          unfold T8. by rewrite ?Hum.
        * destruct (widget_named_index _ _ _ _ _ _ (ev_skeleton _ _ _ _ H8) Hum7)
            as [wdu8 Hum8].
          rewrite (value_named_at _ _ _ _ _ Hum8), V8. unfold value_named. by rewrite Hum.
      + exists w7. split; [|split; [reflexivity|]].
        * apply setWidgetValue_missing. by apply (widget_named_index_None w).
        * unfold value_named. by rewrite Hum, (widget_named_index_None _ _ _ _ S7 Hum).
    - exists w7. split; [done|]. split; [reflexivity|]. by apply Hkeep7. }
  rewrite (bind_ok _ _ _ _ _ E8).
  assert (skeleton w8 = skeleton w) as S8 by (rewrite (ev_skeleton _ _ _ _ H8); done).
  (* statusWidget.value = "done" *)
  destruct (widget_named_index _ _ _ _ _ _ S8 Hst) as [wds8 Hst8].
  destruct (assign_captured_spec nid "status" (VStr "done") w8 si wds8 Hst8)
    as (w9 & E9 & H9 & V9).
  rewrite (bind_ok _ _ _ _ _ E9).
  assert (skeleton w9 = skeleton w) as S9 by (rewrite (ev_skeleton _ _ _ _ H9); done).
  set (w' := add_event (EvDirty nid) w9).
  exists w'. split; [done|].
  assert (∀ n i, value_at w' n i = value_at w9 n i) as Hw' by done.
  (* the frames of the last two steps *)
  assert (∀ n i, ¬ T8 n i → ¬ (n = nid ∧ i = si) → value_at w' n i = value_at w7 n i)
    as Hlate.
  { intros n i HT8 Hsi. rewrite Hw'.
    rewrite (evolves_value_frame _ _ _ _ _ _ H9) by done.
    by rewrite (evolves_value_frame _ _ _ _ _ _ H8). }
  assert (advances w w9) as A9.
  { etrans; [eapply evolves_advances, H4|]. etrans; [eapply evolves_advances, H5|].
    etrans; [eapply evolves_advances, H6|]. etrans; [eapply evolves_advances, H7|].
    etrans; [eapply evolves_advances, H8|]. eapply evolves_advances, H9. }
  assert (advances w w') as A'.
  { etrans; [exact A9|]. eapply evolves_advances, (evolves_add_event (λ _ _, True) VUndef). }
  split; [exact A'|].
  assert (∀ name i wd, widget_named w nid name = Some (i, wd) → name ≠ "user_message" →
                       ¬ T8 nid i) as HnotT8.
  { intros name i wd Hn Hne [_ HT]. apply Hne. by eapply (index_clash w nid). }
  split_and!.
  - rewrite Hlate; [|by eapply HnotT8|by intros [_ ?]].
    rewrite (evolves_value_frame _ _ _ _ _ _ H7) by apply Hno6.
    rewrite (evolves_value_frame _ _ _ _ _ _ H6) by apply Hno5.
    by rewrite (evolves_value_frame _ _ _ _ _ _ H5) by (by intros [_ ?]).
  - rewrite Hlate; [|by eapply HnotT8|by intros [_ ?]].
    rewrite (evolves_value_frame _ _ _ _ _ _ H7) by apply Hno6.
    by rewrite (evolves_value_frame _ _ _ _ _ _ H6) by apply Hno5.
  - by rewrite Hw'.
  - intros n i Hc0.
    assert (n ≠ nid) as Hn.
    { intros ->. by apply (Hno 0 i); [by_compute|]. }
    split.
    + apply (new_events_mid w w5 w6 w').
      * etrans; [apply (ev_trace _ _ _ _ H4)|apply (ev_trace _ _ _ _ H5)].
      * apply (ev_trace _ _ _ _ H6).
      * etrans; [apply (ev_trace _ _ _ _ H7)|]. etrans; [apply (ev_trace _ _ _ _ H8)|].
        etrans; [apply (ev_trace _ _ _ _ H9)|]. by apply prefix_app_r.
      * pose proof (propagateOutput_events nid 0 r' w5 n i) as He.
        unfold exec in He. rewrite E6 in He. apply He.
        by apply (slot_consumer_skeleton _ _ _ _ _ _ S5).
    + intros Hc1. rewrite Hlate; [|by intros [? _]|by intros [? _]].
      rewrite (evolves_value_frame _ _ _ _ _ _ H7).
      * apply V6. by apply (slot_consumer_skeleton _ _ _ _ _ _ S5).
      * by rewrite (slot_consumer_skeleton _ _ _ _ _ _ S6).
  - intros n i Hc1.
    assert (n ≠ nid) as Hn.
    { intros ->. by apply (Hno 1 i); [by_compute|]. }
    split.
    + apply (new_events_mid w w6 w7 w').
      * etrans; [apply (ev_trace _ _ _ _ H4)|]. etrans; [apply (ev_trace _ _ _ _ H5)|].
        apply (ev_trace _ _ _ _ H6).
      * apply (ev_trace _ _ _ _ H7).
      * etrans; [apply (ev_trace _ _ _ _ H8)|].
        etrans; [apply (ev_trace _ _ _ _ H9)|]. by apply prefix_app_r.
      * pose proof (propagateOutput_events nid 1 h' w6 n i) as He.
        unfold exec in He. rewrite E7 in He. apply He.
        by apply (slot_consumer_skeleton _ _ _ _ _ _ S6).
    + rewrite Hlate; [|by intros [? _]|by intros [? _]].
      apply V7. by apply (slot_consumer_skeleton _ _ _ _ _ _ S6).
  - rewrite <-V8.
    destruct (widget_named w nid "user_message") as [[ui wdu]|] eqn:Hum.
    + destruct (widget_named_index _ _ _ _ _ _ S8 Hum) as [wdu8 Hum8].
      destruct (widget_named_index w w' nid "user_message" ui wdu) as [wdu' Hum'].
      { apply A'. } { done. }
      rewrite (value_named_at _ _ _ _ _ Hum'), (value_named_at _ _ _ _ _ Hum8), Hw'.
      apply (evolves_value_frame _ _ _ _ _ _ H9). intros [_ ->].
      by pose proof (index_clash w nid "user_message" "status" si wdu Hum
                       ltac:(by rewrite Hst)).
    + unfold value_named.
      by rewrite (widget_named_index_None w w'), (widget_named_index_None w w8).
Qed.

(** C1, as stated, fails: when the reply output is linked back to an input
    of the dispatching node that is bound to its history cache, the
    propagation of the reply overwrites the transcript just stored. *)
Lemma feedback_link_overwrites_cache :
  ¬ (∀ (w : World) (fetchApi : Backend) (nid : positive) (node : Node)
       (si hi ri : nat) (wds wdh wdr : Widget) (r h : JsVal),
       nodes w !! nid = Some node →
       widget_named w nid "status" = Some (si, wds) →
       widget_named w nid "history_preview" = Some (hi, wdh) →
       widget_named w nid "assistant_response_preview" = Some (ri, wdr) →
       backend_replies fetchApi (dispatch_payload w nid) r h →
       value_named (exec (sendAction fetchApi nid) w) nid "history_preview" =
       Some (or_empty h)).
Proof.
  intros H.
  specialize (H Echo.page Backends.fine 1%positive Echo.chat 1 2 3
                (mkWidget "status" (VStr "idle") CbAbsent None)
                (mkWidget "history_preview" (VStr "") CbAbsent None)
                (mkWidget "assistant_response_preview" (VStr "") CbAbsent None)
                (VStr "R") (VStr "H") eq_refl eq_refl eq_refl eq_refl
                (ex_intro _ "" eq_refl)).
  vm_compute in H. discriminate H.
Qed.

(** C1, amended.  Provided that no link of output slots 0 and 1 delivers
    to a widget of the dispatching node itself: when the backend call
    succeeds with fields [r] and [h] (falsy or missing fields read as the
    empty string), the dispatch returns normally; the two cache widgets
    hold [r] and [h]; [r] has been written to every consumer widget that a
    link of slot 0 resolves to, and [h] to every one of slot 1, which then
    still hold them (a widget wired to both slots holds [h]); the status
    widget holds "done"; and [user_message] holds "" if the action is
    "send" and [auto_clear_input] is truthy, and is unchanged otherwise. *)
Theorem dispatch_success (w : World) (fetchApi : Backend) (nid : positive) (node : Node)
    (si hi ri : nat) (wds wdh wdr : Widget) (r h : JsVal)
    (Hnode : nodes w !! nid = Some node)
    (Hstatus : widget_named w nid "status" = Some (si, wds))
    (Hhist : widget_named w nid "history_preview" = Some (hi, wdh))
    (Hresp : widget_named w nid "assistant_response_preview" = Some (ri, wdr))
    (Hreply : backend_replies fetchApi (dispatch_payload w nid) r h)
    (Hno : no_feedback w nid) :
  let w' := exec (sendAction fetchApi nid) w in
  result (sendAction fetchApi nid) w = Ok tt ∧
  value_named w' nid "assistant_response_preview" = Some (or_empty r) ∧
  value_named w' nid "history_preview" = Some (or_empty h) ∧
  value_named w' nid "status" = Some (VStr "done") ∧
  (∀ n i, slot_consumer w nid 0 n i →
          EvSet n i (or_empty r) ∈ new_events w w' ∧
          (¬ slot_consumer w nid 1 n i → value_at w' n i = Some (or_empty r))) ∧
  (∀ n i, slot_consumer w nid 1 n i →
          EvSet n i (or_empty h) ∈ new_events w w' ∧
          value_at w' n i = Some (or_empty h)) ∧
  value_named w' nid "user_message" =
    (if clears_input w nid (selected_action node)
     then (λ _, VStr "") <$> value_named w nid "user_message"
     else value_named w nid "user_message").
Proof.
  intros w'. subst w'.
  destruct (dispatch_prologue nid w node si wds Hnode Hstatus) as [Epro Hpay].
  set (action := selected_action node) in *.
  set (w2 := add_event (EvDirty nid) _) in *.
  set (w3 := add_event (EvPost ROUTE_CHAT (dispatch_payload w nid)) w2).
  (* the world in which the response arrives *)
  assert (skeleton w3 = skeleton w) as S3 by (by apply skeleton_upd).
  assert (∀ name i wd, widget_named w nid name = Some (i, wd) → name ≠ "status" →
                       widget_named w3 nid name = Some (i, wd)) as Hnamed3.
  { intros name i wd Hn Hne. unfold w3, w2. peel. rewrite Hn. simpl.
    rewrite decide_False; [done|]. intros [_ ->].
    by destruct (widget_named_distinct _ _ _ _ _ _ _ _ Hn Hstatus Hne). }
  assert (∀ name, name ≠ "status" → value_named w3 nid name = value_named w nid name)
    as Hvalue3.
  { intros name Hne. unfold value_named.
    destruct (widget_named w nid name) as [[i wd]|] eqn:Hn.
    - by rewrite (Hnamed3 _ _ _ Hn Hne).
    - by rewrite (widget_named_index_None _ _ _ _ S3 Hn). }
  assert (widget_named w3 nid "status" = Some (si, with_value (status_working action) wds))
    as Hst3.
  { unfold w3, w2. peel. rewrite Hstatus. simpl. by rewrite decide_True. }
  assert (no_feedback w3 nid) as Hno3.
  { intros slotIndex i Hs. rewrite (slot_consumer_skeleton _ _ _ _ _ _ S3). by apply Hno. }
  destruct (on_response_spec nid action r h w3 si hi ri _ wdh wdr Hst3
              (Hnamed3 _ _ _ Hhist ltac:(done)) (Hnamed3 _ _ _ Hresp ltac:(done)) Hno3)
    as (w' & E' & A' & Vr & Vh & Vs & C0 & C1 & Vu).
  (* the run *)
  assert (sendAction fetchApi nid w = (Ok tt, w')) as Erun.
  { unfold sendAction. rewrite (bind_ok get_world _ w w w) by done. rewrite Hnode.
    fold action. fold (status_working action). unfold try_catch.
    rewrite (bind_ok _ _ _ _ _ (assign_captured_run nid "status" _ w si wds Hstatus)).
    rewrite (bind_ok (emit (EvDirty nid)) _ _ tt w2) by done.
    rewrite (bind_ok get_world _ w2 w2 w2) by done.
    rewrite <-Hpay.
    rewrite (bind_ok _ _ _ _ _ (postJSON_replies _ _ _ _ w2 Hreply)).
    fold w3. by rewrite E'. }
  unfold result, exec. rewrite Erun. cbn [fst snd].
  assert (skeleton w' = skeleton w) as S' by (rewrite (ad_skeleton _ _ A'); done).
  assert (trace w `prefix_of` trace w3) as P3.
  { unfold w3, w2. simpl. rewrite <-!(assoc_L (++)). by apply prefix_app_r. }
  split_and!.
  - done.
  - destruct (widget_named_index _ _ _ _ _ _ S' Hresp) as [wd' Hn'].
    by rewrite (value_named_at _ _ _ _ _ Hn').
  - destruct (widget_named_index _ _ _ _ _ _ S' Hhist) as [wd' Hn'].
    by rewrite (value_named_at _ _ _ _ _ Hn').
  - destruct (widget_named_index _ _ _ _ _ _ S' Hstatus) as [wd' Hn'].
    by rewrite (value_named_at _ _ _ _ _ Hn').
  - intros n i Hc. destruct (C0 n i) as [He Hv].
    { by apply (slot_consumer_skeleton _ _ _ _ _ _ S3). }
    split.
    + by apply (new_events_mid w w3 w' w'); [|apply (ad_trace _ _ A')| |].
    + intros Hc1. apply Hv. by rewrite (slot_consumer_skeleton _ _ _ _ _ _ S3).
  - intros n i Hc. destruct (C1 n i) as [He Hv].
    { by apply (slot_consumer_skeleton _ _ _ _ _ _ S3). }
    split; [|done].
    by apply (new_events_mid w w3 w' w'); [|apply (ad_trace _ _ A')| |].
  - rewrite Vu. unfold clears_input. by rewrite !Hvalue3.
Qed.

Lemma dispatch_success_witness :
  let w' := exec (sendAction Backends.fine 1) Examples.studio in
  no_feedback Examples.studio 1 ∧
  value_named w' 1 "assistant_response_preview" = Some (VStr "R") ∧
  value_named w' 1 "history_preview" = Some (VStr "H") ∧
  value_named w' 1 "status" = Some (VStr "done") ∧
  value_at w' 3 0 = Some (VStr "R") ∧
  value_at w' 2 0 = Some (VStr "H") ∧
  value_named w' 1 "user_message" = Some (VStr "").
Proof.
  intros w'.
  assert (no_feedback Examples.studio 1) as Hno.
  { intros slotIndex i Hs Hc%slot_consumer_elem%list_elem_of_In.
    apply elem_of_cons in Hs as [->|Hs]; [|apply elem_of_cons in Hs as [->|Hs]].
    - vm_compute in Hc. by destruct Hc as [[=]|[]].
    - vm_compute in Hc. by destruct Hc as [[=]|[]].
    - by apply elem_of_nil in Hs. }
  destruct (dispatch_success Examples.studio Backends.fine 1 Examples.chat_node 3 4 5
              (mkWidget "status" (VStr "idle") (CbHost 0) None)
              (mkWidget "history_preview" (VStr "") CbAbsent None)
              (mkWidget "assistant_response_preview" (VStr "") CbAbsent None)
              (VStr "R") (VStr "H") eq_refl eq_refl eq_refl eq_refl
              (ex_intro _ "" eq_refl) Hno)
    as (_ & Hr & Hh & Hs & C0 & C1 & Hu).
  split_and!.
  - exact Hno.
  - exact Hr.
  - exact Hh.
  - exact Hs.
  - apply (C0 3%positive 0).
    + apply slot_consumer_elem, list_elem_of_In. vm_compute. by left.
    + intros Hc%slot_consumer_elem%list_elem_of_In. vm_compute in Hc.
      by destruct Hc as [[=]|[]].
  - apply (C1 2%positive 0).
    apply slot_consumer_elem, list_elem_of_In. vm_compute. by left.
  - exact Hu.
Defined.

(** ** What the setup routines establish

    The theorems on dispatch assume that the node has the three widgets its
    dispatcher captured, and the theorem on the viewer assumes that the
    history widget carries the viewer's callback.  [setupChatNode] and
    [setupHistoryViewer] establish exactly that. *)

Lemma widget_named_addWidget nid name v w node name' :
  nodes w !! nid = Some node →
  widget_named (exec (addWidget nid name v) w) nid name' =
  match widget_named w nid name' with
  | Some p => Some p
  | None => if decide (name = name')
            then Some (length (default [] (n_widgets node)), mkWidget name v CbAbsent None)
            else None
  end.
Proof.
  intros Hnode. unfold exec, addWidget, modify, widget_named, set_nodes. simpl.
  rewrite lookup_alter_eq, Hnode. simpl. unfold find_widget.
  destruct (n_widgets node) as [ws|]; simpl.
  - destruct (list_find (λ wd, w_name wd = name') ws) as [[i wd]|] eqn:Hf.
    + by rewrite (list_find_app_l _ _ _ _ _ Hf).
    + rewrite list_find_app_r by done. simpl.
      by case_decide.
  - by case_decide.
Qed.

Lemma nodes_addWidget nid name v w node :
  nodes w !! nid = Some node →
  is_Some (nodes (exec (addWidget nid name v) w) !! nid).
Proof.
  intros Hnode. unfold exec, addWidget, modify, set_nodes. simpl.
  rewrite lookup_alter_eq, Hnode. by eexists.
Qed.

Lemma addOrGetWidget_found nid name v w p :
  widget_named w nid name = Some p → exec (addOrGetWidget nid name v) w = w.
Proof.
  intros Hn. unfold exec, addOrGetWidget.
  rewrite (bind_ok get_world _ w w w) by done. by rewrite Hn.
Qed.

Lemma addOrGetWidget_missing nid name v w :
  widget_named w nid name = None →
  exec (addOrGetWidget nid name v) w = exec (addWidget nid name v) w.
Proof.
  intros Hn. unfold exec, addOrGetWidget.
  rewrite (bind_ok get_world _ w w w) by done. by rewrite Hn.
Qed.

Lemma addOrGetWidget_ensures nid name v w node :
  nodes w !! nid = Some node →
  let w' := exec (addOrGetWidget nid name v) w in
  is_Some (nodes w' !! nid) ∧
  is_Some (widget_named w' nid name) ∧
  (∀ name' p, widget_named w nid name' = Some p → widget_named w' nid name' = Some p) ∧
  (∀ i wd, widget_named w nid name = None → widget_named w' nid name = Some (i, wd) →
           w_onChange wd = CbAbsent).
Proof.
  intros Hnode w'. subst w'.
  destruct (widget_named w nid name) as [p|] eqn:Hn.
  - rewrite (addOrGetWidget_found _ _ _ _ _ Hn).
    split_and!; [by eexists|by rewrite Hn|done|done].
  - rewrite (addOrGetWidget_missing _ _ _ _ Hn). split_and!.
    + by eapply nodes_addWidget.
    + rewrite (widget_named_addWidget _ _ _ _ _ _ Hnode), Hn, decide_True by done. by eexists.
    + intros name' p Hp. by rewrite (widget_named_addWidget _ _ _ _ _ _ Hnode), Hp.
    + intros i wd _. rewrite (widget_named_addWidget _ _ _ _ _ _ Hnode), Hn, decide_True by done.
      by intros [= _ <-].
Qed.

Lemma exec_bind {A B} (c : M A) (k : A → M B) w a w1 :
  c w = (Ok a, w1) → exec (c ≫= k) w = exec (k a) w1.
Proof. intros E. unfold exec. by rewrite (bind_ok _ _ _ _ _ E). Qed.

Lemma addOrGetWidget_returns nid name v w :
  addOrGetWidget nid name v w = (Ok tt, exec (addOrGetWidget nid name v) w).
Proof.
  unfold exec, addOrGetWidget. rewrite (bind_ok get_world _ w w w) by done.
  by destruct (widget_named w nid name).
Qed.

(** After [setupChatNode] the node has its status widget and its two
    caches. *)
Lemma setupChatNode_ready nid w node :
  nodes w !! nid = Some node →
  let w' := exec (setupChatNode nid) w in
  is_Some (widget_named w' nid "status") ∧
  is_Some (widget_named w' nid "history_preview") ∧
  is_Some (widget_named w' nid "assistant_response_preview").
Proof.
  intros Hnode w'. subst w'. unfold setupChatNode.
  rewrite (exec_bind _ _ _ _ _ (addOrGetWidget_returns nid "status" _ w)).
  destruct (addOrGetWidget_ensures nid "status" (VStr "idle") w node Hnode)
    as ([node1 Hn1] & [p1 Hs1] & _ & _).
  set (w1 := exec (addOrGetWidget nid "status" (VStr "idle")) w) in *.
  rewrite (exec_bind _ _ _ _ _ (addOrGetWidget_returns nid "history_preview" _ w1)).
  destruct (addOrGetWidget_ensures nid "history_preview" (VStr "") w1 node1 Hn1)
    as ([node2 Hn2] & [p2 Hh2] & K2 & _).
  set (w2 := exec (addOrGetWidget nid "history_preview" (VStr "")) w1) in *.
  rewrite (exec_bind _ _ _ _ _ (addOrGetWidget_returns nid "assistant_response_preview" _ w2)).
  destruct (addOrGetWidget_ensures nid "assistant_response_preview" (VStr "") w2 node2 Hn2)
    as ([node3 Hn3] & [p3 Hr3] & K3 & _).
  set (w3 := exec (addOrGetWidget nid "assistant_response_preview" (VStr "")) w2) in *.
  rewrite (exec_bind (setTimeout (UpdateWidgetLock nid) 100) _ w3 tt
             (add_timer 100 (UpdateWidgetLock nid) w3)) by done.
  set (w4 := add_timer 100 (UpdateWidgetLock nid) w3).
  destruct (addOrGetWidget_ensures nid "Execute" VNull w4 node3 Hn3) as (_ & _ & K4 & _).
  split_and!.
  - eexists. apply K4, K3, K2, Hs1.
  - eexists. apply K4, K3, Hh2.
  - eexists. apply K4, Hr3.
Qed.

(** After [setupHistoryViewer] the history widget carries the viewer's
    callback, wrapped around whatever it carried before. *)
Lemma setupHistoryViewer_installs nid w node :
  nodes w !! nid = Some node →
  ∃ wi wd original,
    widget_named (exec (setupHistoryViewer nid) w) nid "history" = Some (wi, wd) ∧
    w_onChange wd = CbViewer original.
Proof.
  intros Hnode. unfold setupHistoryViewer.
  rewrite (exec_bind _ _ _ _ _ (addOrGetWidget_returns nid "history" _ w)).
  destruct (addOrGetWidget_ensures nid "history" (VStr "") w node Hnode)
    as ([node1 Hn1] & [p1 Hh1] & _ & _).
  set (w1 := exec (addOrGetWidget nid "history" (VStr "")) w) in *.
  rewrite (exec_bind _ _ _ _ _ (addOrGetWidget_returns nid "Open History" _ w1)).
  destruct (addOrGetWidget_ensures nid "Open History" VNull w1 node1 Hn1)
    as (_ & _ & K2 & _).
  set (w2 := exec (addOrGetWidget nid "Open History" VNull) w1) in *.
  rewrite (exec_bind get_world _ w2 w2 w2) by done.
  destruct p1 as [wi wd]. rewrite (K2 _ _ Hh1).
  exists wi, (with_onChange (CbViewer (w_onChange wd)) wd), (w_onChange wd).
  split; [|done]. unfold exec, modify. cbn [snd].
  rewrite widget_named_upd by done. rewrite (K2 _ _ Hh1). simpl. by rewrite decide_True.
Qed.

(** * Further properties *)

(** ** The configuration record, field by field *)

Lemma copy_field_lookup ws name config key :
  copy_field ws name config !! key =
  if decide (key = name)
  then from_option Some (config !! key) ((λ p, w_value p.2) <$> (ws ≫= find_widget name))
  else config !! key.
Proof.
  unfold copy_field. case_decide as Hk.
  - subst. destruct (ws ≫= find_widget name) as [[i wd]|]; simpl; [|done].
    by rewrite lookup_insert_eq.
  - destruct (ws ≫= find_widget name) as [[i wd]|]; [|done].
    by rewrite lookup_insert_ne.
Qed.

Lemma copy_fields_lookup ws names config key :
  NoDup names →
  foldl (λ config name, copy_field ws name config) config names !! key =
  if bool_decide (key ∈ names)
  then from_option Some (config !! key) ((λ p, w_value p.2) <$> (ws ≫= find_widget key))
  else config !! key.
Proof.
  intros Hnd. revert config. induction Hnd as [|name names Hnotin Hnd IH]; intros config.
  - done.
  - simpl. rewrite IH, !copy_field_lookup.
    destruct (decide (key = name)) as [->|Hne].
    + rewrite (bool_decide_eq_false_2 (name ∈ names)) by done.
      by rewrite bool_decide_eq_true_2 by (by left).
    + case_bool_decide as Hin.
      * by rewrite bool_decide_eq_true_2 by (by right).
      * rewrite bool_decide_eq_false_2; [done|]. by intros [?|?]%elem_of_cons.
Qed.

(** X1.  When the [llm_config] input resolves to an origin node,
    [getLLMConfig] returns a record that has a key exactly for each of the
    seven field names that the origin node has a widget for, bound to the
    value of the first widget of that name; absent fields are omitted and
    no other key is ever present.  Only the origin node is read: the hop is
    not repeated through the origin's own inputs. *)
Theorem getLLMConfig_record (w : World) (node src : Node)
    (Hlink : config_link w node src) :
  ∃ config,
    getLLMConfig w node = Some config ∧
    ∀ key, config !! key =
           if bool_decide (key ∈ config_fields) then first_value src key else None.
Proof.
  eexists. split; [by apply getLLMConfig_linked|].
  intros key. rewrite copy_fields_lookup.
  - unfold first_value. case_bool_decide; [|done].
    by destruct (n_widgets src ≫= find_widget key).
  - by_compute.
Qed.

Lemma getLLMConfig_record_witness :
  ∃ config,
    getLLMConfig Examples.studio Examples.chat_node = Some config ∧
    config !! "model_name" = Some (VStr "gpt") ∧
    config !! "base_url" = None ∧
    config !! "api_key" = None.
Proof.
  destruct (getLLMConfig_record Examples.studio Examples.chat_node Examples.config_node)
    as (config & Hc & Hk).
  - by apply config_source_Some.
  - exists config. split; [exact Hc|]. by rewrite !Hk.
Defined.

(** ** The request body, key by key *)




(** ** Computations whose events all satisfy a predicate *)

Section Traced.

Context (P : Event → Prop).

#[global] Instance traced_preorder : PreOrder (traced P).
Proof.
  split.
  - intros w. exists []. by rewrite app_nil_r.
  - intros w1 w2 w3 (tr1 & E1 & F1) (tr2 & E2 & F2).
    exists (tr1 ++ tr2)%list. split; [by rewrite E2, E1, (assoc_L (++))|].
    by apply Forall_app.
Qed.

Lemma traced_silent w w' : trace w' = trace w → traced P w w'.
Proof. intros E. exists []. by rewrite app_nil_r. Qed.

Lemma traced_event e w : P e → traced P w (add_event e w).
Proof. intros He. exists [e]. split; [done|]. by apply Forall_singleton. Qed.

Lemma safe_traced_emit e : P e → safe (traced P) (emit e).
Proof. intros He. apply safe_modify. intros w. by apply traced_event. Qed.

Lemma safe_traced_openHistoryModal text : safe (traced P) (openHistoryModal text).
Proof.
  intros w. destruct (historyModal w) as [m|] eqn:Hm.
  - rewrite (openHistoryModal_reused _ _ _ Hm). eexists _, _. split; [done|].
    by apply traced_silent.
  - rewrite (openHistoryModal_created _ _ Hm). eexists _, _. split; [done|].
    by apply traced_silent.
Qed.

Context (P_local : ∀ e, is_post e = false → P e).

Lemma safe_traced_run_callback cb nid wi arg : safe (traced P) (run_callback cb nid wi arg).
Proof.
  induction cb as [|k|original IH]; simpl.
  - safe_step.
  - by apply safe_traced_emit, P_local.
  - safe_step.
    + done.
    + destruct (widget_at _ nid wi ≫= w_inputEl) as [el|]; safe_step.
      apply safe_modify. intros w. by apply traced_silent.
    + unfold isHistoryModalOpen. safe_step.
    + apply safe_traced_openHistoryModal.
    + apply safe_modify. intros w. by apply traced_silent.
Qed.

Lemma safe_traced_write_value nid wi v : safe (traced P) (write_value nid wi v).
Proof.
  unfold write_value. safe_step.
  - apply safe_modify. intros w. by apply traced_silent.
  - by apply safe_traced_emit, P_local.
Qed.

Lemma safe_traced_assign_notify nid wi v cb arg :
  safe (traced P)
    (write_value nid wi v;;
     when (cb_truthy cb) (invoke_onChange cb nid wi arg);;
     emit (EvDirty nid)).
Proof.
  safe_step.
  - apply safe_traced_write_value.
  - unfold invoke_onChange. safe_step.
    + by apply safe_traced_emit, P_local.
    + apply safe_traced_run_callback.
  - by apply safe_traced_emit, P_local.
Qed.

Lemma safe_traced_setWidgetValue nid name value :
  safe (traced P) (setWidgetValue nid name value).
Proof.
  unfold setWidgetValue. safe_step.
  destruct (nodes _ !! nid) as [node|]; [|safe_step].
  destruct (n_widgets node) as [ws|]; [|safe_step].
  destruct (find_widget name ws) as [[wi wd]|]; [|safe_step].
  apply safe_traced_assign_notify.
Qed.

Lemma safe_traced_propagateOutput nid slotIndex v :
  safe (traced P) (propagateOutput nid slotIndex v).
Proof.
  unfold propagateOutput. safe_step.
  destruct (output_links _ nid slotIndex) as [ls|]; safe_step.
  apply safe_forEach; [apply _|]. intros l _. unfold deliver. safe_step.
  destruct (resolve_consumer _ l) as [[[t i] wd]|]; [|safe_step].
  apply safe_traced_assign_notify.
Qed.

Lemma safe_traced_assign_captured nid name v :
  safe (traced P) (assign_captured nid name v).
Proof.
  unfold assign_captured. safe_step.
  destruct (widget_named _ nid name) as [[i wd]|]; [|safe_step].
  apply safe_traced_write_value.
Qed.

Lemma safe_traced_on_error nid m : safe (traced P) (on_error nid m).
Proof.
  unfold on_error. safe_step.
  - apply safe_traced_assign_captured.
  - by apply safe_traced_emit, P_local.
Qed.

Lemma runs_traced_on_response nid action data :
  runs (traced P) (on_response nid action data).
Proof.
  unfold on_response. runs_step.
  - destruct data; simpl; runs_step.
  - apply safe_runs, safe_traced_assign_captured.
  - destruct data; simpl; runs_step.
  - apply safe_runs, safe_traced_assign_captured.
  - apply safe_runs, safe_traced_propagateOutput.
  - apply safe_runs, safe_traced_propagateOutput.
  - apply safe_runs, safe_traced_setWidgetValue.
  - apply safe_runs, safe_traced_assign_captured.
  - apply safe_runs. by apply safe_traced_emit, P_local.
Qed.

End Traced.

(** ** The dispatcher, step by step *)

Lemma postJSON_run fetchApi path payload w :
  postJSON fetchApi path payload w =
  (match reply_of (fetchApi path payload) with
   | inl m => Throw m
   | inr data => Ok data
   end, add_event (EvPost path payload) w).
Proof.
  unfold postJSON.
  rewrite (bind_ok (emit _) _ w tt (add_event (EvPost path payload) w)) by done.
  destruct (fetchApi path payload) as [m|[] text [m|data]]; done.
Qed.

(** The world in which the request is issued. *)
Lemma dispatch_request_world nid w node :
  nodes w !! nid = Some node →
  ∃ w2,
    (assign_captured nid "status" (status_working (selected_action node));;
     emit (EvDirty nid)) w = (Ok tt, w2) ∧
    advances w w2 ∧
    traced (λ e, is_post e = false) w w2 ∧
    dispatch_payload w nid =
      buildPayload w2 (default node (nodes w2 !! nid)) (selected_action node).
Proof.
  intros Hnode. set (action := selected_action node).
  destruct (safe_bind advances
              (assign_captured nid "status" (status_working action))
              (λ _, emit (EvDirty nid))) with (w := w) as ([] & w2 & E & Hadv).
  { eapply safe_advances, safe_assign_captured. }
  { intros _. apply (safe_advances (λ _ _, True) VUndef), safe_emit. }
  exists w2. split_and!; [done|done| |].
  - destruct (safe_bind (traced (λ e, is_post e = false))
              (assign_captured nid "status" (status_working action))
              (λ _, emit (EvDirty nid))) with (w := w) as ([] & w2' & E' & Htr).
    { by apply safe_traced_assign_captured. }
    { intros _. by apply safe_traced_emit. }
    rewrite E in E'. by simplify_eq.
  - unfold dispatch_payload. rewrite Hnode. fold action. unfold exec. by rewrite E.
Qed.

(** A dispatch is the prologue, the request, and then either the [catch]
    block alone, or the statements after the [await] under the [catch]. *)
Lemma sendAction_run fetchApi nid w node :
  nodes w !! nid = Some node →
  ∃ w2,
    (assign_captured nid "status" (status_working (selected_action node));;
     emit (EvDirty nid)) w = (Ok tt, w2) ∧
    sendAction fetchApi nid w =
    let w3 := add_event (EvPost ROUTE_CHAT (dispatch_payload w nid)) w2 in
    match reply_of (fetchApi ROUTE_CHAT (dispatch_payload w nid)) with
    | inl m => on_error nid m w3
    | inr data => try_catch (on_response nid (selected_action node) data) (on_error nid) w3
    end.
Proof.
  intros Hnode. destruct (dispatch_request_world nid w node Hnode) as (w2 & E & _ & _ & Hpay).
  exists w2. split; [done|]. set (action := selected_action node) in *.
  unfold sendAction. rewrite (bind_ok get_world _ w w w) by done. rewrite Hnode.
  fold action. fold (status_working action). unfold try_catch.
  rewrite bind_unfold in E.
  destruct (assign_captured nid "status" (status_working action) w) as [[[]|?] w1] eqn:E1;
    [|done].
  rewrite (bind_ok _ _ _ _ _ E1), (bind_ok _ _ _ _ _ E).
  rewrite (bind_ok get_world _ w2 w2 w2) by done. rewrite <-Hpay.
  rewrite bind_unfold, postJSON_run. cbn zeta.
  by destruct (reply_of _) as [m|data].
Qed.

(** ** What a dispatch always does *)

Lemma filter_post_none (tr : list Event) :
  Forall (λ e, is_post e = false) tr → filter (λ e, is_post e) tr = [].
Proof.
  induction 1 as [|e tr He _ IH]; [done|].
  rewrite filter_cons. destruct (decide (is_post e)) as [H|_]; [|done].
  by rewrite He in H.
Qed.

Lemma sendAction_missing fetchApi nid w :
  nodes w !! nid = None → sendAction fetchApi nid w = (Ok tt, w).
Proof.
  intros Hnode. unfold sendAction. rewrite (bind_ok get_world _ w w w) by done.
  by rewrite Hnode.
Qed.

(** X3.  A dispatch never throws to its caller, whatever the backend does
    and whatever the graph looks like, and it issues exactly one request:
    to the chat route, with the payload built after the status was set to
    "working".  Neither the change callbacks it triggers, nor the
    propagation, nor the [catch] block issue a request. *)
Theorem sendAction_one_request (fetchApi : Backend) (nid : positive) (w : World) :
  result (sendAction fetchApi nid) w = Ok tt ∧
  filter (λ e, is_post e) (new_events w (exec (sendAction fetchApi nid) w)) =
    match nodes w !! nid with
    | Some _ => [EvPost ROUTE_CHAT (dispatch_payload w nid)]
    | None => []
    end.
Proof.
  destruct (nodes w !! nid) as [node|] eqn:Hnode.
  2:{ unfold result, exec. rewrite sendAction_missing by done. simpl.
      split; [done|]. unfold new_events. by rewrite drop_all. }
  destruct (dispatch_request_world nid w node Hnode) as (w2 & E & _ & (tr1 & T1 & F1) & _).
  destruct (sendAction_run fetchApi nid w node Hnode) as (w2' & E' & Hrun).
  assert (w2' = w2) as -> by congruence. clear E'. cbn zeta in Hrun.
  set (w3 := add_event (EvPost ROUTE_CHAT (dispatch_payload w nid)) w2) in *.
  set (P := λ e, is_post e = false).
  assert (∃ w', sendAction fetchApi nid w = (Ok tt, w') ∧ traced P w3 w')
    as (w' & Ew' & tr3 & T3 & F3).
  { rewrite Hrun. destruct (reply_of _) as [m|data].
    - destruct (safe_traced_on_error P (λ _ H, H) nid m w3) as ([] & w' & Ew' & Htr). eauto.
    - unfold try_catch.
      pose proof (runs_traced_on_response P (λ _ H, H) nid (selected_action node) data w3) as Hr.
      unfold exec in Hr.
      destruct (on_response nid (selected_action node) data w3) as [[[]|m] w4]; cbn [snd] in Hr.
      + eauto.
      + destruct (safe_traced_on_error P (λ _ H, H) nid m w4) as ([] & w' & Ew' & Htr).
        exists w'. split; [done|]. by etrans. }
  unfold result, exec. rewrite Ew'. simpl. split; [done|].
  erewrite new_events_app.
  2:{ rewrite T3. unfold w3. simpl. rewrite T1. by rewrite <-!(assoc_L (++)). }
  rewrite !filter_app, (filter_post_none tr1), (filter_post_none tr3) by done.
  done.
Qed.

(** The [catch] block, run where the status widget is known. *)
Lemma on_error_run nid m w si wd :
  widget_named w nid "status" = Some (si, wd) →
  on_error nid m w =
  (Ok tt, add_event (EvDirty nid)
            (add_event (EvSet nid si (VStr ("error: " +:+ m)))
               (upd_widget nid si (with_value (VStr ("error: " +:+ m))) w))).
Proof.
  intros Hst. unfold on_error.
  by rewrite (bind_ok _ _ _ _ _ (assign_captured_run nid "status" _ w si _ Hst)).
Qed.

(** A dispatch whose [catch] block runs, in closed form. *)
Lemma sendAction_abort_run fetchApi nid w node si wd m :
  nodes w !! nid = Some node →
  widget_named w nid "status" = Some (si, wd) →
  abort_message (fetchApi ROUTE_CHAT (dispatch_payload w nid)) = Some m →
  let action := selected_action node in
  let failed := VStr ("error: " +:+ m) in
  sendAction fetchApi nid w =
  (Ok tt,
   add_event (EvDirty nid)
     (add_event (EvSet nid si failed)
        (upd_widget nid si (with_value failed)
           (add_event (EvPost ROUTE_CHAT (dispatch_payload w nid))
              (add_event (EvDirty nid)
                 (add_event (EvSet nid si (status_working action))
                    (upd_widget nid si (with_value (status_working action)) w))))))).
Proof.
  intros Hnode Hst Habort action failed.
  destruct (dispatch_prologue nid w node si wd Hnode Hst) as [E _].
  destruct (sendAction_run fetchApi nid w node Hnode) as (w2 & E' & Hrun).
  fold action in E, E'. rewrite E in E'. simplify_eq. cbn zeta in Hrun. rewrite Hrun.
  set (w3 := add_event (EvPost _ _) _).
  assert (widget_named w3 nid "status" = Some (si, with_value (status_working action) wd)) as Hst3.
  { unfold w3. rewrite !widget_named_add_event. rewrite widget_named_upd, Hst by done.
    simpl. by rewrite decide_True. }
  unfold abort_message in Habort.
  destruct (reply_of _) as [m'|[|r h]]; simplify_eq.
  - by rewrite (on_error_run _ _ _ _ _ Hst3).
  - unfold try_catch, on_response.
    rewrite (bind_throw (field_assistant_response JNull) _ w3 null_body_message w3) by done.
    by rewrite (on_error_run _ _ _ _ _ Hst3).
Qed.

Ltac safe_next H :=
  let E := fresh "E" in
  destruct H as ([] & ? & E & ?); rewrite (bind_ok _ _ _ _ _ E); clear E.

(** The statements after the [await] run to their end on a body that is
    not [null], and leave "done" in the status widget. *)
Lemma on_response_done nid action r h w si wd :
  widget_named w nid "status" = Some (si, wd) →
  ∃ w', on_response nid action (JObj r h) w = (Ok tt, w') ∧
        advances w w' ∧
        value_named w' nid "status" = Some (VStr "done").
Proof.
  intros Hst. unfold on_response.
  rewrite (bind_ok (field_assistant_response (JObj r h)) _ w r w) by done.
  pose proof (λ name v, safe_advances _ _ _ (safe_assign_captured nid name v)) as Hassign.
  safe_next (Hassign "assistant_response_preview" (or_empty r) w).
  rewrite (bind_ok (field_readable_history (JObj r h)) _ _ h _) by done.
  match goal with H : advances w ?w0 |- _ => rename w0 into w4; rename H into A4 end.
  safe_next (Hassign "history_preview" (or_empty h) w4).
  match goal with H : advances w4 ?w0 |- _ => rename w0 into w5; rename H into A5 end.
  safe_next (safe_propagateOutput nid 0 (or_empty r) w5).
  match goal with H : advances w5 ?w0 |- _ => rename w0 into w6; rename H into A6 end.
  safe_next (safe_propagateOutput nid 1 (or_empty h) w6).
  match goal with H : advances w6 ?w0 |- _ => rename w0 into w7; rename H into A7 end.
  rewrite (bind_ok get_world _ w7 w7 w7) by done.
  set (clear := bool_decide _ && _).
  assert (safe advances (when clear (setWidgetValue nid "user_message" (VStr "")))) as Hclear.
  { apply safe_when; [apply _|]. eapply safe_advances, safe_setWidgetValue. }
  safe_next (Hclear w7).
  match goal with H : advances w7 ?w0 |- _ => rename w0 into w8; rename H into A8 end.
  assert (advances w w8) as A.
  { etrans; [exact A4|]. etrans; [exact A5|]. etrans; [exact A6|]. by etrans. }
  destruct (widget_named_index _ _ _ _ _ _ (ad_skeleton _ _ A) Hst) as [wd8 Hst8].
  destruct (assign_captured_spec nid "status" (VStr "done") w8 si wd8 Hst8)
    as (w9 & E9 & H9 & V9).
  rewrite (bind_ok _ _ _ _ _ E9).
  exists (add_event (EvDirty nid) w9). split; [done|]. split.
  - etrans; [exact A|]. etrans; [eapply evolves_advances, H9|].
    eapply evolves_advances, (evolves_add_event (λ _ _, True) VUndef).
  - destruct (widget_named_index _ _ _ _ _ _ (ev_skeleton _ _ _ _ H9) Hst8) as [wd9 Hst9].
    assert (widget_named (add_event (EvDirty nid) w9) nid "status" = Some (si, wd9)) as Hst'.
    { by rewrite widget_named_add_event. }
    by rewrite (value_named_at _ _ _ _ _ Hst').
Qed.

(** X4.  A dispatch on a node that has a status widget always settles: the
    status never stays at "working".  It ends at "done" exactly when the
    backend answered with an ok response whose body parsed to something
    other than [null]; otherwise it ends at "error: " followed by the
    message of the transport error, the body text of the failed response,
    the message of the parse error, or the [TypeError] of reading the reply
    off [null].  This holds on any graph, feedback links included. *)
Theorem dispatch_settles (w : World) (fetchApi : Backend) (nid : positive)
    (node : Node) (si : nat) (wd : Widget)
    (Hnode : nodes w !! nid = Some node)
    (Hstatus : widget_named w nid "status" = Some (si, wd)) :
  value_named (exec (sendAction fetchApi nid) w) nid "status" =
  Some (final_status (fetchApi ROUTE_CHAT (dispatch_payload w nid))).
Proof.
  unfold final_status.
  destruct (abort_message _) as [m|] eqn:Habort.
  - unfold exec. rewrite (sendAction_abort_run _ _ _ _ _ _ _ Hnode Hstatus Habort).
    cbn [snd]. unfold value_named. peel. rewrite Hstatus. simpl.
    by rewrite !decide_True.
  - destruct (dispatch_prologue nid w node si wd Hnode Hstatus) as [E _].
    destruct (sendAction_run fetchApi nid w node Hnode) as (w2 & E' & Hrun).
    rewrite E in E'. simplify_eq. cbn zeta in Hrun.
    unfold exec. rewrite Hrun. clear Hrun.
    set (w3 := add_event (EvPost _ _) _).
    assert (∃ wd3, widget_named w3 nid "status" = Some (si, wd3)) as [wd3 Hst3].
    { eexists. unfold w3. rewrite !widget_named_add_event.
      rewrite widget_named_upd, Hstatus by done. done. }
    unfold abort_message in Habort.
    destruct (reply_of _) as [m'|[|r h]]; simplify_eq.
    destruct (on_response_done nid (selected_action node) r h w3 si wd3 Hst3)
      as (w' & Ew' & _ & V).
    unfold try_catch. by rewrite Ew'.
Qed.

Lemma dispatch_settles_witness :
  value_named (exec (sendAction Backends.fine 1) Examples.studio) 1 "status" =
    Some (VStr "done") ∧
  value_named (exec (sendAction Backends.boom 1) Examples.studio) 1 "status" =
    Some (VStr "error: boom") ∧
  value_named (exec (sendAction Hollow.null 1) Echo.page) 1 "status" =
    Some (VStr "error: Cannot read properties of null (reading 'assistant_response')").
Proof.
  split_and!.
  - by rewrite (dispatch_settles Examples.studio Backends.fine 1 Examples.chat_node 3
                  (mkWidget "status" (VStr "idle") (CbHost 0) None)).
  - by rewrite (dispatch_settles Examples.studio Backends.boom 1 Examples.chat_node 3
                  (mkWidget "status" (VStr "idle") (CbHost 0) None)).
  - by rewrite (dispatch_settles Echo.page Hollow.null 1 Echo.chat 1
                  (mkWidget "status" (VStr "idle") CbAbsent None)).
Defined.

(** X5.  When the backend answers with an ok response whose body is the
    JSON value [null], the dispatch is reported as failed although the HTTP
    call succeeded: the only events are the two raw status writes, their
    redraws and the request; no widget other than the status widget
    changes, so the caches keep what they held and nothing is propagated;
    timers, modal and links are untouched. *)
Theorem dispatch_null_body (w : World) (fetchApi : Backend) (nid : positive)
    (node : Node) (si : nat) (wd : Widget) (text : string)
    (Hnode : nodes w !! nid = Some node)
    (Hstatus : widget_named w nid "status" = Some (si, wd))
    (Hnull : fetchApi ROUTE_CHAT (dispatch_payload w nid) = HttpResponse true text (inr JNull)) :
  let w' := exec (sendAction fetchApi nid) w in
  new_events w w' =
    [EvSet nid si (status_working (selected_action node));
     EvDirty nid;
     EvPost ROUTE_CHAT (dispatch_payload w nid);
     EvSet nid si (VStr ("error: " +:+ null_body_message));
     EvDirty nid] ∧
  (∀ n i, (n, i) ≠ (nid, si) → widget_at w' n i = widget_at w n i) ∧
  timers w' = timers w ∧
  historyModal w' = historyModal w ∧
  links w' = links w.
Proof.
  intros w'. subst w'. unfold exec.
  rewrite (sendAction_abort_run _ _ _ _ _ _ null_body_message Hnode Hstatus).
  2:{ unfold abort_message. by rewrite Hnull. }
  cbn [snd]. split_and!; try done.
  - apply new_events_app. simpl. by rewrite <-!(assoc_L (++)).
  - intros n i Hne. peel.
    assert (¬ (nid = n ∧ si = i)) as Hni by (intros [-> ->]; by apply Hne).
    by rewrite !decide_False.
Qed.

Lemma dispatch_null_body_witness :
  let w' := exec (sendAction Hollow.null 1) Examples.studio in
  value_at w' 1 4 = Some (VStr "") ∧
  value_at w' 3 0 = Some (VStr "old") ∧
  timers w' = [].
Proof.
  destruct (dispatch_null_body Examples.studio Hollow.null 1 Examples.chat_node 3
              (mkWidget "status" (VStr "idle") (CbHost 0) None) "null")
    as (_ & Hw & Ht & _); [done..|].
  cbn zeta. unfold value_at. rewrite !Hw by done. by rewrite Ht.
Defined.

(** ** A failed dispatch can be repeated *)

Lemma selected_action_status v si node wd :
  (n_widgets node ≫= (.!! si)) = Some wd →
  w_name wd = "status" →
  selected_action (alter_widgets (alter (with_value v) si) node) = selected_action node.
Proof.
  intros Hat Hname. unfold selected_action, alter_widgets. simpl.
  destruct (n_widgets node) as [ws|]; simplify_eq/=.
  rewrite find_widget_alter by done.
  destruct (find_widget "action" ws) as [[j wdj]|] eqn:Hj; simpl; [|done].
  case_decide as Hji; [|done]. subst j.
  apply list_find_Some in Hj as (Hj & Hn & _). congruence.
Qed.

Lemma dispatch_payload_add_event e w nid :
  dispatch_payload (add_event e w) nid = dispatch_payload w nid.
Proof.
  destruct (nodes w !! nid) as [node|] eqn:Hnode.
  - by rewrite (dispatch_payload_eq (add_event e w) nid node),
               (dispatch_payload_eq w nid node).
  - unfold dispatch_payload. simpl. by rewrite Hnode.
Qed.

Lemma dispatch_payload_status v w nid node si wd :
  nodes w !! nid = Some node →
  widget_named w nid "status" = Some (si, wd) →
  dispatch_payload (upd_widget nid si (with_value v) w) nid = dispatch_payload w nid.
Proof.
  intros Hnode Hst.
  destruct (widget_named_at _ _ _ _ _ Hst) as [Hat Hname].
  assert (nodes (upd_widget nid si (with_value v) w) !! nid =
          Some (alter_widgets (alter (with_value v) si) node)) as Hn'.
  { unfold upd_widget, set_nodes. simpl. by rewrite lookup_alter_eq, Hnode. }
  rewrite (dispatch_payload_eq _ _ _ Hn'), (dispatch_payload_eq _ _ _ Hnode).
  unfold widget_at in Hat. rewrite Hnode in Hat. simpl in Hat.
  rewrite (selected_action_status v si node wd) by done.
  rewrite !buildPayload_unfold.
  rewrite (getLLMConfig_upd nid si _ w node _ wd); try done.
  2:{ unfold widget_at. by rewrite Hnode. }
  2:{ rewrite Hname. by_compute. }
  assert (widget_payload (alter_widgets (alter (with_value v) si) node) (selected_action node)
          = widget_payload node (selected_action node)) as ->; [|done].
  unfold widget_payload, alter_widgets. simpl. f_equal.
  destruct (n_widgets node) as [ws|]; simplify_eq/=.
  apply (copy_widgets_alter _ _ _ wd); [done| |done].
  rewrite Hname. by_compute.
Qed.

(** X6.  After a dispatch that ended in its [catch] block, a second
    dispatch on the same node would send the same request body: the status
    widget, the only thing the failure changed, is not part of the body and
    is not read by the configuration resolver, even when the node is its
    own configuration source. *)
Theorem failed_dispatch_repeats (w : World) (fetchApi : Backend) (nid : positive)
    (node : Node) (si : nat) (wd : Widget) (m : string)
    (Hnode : nodes w !! nid = Some node)
    (Hstatus : widget_named w nid "status" = Some (si, wd))
    (Habort : abort_message (fetchApi ROUTE_CHAT (dispatch_payload w nid)) = Some m) :
  dispatch_payload (exec (sendAction fetchApi nid) w) nid = dispatch_payload w nid.
Proof.
  unfold exec. rewrite (sendAction_abort_run _ _ _ _ _ _ _ Hnode Hstatus Habort). cbn [snd].
  set (w1 := upd_widget nid si (with_value (status_working (selected_action node))) w).
  assert (∃ node1 wd1, nodes w1 !! nid = Some node1 ∧
                       widget_named w1 nid "status" = Some (si, wd1))
    as (node1 & wd1 & Hnode1 & Hst1).
  { eexists _, _. split.
    - unfold w1, upd_widget, set_nodes. simpl. by rewrite lookup_alter_eq, Hnode.
    - unfold w1. rewrite widget_named_upd, Hstatus by done. done. }
  rewrite !dispatch_payload_add_event.
  rewrite (dispatch_payload_status _ _ nid node1 si wd1); [|done|].
  2:{ by rewrite !widget_named_add_event. }
  rewrite !dispatch_payload_add_event.
  by apply (dispatch_payload_status _ _ _ node _ wd).
Qed.

Lemma failed_dispatch_repeats_witness :
  dispatch_payload (exec (sendAction Backends.boom 1) Examples.studio) 1 =
  dispatch_payload Examples.studio 1.
Proof.
  by apply (failed_dispatch_repeats Examples.studio Backends.boom 1 Examples.chat_node 3
              (mkWidget "status" (VStr "idle") (CbHost 0) None) "boom").
Defined.

(** ** Change callbacks, event by event *)

Lemma new_timers_app w w' ts : timers w' = (timers w ++ ts)%list → new_timers w w' = ts.
Proof. intros E. unfold new_timers. by rewrite E, drop_app_length. Qed.

Lemma reopen_effects arg w :
  trace (reopen arg w) = trace w ∧
  modal_open (reopen arg w) = modal_open w ∧
  skeleton (reopen arg w) = skeleton w ∧
  timers (reopen arg w) =
    (timers w ++ if modal_open w then [(0, ScrollModalToBottom)] else [])%list.
Proof.
  unfold reopen, modal_open. destruct (historyModal w) as [m|] eqn:Hm.
  - case_bool_decide; simpl; rewrite ?Hm, ?app_nil_r; split_and!; try done.
    apply bool_decide_eq_false_2. intros Hn. by apply Hn.
  - rewrite ?Hm, ?app_nil_r. by split_and!.
Qed.

Lemma mirror_input_effects nid wi arg w :
  trace (mirror_input nid wi arg w) = trace w ∧
  modal_open (mirror_input nid wi arg w) = modal_open w ∧
  skeleton (mirror_input nid wi arg w) = skeleton w.
Proof.
  unfold mirror_input. destruct (widget_at w nid wi ≫= w_inputEl) as [el|]; [|done].
  case_bool_decide; [|done]. split_and!; [done..|].
  apply skeleton_upd, erase_with_el_value.
Qed.

Lemma run_callback_run cb nid wi arg w :
  ∃ w', run_callback cb nid wi arg w = (Ok tt, w') ∧
        skeleton w' = skeleton w ∧
        modal_open w' = modal_open w ∧
        trace w' = (trace w ++ host_events cb arg)%list ∧
        timers w' = (timers w ++ scroll_timers (modal_open w) nid wi cb)%list.
Proof.
  revert w. induction cb as [|k|original IH]; intros w.
  - exists w. by rewrite !app_nil_r.
  - exists (add_event (EvHost k arg) w). by rewrite app_nil_r.
  - rewrite run_viewer.
    assert (∃ w1, when (cb_truthy original) (run_callback original nid wi arg) w = (Ok tt, w1) ∧
                  skeleton w1 = skeleton w ∧
                  modal_open w1 = modal_open w ∧
                  trace w1 = (trace w ++ host_events original arg)%list ∧
                  timers w1 = (timers w ++ scroll_timers (modal_open w) nid wi original)%list)
      as (w1 & E1 & S1 & O1 & T1 & Q1).
    { destruct original; simpl; [exists w; by rewrite !app_nil_r|apply IH..]. }
    rewrite E1. eexists. split; [done|].
    destruct (mirror_input_effects nid wi arg w1) as (Tm & Om & Sm).
    destruct (mirror_input_modal nid wi arg w1) as (_ & _ & _ & Qm).
    destruct (reopen_effects (or_empty arg) (mirror_input nid wi arg w1)) as (Tr & Or & Sr & Qr).
    split_and!.
    + change (skeleton (add_timer ?d ?t ?w0)) with (skeleton w0). congruence.
    + change (modal_open (add_timer ?d ?t ?w0)) with (modal_open w0). congruence.
    + change (trace (add_timer ?d ?t ?w0)) with (trace w0). simpl. congruence.
    + simpl. rewrite Qr, Om, Qm, Q1, O1. by rewrite <-!(assoc_L (++)).
Qed.

(** X7.  Firing a change callback on a widget never throws and never opens
    or closes the modal.  A host callback is reached at most once, with the
    argument of the call, however many times [setupHistoryViewer] wrapped
    it; but every wrapping does its own work again: the timer queue gains,
    per wrapping, one scroll of the backing element, preceded by one scroll
    of the modal when the modal is open. *)
Theorem run_callback_effects (cb : Callback) (nid : positive) (wi : nat) (arg : JsVal)
    (w : World) :
  let w' := exec (run_callback cb nid wi arg) w in
  result (run_callback cb nid wi arg) w = Ok tt ∧
  modal_open w' = modal_open w ∧
  new_events w w' = host_events cb arg ∧
  (length (host_events cb arg) ≤ 1)%nat ∧
  new_timers w w' = scroll_timers (modal_open w) nid wi cb ∧
  length (filter (λ t, is_input_scroll t) (new_timers w w')) = viewer_depth cb.
Proof.
  destruct (run_callback_run cb nid wi arg w) as (w' & E & _ & Ho & Ht & Hq).
  unfold result, exec. rewrite E. simpl.
  rewrite (new_events_app _ _ _ Ht), (new_timers_app _ _ _ Hq).
  split_and!; try done.
  - clear. induction cb; simpl; lia.
  - clear. induction cb as [| |original IH]; [done..|]. simpl.
    rewrite !filter_app, !length_app, IH.
    destruct (modal_open w); simpl; lia.
Qed.

(** ** Notified assignments, event by event *)

Lemma assign_notify_run nid wi v arg cb w :
  ∃ w', (write_value nid wi v;;
         when (cb_truthy cb) (invoke_onChange cb nid wi arg);;
         emit (EvDirty nid)) w = (Ok tt, w') ∧
        skeleton w' = skeleton w ∧
        modal_open w' = modal_open w ∧
        trace w' = (trace w ++ write_events nid wi v arg cb)%list.
Proof.
  rewrite (bind_ok _ _ _ _ _ (write_value_run nid wi v w)).
  set (w1 := add_event _ _).
  assert (skeleton w1 = skeleton w) as Hsk1 by (by apply skeleton_upd).
  unfold write_events. destruct (cb_truthy cb); simpl.
  - unfold invoke_onChange.
    destruct (run_callback_run cb nid wi arg (add_event (EvChange nid wi arg) w1))
      as (w2 & E2 & S2 & O2 & T2 & _).
    rewrite (bind_ok (emit (EvChange nid wi arg) ≫= _) _ w1 tt w2).
    2:{ by rewrite (bind_ok (emit _) _ w1 tt (add_event (EvChange nid wi arg) w1)). }
    eexists. split; [done|]. split_and!.
    + by rewrite skeleton_add_event, S2.
    + change (modal_open (add_event ?e ?w0)) with (modal_open w0). by rewrite O2.
    + simpl. rewrite T2. simpl. by rewrite <-!(assoc_L (++)).
  - eexists. split; [done|]. split_and!; [done..|]. simpl. by rewrite <-!(assoc_L (++)).
Qed.

Lemma setWidgetValue_run nid name v w i wd :
  widget_named w nid name = Some (i, wd) →
  setWidgetValue nid name v w =
  (write_value nid i (nullish_empty v);;
   when (cb_truthy (w_onChange wd)) (invoke_onChange (w_onChange wd) nid i v);;
   emit (EvDirty nid)) w.
Proof.
  intros Hn. unfold setWidgetValue. rewrite (bind_ok get_world _ w w w) by done.
  unfold widget_named in Hn.
  destruct (nodes w !! nid) as [node|]; simplify_eq/=.
  destruct (n_widgets node) as [ws|]; simplify_eq/=. by rewrite Hn.
Qed.

(** X8.  [setWidgetValue] on a node that has a widget of the given name
    changes the first widget of that name and no other widget of any node:
    the widget ends up holding the value, with [null] and [undefined]
    replaced by the empty string, while its change callback, if it has one,
    is called once with the value as it was passed, before the redraw.
    When the node has no widget of that name, nothing at all happens. *)
Theorem setWidgetValue_effect (nid : positive) (name : string) (v : JsVal) (w : World) :
  let w' := exec (setWidgetValue nid name v) w in
  result (setWidgetValue nid name v) w = Ok tt ∧
  match widget_named w nid name with
  | Some (i, wd) =>
      value_at w' nid i = Some (nullish_empty v) ∧
      (∀ n j, (n, j) ≠ (nid, i) → widget_at w' n j = widget_at w n j) ∧
      new_events w w' = write_events nid i (nullish_empty v) v (w_onChange wd)
  | None => w' = w
  end.
Proof.
  destruct (widget_named w nid name) as [[i wd]|] eqn:Hn.
  - destruct (setWidgetValue_spec nid name v w i wd Hn) as (w' & E & Hev & Hv).
    unfold result, exec. rewrite E. simpl. split_and!; [done..| |].
    + intros n j Hne. apply (evolves_frame _ _ _ _ _ _ Hev).
      intros [-> ->]. by apply Hne.
    + rewrite (setWidgetValue_run _ _ _ _ _ _ Hn) in E.
      destruct (assign_notify_run nid i (nullish_empty v) v (w_onChange wd) w)
        as (w'' & E'' & _ & _ & Ht).
      rewrite E in E''. simplify_eq. by apply new_events_app.
  - unfold result, exec. by rewrite setWidgetValue_missing.
Qed.

(** ** Propagation, event by event *)

Lemma deliver_events_skeleton w w' v l :
  skeleton w = skeleton w' → deliver_events w v l = deliver_events w' v l.
Proof.
  intros H%(resolve_consumer_skeleton _ _ l). unfold deliver_events.
  destruct (resolve_consumer w l) as [[[t i] wd]|], (resolve_consumer w' l) as [[[t' i'] wd']|];
    simplify_eq/=; [|done].
  destruct wd, wd'. by simplify_eq/=.
Qed.

Lemma deliver_run v l w :
  ∃ w', deliver v l w = (Ok tt, w') ∧
        skeleton w' = skeleton w ∧
        modal_open w' = modal_open w ∧
        trace w' = (trace w ++ deliver_events w v l)%list.
Proof.
  unfold deliver, deliver_events. rewrite (bind_ok get_world _ w w w) by done.
  destruct (resolve_consumer w l) as [[[t i] wd]|].
  - apply assign_notify_run.
  - exists w. by rewrite app_nil_r.
Qed.

Lemma forEach_deliver_run v ls w :
  ∃ w', forEach ls (deliver v) w = (Ok tt, w') ∧
        skeleton w' = skeleton w ∧
        modal_open w' = modal_open w ∧
        trace w' = (trace w ++ (ls ≫= deliver_events w v))%list.
Proof.
  revert w. induction ls as [|l ls IH]; intros w; simpl.
  - exists w. by rewrite app_nil_r.
  - destruct (deliver_run v l w) as (w1 & E1 & S1 & O1 & T1).
    destruct (IH w1) as (w' & E' & S' & O' & T').
    exists w'. rewrite (bind_ok _ _ _ _ _ E1). split_and!; [done|congruence..|].
    rewrite T', T1, <-(assoc_L (++)). do 2 f_equal.
    apply list_bind_ext; [|done]. intros l'. by apply deliver_events_skeleton.
Qed.

(** X9.  [propagateOutput] serves the links of the slot in the order of
    the list, each link that resolves to a consumer widget exactly once: a
    consumer that two links reach, or a link id listed twice, is written
    and notified twice.  Each delivery is logged as the write, then the
    change callback if the widget has one, then the redraw of the target
    node; unresolvable links leave no event; and the modal is neither
    opened nor closed. *)
Theorem propagateOutput_trace (nid : positive) (slotIndex : nat) (v : JsVal) (w : World) :
  let w' := exec (propagateOutput nid slotIndex v) w in
  new_events w w' = propagate_events w nid slotIndex v ∧
  modal_open w' = modal_open w.
Proof.
  unfold exec, propagateOutput, propagate_events.
  rewrite (bind_ok get_world _ w w w) by done.
  destruct (output_links w nid slotIndex) as [ls|]; simpl.
  - destruct (forEach_deliver_run v ls w) as (w' & E & _ & Ho & Ht).
    rewrite E. simpl. split; [by apply new_events_app|done].
  - split; [|done]. unfold new_events. by rewrite drop_all.
Qed.

(** ** Setup only appends *)

#[global] Instance grows_preorder nid : PreOrder (grows nid).
Proof.
  split.
  - intros w. split; try done. intros n node Hn. by exists node.
  - intros w1 w2 w3 [W1 P1 A1 O1 L1 T1 M1 B1 Q1] [W2 P2 A2 O2 L2 T2 M2 B2 Q2].
    split; try congruence.
    + auto.
    + intros n node Hn. destruct (P1 n node Hn) as (node' & Hn' & Hi & Ho).
      destruct (P2 n node' Hn') as (node'' & Hn'' & Hi' & Ho').
      exists node''. split_and!; congruence.
    + auto.
    + intros n Hn. by rewrite O2, O1.
    + by etrans.
Qed.







(** ** Setting a chat node up twice *)

Lemma addOrGetWidget_keeps nid name v w name' p :
  widget_named w nid name' = Some p →
  widget_named (exec (addOrGetWidget nid name v) w) nid name' = Some p.
Proof.
  intros Hp. destruct (nodes w !! nid) as [node|] eqn:Hn.
  - by apply (addOrGetWidget_ensures nid name v w node Hn).
  - unfold widget_named in Hp. by rewrite Hn in Hp.
Qed.

Lemma addOrGetWidget_value nid name v w node :
  nodes w !! nid = Some node →
  value_named (exec (addOrGetWidget nid name v) w) nid name =
  Some (default v (value_named w nid name)).
Proof.
  intros Hnode. unfold value_named.
  destruct (widget_named w nid name) as [p|] eqn:Hn.
  - by rewrite (addOrGetWidget_found _ _ _ _ _ Hn), Hn.
  - rewrite (addOrGetWidget_missing _ _ _ _ Hn).
    by rewrite (widget_named_addWidget _ _ _ _ _ _ Hnode), Hn, decide_True.
Qed.

Lemma addOrGetWidget_timers nid name v w :
  timers (exec (addOrGetWidget nid name v) w) = timers w.
Proof.
  unfold exec, addOrGetWidget. rewrite (bind_ok get_world _ w w w) by done.
  by destruct (widget_named w nid name).
Qed.

(** [setupChatNode] as the composition of its five steps. *)
Lemma setupChatNode_run nid w :
  setupChatNode nid w =
  (Ok tt,
   exec (addOrGetWidget nid "Execute" VNull)
     (add_timer 100 (UpdateWidgetLock nid)
        (exec (addOrGetWidget nid "assistant_response_preview" (VStr ""))
           (exec (addOrGetWidget nid "history_preview" (VStr ""))
              (exec (addOrGetWidget nid "status" (VStr "idle")) w))))).
Proof.
  unfold setupChatNode.
  rewrite (bind_ok _ _ _ _ _ (addOrGetWidget_returns nid "status" _ w)).
  rewrite (bind_ok _ _ _ _ _ (addOrGetWidget_returns nid "history_preview" _ _)).
  rewrite (bind_ok _ _ _ _ _ (addOrGetWidget_returns nid "assistant_response_preview" _ _)).
  rewrite (bind_ok (setTimeout (UpdateWidgetLock nid) 100) _ _ tt _) by done.
  apply addOrGetWidget_returns.
Qed.

Lemma widget_named_add_timer d t w n name :
  widget_named (add_timer d t w) n name = widget_named w n name.
Proof. done. Qed.

(** X11.  On a node of the graph, [setupChatNode] leaves a status widget
    that holds "idle" if it had to be created and what it held otherwise,
    the two caches and the Execute button, and schedules one update of the
    widget lock.  Run a second time it adds no widget and changes no node:
    all it does is to schedule another update of the lock. *)
Theorem setupChatNode_idempotent (nid : positive) (w : World) (node : Node)
    (Hnode : nodes w !! nid = Some node) :
  let w1 := exec (setupChatNode nid) w in
  let w2 := exec (setupChatNode nid) w1 in
  value_named w1 nid "status" = Some (default (VStr "idle") (value_named w nid "status")) ∧
  is_Some (widget_named w1 nid "history_preview") ∧
  is_Some (widget_named w1 nid "assistant_response_preview") ∧
  is_Some (widget_named w1 nid "Execute") ∧
  new_timers w w1 = [(100, UpdateWidgetLock nid)] ∧
  nodes w2 = nodes w1 ∧
  new_timers w1 w2 = [(100, UpdateWidgetLock nid)].
Proof.
  intros w1 w2.
  assert (w1 = exec (addOrGetWidget nid "Execute" VNull)
     (add_timer 100 (UpdateWidgetLock nid)
        (exec (addOrGetWidget nid "assistant_response_preview" (VStr ""))
           (exec (addOrGetWidget nid "history_preview" (VStr ""))
              (exec (addOrGetWidget nid "status" (VStr "idle")) w))))) as Hw1.
  { unfold w1, exec at 1. by rewrite setupChatNode_run. }
  set (wa := exec (addOrGetWidget nid "status" (VStr "idle")) w) in *.
  set (wb := exec (addOrGetWidget nid "history_preview" (VStr "")) wa) in *.
  set (wc := exec (addOrGetWidget nid "assistant_response_preview" (VStr "")) wb) in *.
  set (wd := add_timer 100 (UpdateWidgetLock nid) wc) in *.
  destruct (addOrGetWidget_ensures nid "status" (VStr "idle") w node Hnode)
    as ([na Hna] & [ps Hs] & _ & _). fold wa in Hna, Hs.
  destruct (addOrGetWidget_ensures nid "history_preview" (VStr "") wa na Hna)
    as ([nb Hnb] & [ph Hh] & _ & _). fold wb in Hnb, Hh.
  destruct (addOrGetWidget_ensures nid "assistant_response_preview" (VStr "") wb nb Hnb)
    as ([nc Hnc] & [pr Hr] & _ & _). fold wc in Hnc, Hr.
  destruct (addOrGetWidget_ensures nid "Execute" VNull wd nc Hnc)
    as (_ & [pe He] & _ & _). rewrite <-Hw1 in He.
  assert (widget_named w1 nid "status" = Some ps) as Hs1.
  { rewrite Hw1. apply addOrGetWidget_keeps. unfold wd. rewrite widget_named_add_timer.
    by do 2 apply addOrGetWidget_keeps. }
  assert (widget_named w1 nid "history_preview" = Some ph) as Hh1.
  { rewrite Hw1. apply addOrGetWidget_keeps. unfold wd. rewrite widget_named_add_timer.
    by apply addOrGetWidget_keeps. }
  assert (widget_named w1 nid "assistant_response_preview" = Some pr) as Hr1.
  { rewrite Hw1. by apply addOrGetWidget_keeps. }
  assert (timers w1 = (timers w ++ [(100, UpdateWidgetLock nid)])%list) as Ht1.
  { rewrite Hw1, addOrGetWidget_timers. unfold wd. simpl. unfold wc, wb, wa.
    by rewrite !addOrGetWidget_timers. }
  assert (w2 = add_timer 100 (UpdateWidgetLock nid) w1) as Hw2.
  { unfold w2, exec at 1. rewrite setupChatNode_run. cbn [snd].
    rewrite (addOrGetWidget_found _ "status" _ _ _ Hs1).
    rewrite (addOrGetWidget_found _ "history_preview" _ _ _ Hh1).
    rewrite (addOrGetWidget_found _ "assistant_response_preview" _ _ _ Hr1).
    by apply (addOrGetWidget_found _ _ _ _ pe). }
  split_and!.
  - pose proof (addOrGetWidget_value nid "status" (VStr "idle") w node Hnode) as Hv.
    fold wa in Hv. rewrite <-Hv. unfold value_named. by rewrite Hs1, Hs.
  - by eexists.
  - by eexists.
  - by eexists.
  - by apply new_timers_app.
  - by rewrite Hw2.
  - apply new_timers_app. by rewrite Hw2.
Qed.

Lemma setupChatNode_idempotent_witness :
  let w1 := exec (setupChatNode 1) Fresh.page in
  value_named w1 1 "status" = Some (VStr "idle") ∧
  nodes (exec (setupChatNode 1) w1) = nodes w1.
Proof.
  destruct (setupChatNode_idempotent 1 Fresh.page Fresh.chat) as (Hs & _ & _ & _ & _ & Hn & _);
    [done|].
  split; [exact Hs|exact Hn].
Defined.

(** ** Setting a viewer up more than once *)





(** ** The widget lock *)




(** ** The page under user events *)

Lemma sendAction_returns fetchApi nid w :
  ∃ w', sendAction fetchApi nid w = (Ok tt, w').
Proof.
  destruct (nodes w !! nid) as [node|] eqn:Hnode.
  2:{ exists w. by apply sendAction_missing. }
  destruct (sendAction_run fetchApi nid w node Hnode) as (w2 & _ & Hrun).
  cbn zeta in Hrun. rewrite Hrun.
  set (w3 := add_event _ w2).
  assert (∀ m w0, ∃ w', on_error nid m w0 = (Ok tt, w')) as Herr.
  { intros m w0.
    destruct (safe_traced_on_error (λ _, True) (λ _ _, I) nid m w0) as ([] & w' & E & _).
    by exists w'. }
  destruct (reply_of _) as [m|data]; [apply Herr|].
  unfold try_catch.
  destruct (on_response nid (selected_action node) data w3) as [[[]|m] w4]; [by eexists|].
  apply Herr.
Qed.

Lemma handle_returns e w : ∃ w', handle e w = (Ok tt, w').
Proof.
  destruct e as [nid| |fetchApi nid]; simpl.
  - unfold clickOpenHistory. rewrite (bind_ok get_world _ w w w) by done.
    destruct (widget_named w nid "history") as [[i wd]|]; [|by eexists].
    destruct (safe_openHistoryModal (λ _ _, True) VUndef (getHistoryText wd) w)
      as ([] & w' & E & _).
    by exists w'.
  - by eexists.
  - apply sendAction_returns.
Qed.

Lemma forEach_handle_run events w :
  ∃ w', forEach events handle w = (Ok tt, w') ∧ advances w w'.
Proof.
  revert w. induction events as [|e events IH]; intros w; simpl.
  - exists w. split; [done|reflexivity].
  - destruct (handle_returns e w) as [w1 E1].
    pose proof (runs_handle e w) as A1. unfold exec in A1. rewrite E1 in A1.
    destruct (IH w1) as (w' & E' & A').
    exists w'. rewrite (bind_ok _ _ _ _ _ E1). split; [done|by etrans].
Qed.

(** X14.  No sequence of user events (pressing Open History, dismissing
    the modal, pressing Execute with any answer of the backend) makes a
    handler throw, and none changes the shape of the graph: nodes, widget
    names and order, change callbacks, inputs, outputs and links stay as
    they are, only values move; the trace and the timer queue only grow;
    and on a page that respects the singleton discipline of the modal the
    number of key listeners stays equal to the number of overlays. *)
Theorem ui_events_keep_shape (events : list UiEvent) (w : World) :
  let w' := exec (forEach events handle) w in
  result (forEach events handle) w = Ok tt ∧
  skeleton w' = skeleton w ∧
  trace w `prefix_of` trace w' ∧
  timers w `prefix_of` timers w' ∧
  (modal_inv w → keydown_listeners w' = length (document_body w')).
Proof.
  destruct (forEach_handle_run events w) as (w' & E & [S T Q Mi O B]).
  unfold result, exec. rewrite E. simpl. split_and!; try done.
  intros Hinv. specialize (Mi Hinv). unfold modal_inv in Mi.
  destruct (historyModal w') as [m|]; destruct Mi as [-> ->]; done.
Qed.

(** X15.  Closing after opening: the modal is open after
    [openHistoryModal] and closed after [closeHistoryModal], which hides
    the overlay without removing it, keeps the text, the overlay element
    and the key listener, and is idempotent; and closing a modal that was
    never opened creates nothing. *)
Theorem close_after_open (text : JsVal) (w : World) :
  let w1 := exec (openHistoryModal text) w in
  let w2 := exec closeHistoryModal w1 in
  result isHistoryModalOpen w1 = Ok true ∧
  result isHistoryModalOpen w2 = Ok false ∧
  historyModal w2 = with_display "none" <$> historyModal w1 ∧
  content_text <$> historyModal w2 = Some (to_string (or_empty text)) ∧
  document_body w2 = document_body w1 ∧
  keydown_listeners w2 = keydown_listeners w1 ∧
  exec closeHistoryModal w2 = w2 ∧
  (historyModal w = None → exec closeHistoryModal w = w).
Proof.
  intros w1 w2. subst w1 w2.
  assert (∃ m1, historyModal (exec (openHistoryModal text) w) = Some m1 ∧
                overlay_display m1 = "flex" ∧
                content_text m1 = to_string (or_empty text)) as (m1 & Hm1 & Hd & Hc).
  { unfold exec. destruct (historyModal w) as [m|] eqn:Hm.
    - rewrite (openHistoryModal_reused _ _ _ Hm). cbn [snd]. by eexists.
    - rewrite (openHistoryModal_created _ _ Hm). cbn [snd]. by eexists. }
  set (w1 := exec (openHistoryModal text) w) in *.
  unfold result, exec, isHistoryModalOpen, closeHistoryModal, update_modal, modify.
  rewrite !(bind_ok get_world _ _ _ _ eq_refl). cbn [fst snd mret M_ret ret].
  unfold modal_open. simpl. rewrite Hm1. simpl. rewrite Hd.
  split_and!; try done.
  - by rewrite Hc.
  - intros Hm. rewrite Hm. destruct w. simpl in Hm. by subst.
Qed.

(** ** From a dispatch to the viewer *)

Lemma assign_captured_local nid name v w :
  ∃ w', assign_captured nid name v w = (Ok tt, w') ∧
        evolves (λ n' _, n' = nid) v w w'.
Proof.
  destruct (widget_named w nid name) as [[i wd]|] eqn:Hn.
  - destruct (assign_captured_spec nid name v w i wd Hn) as (w' & E & Hev & _).
    exists w'. split; [done|]. eapply evolves_mono; [|exact Hev]. by intros n' i' [-> _].
  - exists w. split; [|reflexivity]. unfold assign_captured.
    rewrite (bind_ok get_world _ w w w) by done. by rewrite Hn.
Qed.

Lemma setWidgetValue_local nid name v w :
  ∃ w', setWidgetValue nid name v w = (Ok tt, w') ∧
        evolves (λ n' _, n' = nid) (nullish_empty v) w w'.
Proof.
  destruct (widget_named w nid name) as [[i wd]|] eqn:Hn.
  - destruct (setWidgetValue_spec nid name v w i wd Hn) as (w' & E & Hev & _).
    exists w'. split; [done|]. eapply evolves_mono; [|exact Hev]. by intros n' i' [-> _].
  - exists w. split; [by apply setWidgetValue_missing|reflexivity].
Qed.

(** Whatever the chat node's own widgets are, the consumers of slot 1 on
    other nodes hold the transcript when the response has been handled. *)
Lemma on_response_downstream nid action r h w vn vi :
  slot_consumer w nid 1 vn vi → vn ≠ nid →
  ∃ w', on_response nid action (JObj r h) w = (Ok tt, w') ∧
        advances w w' ∧
        value_at w' vn vi = Some (or_empty h).
Proof.
  intros Hc Hne. unfold on_response.
  rewrite (bind_ok (field_assistant_response (JObj r h)) _ w r w) by done.
  destruct (assign_captured_local nid "assistant_response_preview" (or_empty r) w)
    as (w4 & E4 & H4).
  rewrite (bind_ok _ _ _ _ _ E4).
  rewrite (bind_ok (field_readable_history (JObj r h)) _ w4 h w4) by done.
  destruct (assign_captured_local nid "history_preview" (or_empty h) w4) as (w5 & E5 & H5).
  rewrite (bind_ok _ _ _ _ _ E5).
  destruct (propagateOutput_spec nid 0 (or_empty r) w5) as (w6 & E6 & H6 & _).
  rewrite (bind_ok _ _ _ _ _ E6).
  destruct (propagateOutput_spec nid 1 (or_empty h) w6) as (w7 & E7 & H7 & V7).
  rewrite (bind_ok _ _ _ _ _ E7).
  assert (skeleton w6 = skeleton w) as S6.
  { rewrite (ev_skeleton _ _ _ _ H6), (ev_skeleton _ _ _ _ H5). apply H4. }
  rewrite (bind_ok get_world _ w7 w7 w7) by done.
  set (clear := bool_decide _ && _).
  assert (∃ w8, when clear (setWidgetValue nid "user_message" (VStr "")) w7 = (Ok tt, w8) ∧
                evolves (λ n' _, n' = nid) (VStr "") w7 w8) as (w8 & E8 & H8).
  { destruct clear; simpl.
    - apply (setWidgetValue_local nid "user_message" (VStr "")).
    - exists w7. split; [done|reflexivity]. }
  rewrite (bind_ok _ _ _ _ _ E8).
  destruct (assign_captured_local nid "status" (VStr "done") w8) as (w9 & E9 & H9).
  rewrite (bind_ok _ _ _ _ _ E9).
  exists (add_event (EvDirty nid) w9). split; [done|]. split.
  - etrans; [eapply evolves_advances, H4|]. etrans; [eapply evolves_advances, H5|].
    etrans; [eapply evolves_advances, H6|]. etrans; [eapply evolves_advances, H7|].
    etrans; [eapply evolves_advances, H8|]. etrans; [eapply evolves_advances, H9|].
    eapply evolves_advances, (evolves_add_event (λ _ _, True) VUndef).
  - change (value_at (add_event ?e ?w0) vn vi) with (value_at w0 vn vi).
    rewrite (evolves_value_frame _ _ _ _ _ _ H9) by done.
    rewrite (evolves_value_frame _ _ _ _ _ _ H8) by done.
    apply V7. by apply (slot_consumer_skeleton _ _ _ _ _ _ S6).
Qed.

Lemma getHistoryText_or_empty wd h :
  w_value wd = or_empty h → to_string (or_empty (getHistoryText wd)) = to_string (or_empty h).
Proof.
  intros Hv.
  assert (getHistoryText wd = or_empty h) as ->.
  { unfold getHistoryText. rewrite Hv. unfold or_empty.
    destruct (truthy h) eqn:Ht; [|done]. by destruct h. }
  f_equal. unfold or_empty. destruct (truthy h) eqn:Ht; [by rewrite Ht|done].
Qed.

(** X16.  From Execute to the viewer: when the backend answers a dispatch
    on node [nid] with a body whose transcript is [h], every widget of
    another node that a link of output slot 1 delivers to holds the
    transcript afterwards (the empty string when [h] is falsy), whether or
    not the chat node has its caches and its status widget, and whatever
    feedback links it has; and if that widget is the [history] widget of
    its node, pressing Open History there shows exactly the transcript. *)
Theorem transcript_reaches_viewer (w : World) (fetchApi : Backend) (nid : positive)
    (node : Node) (vn : positive) (vi : nat) (r h : JsVal)
    (Hnode : nodes w !! nid = Some node)
    (Hreply : backend_replies fetchApi (dispatch_payload w nid) r h)
    (Hlink : slot_consumer w nid 1 vn vi)
    (Hother : vn ≠ nid) :
  let w' := exec (sendAction fetchApi nid) w in
  let w'' := exec (clickOpenHistory vn) w' in
  value_at w' vn vi = Some (or_empty h) ∧
  ((λ p, p.1) <$> widget_named w vn "history" = Some vi →
   content_text <$> historyModal w'' = Some (to_string (or_empty h)) ∧
   modal_open w'' = true).
Proof.
  intros w' w''.
  destruct (dispatch_request_world nid w node Hnode) as (w2 & E2 & A2 & _ & _).
  destruct (sendAction_run fetchApi nid w node Hnode) as (w2' & E2' & Hrun).
  assert (w2' = w2) as -> by congruence. clear E2'. cbn zeta in Hrun.
  destruct Hreply as [text Hreply]. rewrite Hreply in Hrun. cbn [reply_of] in Hrun.
  set (w3 := add_event (EvPost ROUTE_CHAT (dispatch_payload w nid)) w2) in *.
  assert (skeleton w3 = skeleton w) as S3 by apply A2.
  destruct (on_response_downstream nid (selected_action node) r h w3 vn vi)
    as (w4 & E4 & A4 & V4); [by apply (slot_consumer_skeleton _ _ _ _ _ _ S3)|done|].
  unfold try_catch in Hrun. rewrite E4 in Hrun.
  assert (w' = w4) as Hw' by (unfold w', exec; by rewrite Hrun).
  split; [by rewrite Hw'|].
  intros Hhist.
  destruct (widget_named w vn "history") as [[i vwd]|] eqn:Hh; [|done].
  simpl in Hhist. assert (i = vi) as -> by congruence. clear Hhist.
  assert (skeleton w' = skeleton w) as S'.
  { rewrite Hw', (ad_skeleton _ _ A4). exact S3. }
  destruct (widget_named_index _ _ _ _ _ _ S' Hh) as [wd' Hh'].
  destruct (widget_named_at _ _ _ _ _ Hh') as [Hat' _].
  assert (w_value wd' = or_empty h) as Hval.
  { rewrite Hw' in Hat'. unfold value_at in V4. rewrite Hat' in V4. by simplify_eq/=. }
  unfold w'', exec. rewrite (clickOpenHistory_run _ _ _ _ Hh').
  destruct (historyModal w') as [m|] eqn:Hm.
  - rewrite (openHistoryModal_reused _ _ _ Hm). cbn [snd]. simpl.
    by rewrite (getHistoryText_or_empty _ _ Hval).
  - rewrite (openHistoryModal_created _ _ Hm). cbn [snd]. simpl.
    by rewrite (getHistoryText_or_empty _ _ Hval).
Qed.

Lemma transcript_reaches_viewer_witness :
  let w' := exec (sendAction Backends.fine 1) Examples.studio in
  slot_consumer Examples.studio 1 1 2 0 ∧
  value_at w' 2 0 = Some (VStr "H") ∧
  content_text <$> historyModal (exec (clickOpenHistory 2) w') = Some "H".
Proof.
  assert (slot_consumer Examples.studio 1 1 2 0) as Hc.
  { exists [2%positive]. split; [done|].
    exists 2%positive, (mkWidget "history" (VStr "") (CbViewer CbAbsent) (Some (mkInputEl ""))).
    split; [by left|].
    by eexists (mkLink 1 2 0), Examples.viewer_node, _, _, "history", _. }
  destruct (transcript_reaches_viewer Examples.studio Backends.fine 1 Examples.chat_node
              2 0 (VStr "R") (VStr "H")) as (Hv & Ht); [done|by exists ""|exact Hc|done|].
  split; [exact Hc|]. split; [exact Hv|]. by apply Ht.
Defined.

(** ** The order of effects of a successful dispatch *)










(** ** What a dispatch can reach *)

Section Confined.

Context (w0 : World) (nid : positive).

#[local] Instance confined_preorder : PreOrder (confined w0 nid).
Proof.
  split.
  - intros w Hsk. by split.
  - intros w1 w2 w3 H12 H23 Hsk.
    destruct (H12 Hsk) as [S2 F2]. destruct (H23 S2) as [S3 F3].
    split; [done|]. intros n i Hn H0 H1. by rewrite F3, F2.
Qed.

Lemma confined_evolves T v w w' :
  (skeleton w = skeleton w0 →
   ∀ n i, T n i → n = nid ∨ slot_consumer w0 nid 0 n i ∨ slot_consumer w0 nid 1 n i) →
  evolves T v w w' → confined w0 nid w w'.
Proof.
  intros HT Hev Hsk. split; [by rewrite (ev_skeleton _ _ _ _ Hev)|].
  intros n i Hn H0 H1. apply (evolves_frame _ _ _ _ _ _ Hev).
  intros Ht. destruct (HT Hsk n i Ht) as [?|[?|?]]; done.
Qed.

Lemma runs_confined_emit e : runs (confined w0 nid) (emit e).
Proof.
  intros w. eapply confined_evolves, (evolves_add_event (λ _ _, False) VUndef). by intros _ ???.
Qed.

Lemma runs_confined_assign_captured name v : runs (confined w0 nid) (assign_captured nid name v).
Proof.
  intros w. destruct (assign_captured_local nid name v w) as (w' & E & Hev).
  unfold exec. rewrite E. eapply confined_evolves, Hev. intros _ n i ->. by left.
Qed.

Lemma runs_confined_setWidgetValue name v : runs (confined w0 nid) (setWidgetValue nid name v).
Proof.
  intros w. destruct (setWidgetValue_local nid name v w) as (w' & E & Hev).
  unfold exec. rewrite E. eapply confined_evolves, Hev. intros _ n i ->. by left.
Qed.

Lemma runs_confined_propagateOutput slotIndex v :
  slotIndex ∈ [0; 1] → runs (confined w0 nid) (propagateOutput nid slotIndex v).
Proof.
  intros Hs w. destruct (propagateOutput_spec nid slotIndex v w) as (w' & E & Hev & _).
  unfold exec. rewrite E. eapply confined_evolves, Hev.
  intros Hsk n i Hc%(slot_consumer_skeleton _ _ _ _ _ _ Hsk). right.
  apply elem_of_cons in Hs as [->|Hs]; [by left|].
  apply elem_of_cons in Hs as [->|Hs]; [by right|]. by apply elem_of_nil in Hs.
Qed.

Lemma runs_confined_on_error m : runs (confined w0 nid) (on_error nid m).
Proof.
  unfold on_error. runs_step.
  - apply runs_confined_assign_captured.
  - apply runs_confined_emit.
Qed.

Lemma runs_confined_on_response action data :
  runs (confined w0 nid) (on_response nid action data).
Proof.
  unfold on_response. runs_step.
  - destruct data; simpl; runs_step.
  - apply runs_confined_assign_captured.
  - destruct data; simpl; runs_step.
  - apply runs_confined_assign_captured.
  - apply runs_confined_propagateOutput. by_compute.
  - apply runs_confined_propagateOutput. by_compute.
  - apply runs_confined_setWidgetValue.
  - apply runs_confined_assign_captured.
  - apply runs_confined_emit.
Qed.

Lemma runs_confined_sendAction fetchApi : runs (confined w0 nid) (sendAction fetchApi nid).
Proof.
  unfold sendAction. runs_step.
  destruct (nodes _ !! nid) as [node|]; runs_step.
  - apply runs_confined_assign_captured.
  - apply runs_confined_emit.
  - unfold postJSON. runs_step; [apply runs_confined_emit|].
    destruct (fetchApi _ _) as [m|[] text [m|data]]; simpl; runs_step.
  - apply runs_confined_on_response.
  - apply runs_confined_on_error.
Qed.

End Confined.

(** X18.  Whatever the backend answers, a dispatch on node [nid] leaves
    every widget of every other node exactly as it was (value, backing
    element and callback), unless a link of output 0 or output 1 of [nid]
    delivers to it. *)
Theorem dispatch_is_confined (w : World) (fetchApi : Backend) (nid n : positive) (i : nat)
    (Hother : n ≠ nid)
    (Hreply : ¬ slot_consumer w nid 0 n i)
    (Hhistory : ¬ slot_consumer w nid 1 n i) :
  widget_at (exec (sendAction fetchApi nid) w) n i = widget_at w n i.
Proof.
  destruct (runs_confined_sendAction w nid fetchApi w eq_refl) as [_ Hframe].
  by apply Hframe.
Qed.

Lemma dispatch_is_confined_witness :
  value_at (exec (sendAction Backends.fine 1) Examples.studio) 4 1 = Some (VStr "gpt") ∧
  value_at (exec (sendAction Backends.fine 1) Examples.studio) 5 0 = Some (VStr "old").
Proof.
  assert (∀ s n i, (n, i) ∉ slot_consumers Examples.studio 1 s →
                   ¬ slot_consumer Examples.studio 1 s n i) as Hno.
  { intros s n i Hnot Hc%slot_consumer_elem%list_elem_of_In. by apply Hnot, list_elem_of_In. }
  unfold value_at. split.
  - rewrite (dispatch_is_confined Examples.studio Backends.fine 1 4 1); [done|done|..];
      apply Hno; by_compute.
  - rewrite (dispatch_is_confined Examples.studio Backends.fine 1 5 0); [done|done|..];
      apply Hno; by_compute.
Defined.
